(** * AttackMate: the command-execution engine and the session store

    A shallow embedding of [attackmate/baseexecutor.py] and
    [attackmate/msfsessionstore.py].

    Python objects live in an explicit heap, methods are computations in a
    state-and-exception monad, and every call to a collaborator (logger,
    regular-expression engine, variable store, file system, [time.sleep], the
    backend primitive) is recorded in a trace, newest event first. *)

From Stdlib Require Import ZArith Lia Ascii String List Bool.
From stdpp Require Import base option list strings gmap pretty fin_sets.

Local Open Scope string_scope.
Local Open Scope Z_scope.
Local Open Scope list_scope.

(** ** Python values *)

(** Exceptions.  [exit(code)] raises [SystemExit]; [ExecException] is the
    class declared in [baseexecutor.py], its payload rendered as text. *)
Inductive exn : Type :=
  | ExecException (payload : string)
  | SystemExit (code : Z)
  | TypeError
  | ValueError
  | AttributeError
  | KeyError
  | ReError
  | OSError (msg : string)
  | RecursionError.

Abbreviation loc := nat.

(** A value is an immutable atom or a reference to a mutable object. *)
Inductive pyval : Type :=
  | VNone
  | VBool (b : bool)
  | VInt (z : Z)
  | VStr (s : string)
  | VExc (e : exn)
  | VRef (l : loc).

(** [str(e)] for an exception that carries its text.  The others are
    rendered by a text of their class; the source never prints them (the
    [TypeError] of [outfile.write] has its own text, [write_refused]). *)
Definition str_exn (e : exn) : string :=
  match e with
  | ExecException payload => payload
  | SystemExit code => pretty code
  | TypeError => "TypeError"
  | ValueError => "ValueError"
  | AttributeError => "AttributeError"
  | KeyError => "KeyError"
  | ReError => "error"
  | OSError msg => msg
  | RecursionError => "maximum recursion depth exceeded"
  end.

(** [type(e).__name__] *)
Definition class_name (e : exn) : string :=
  match e with
  | ExecException _ => "ExecException"
  | SystemExit _ => "SystemExit"
  | TypeError => "TypeError"
  | ValueError => "ValueError"
  | AttributeError => "AttributeError"
  | KeyError => "KeyError"
  | ReError => "error"
  | OSError _ => "OSError"
  | RecursionError => "RecursionError"
  end.

(** [str(x)], as the f-strings of the source apply it. *)
Definition py_str (x : pyval) : string :=
  match x with
  | VNone => "None"
  | VBool true => "True"
  | VBool false => "False"
  | VInt z => pretty z
  | VStr s => s
  | VExc e => str_exn e
  | VRef l => "<object>"
  end.

(** ** Text: [str.isnumeric] and [int]

    A [string] is read as a Python [str] whose code points are below 256.
    In that range the characters with a Unicode numeric value are the ten
    decimal digits, the superscripts U+00B2, U+00B3, U+00B9 and the
    fractions U+00BC, U+00BD, U+00BE. *)
Definition is_decimal_char (c : ascii) : bool :=
  let n := N_of_ascii c in ((48 <=? n) && (n <=? 57))%N.

Definition is_numeric_char (c : ascii) : bool :=
  let n := N_of_ascii c in
  (is_decimal_char c
   || (n =? 178) || (n =? 179) || (n =? 185)
   || (n =? 188) || (n =? 189) || (n =? 190))%N.

Fixpoint all_chars (p : ascii -> bool) (s : string) : bool :=
  match s with
  | EmptyString => true
  | String c s' => p c && all_chars p s'
  end.

Definition isnumeric (s : string) : bool :=
  match s with
  | EmptyString => false
  | _ => all_chars is_numeric_char s
  end.

Fixpoint decimal_value (acc : Z) (s : string) : Z :=
  match s with
  | EmptyString => acc
  | String c s' => decimal_value (10 * acc + (Z.of_N (N_of_ascii c) - 48)) s'
  end.

(** [s.startswith(p)] and [p in s]. *)
Fixpoint is_prefix (p s : string) : bool :=
  match p, s with
  | EmptyString, _ => true
  | String a p', String b s' => Ascii.eqb a b && is_prefix p' s'
  | _, EmptyString => false
  end.

Fixpoint occurs (p s : string) : bool :=
  is_prefix p s ||
  match s with
  | EmptyString => false
  | String _ s' => occurs p s'
  end.

(** CPython refuses to convert more than this many digits. *)
Definition int_max_str_digits : nat := 4300.

(** ** Outcomes and the monad of methods *)

Inductive outcome (A : Type) : Type :=
  | Normal (a : A)
  | Raise (e : exn)
  | Undefined.
Arguments Normal {A} a.
Arguments Raise {A} e.
Arguments Undefined {A}.

(** [int(s)] for a text that [isnumeric] accepts: the conversion succeeds
    exactly when every character is a decimal digit. *)
Definition py_int (s : string) : outcome Z :=
  if all_chars is_decimal_char s && (String.length s <=? int_max_str_digits)%nat
  then Normal (decimal_value 0 s)
  else Raise ValueError.

Section Monad.
Context {S : Type}.

Definition M (A : Type) : Type := S -> outcome A * S.

Definition ret {A} (a : A) : M A := fun st => (Normal a, st).
Definition raise {A} (e : exn) : M A := fun st => (Raise e, st).
Definition undefined {A} : M A := fun st => (Undefined, st).

Definition bind {A B} (m : M A) (f : A -> M B) : M B :=
  fun st =>
    match m st with
    | (Normal a, st') => f a st'
    | (Raise e, st') => (Raise e, st')
    | (Undefined, st') => (Undefined, st')
    end.

Definition lift {A} (o : outcome A) : M A := fun st => (o, st).

(** [try: m  except ExecException as error: h error] *)
Definition try_except_ExecException {A} (m : M A) (h : string -> M A) : M A :=
  fun st =>
    match m st with
    | (Raise (ExecException payload), st') => h payload st'
    | r => r
    end.

(** [try: m  except Exception as e: h e]; [SystemExit] is not an
    [Exception]. *)
Definition try_except_Exception (m : M unit) (h : exn -> M unit) : M unit :=
  fun st =>
    match m st with
    | (Raise (SystemExit code), st') => (Raise (SystemExit code), st')
    | (Raise e, st') => h e st'
    | r => r
    end.
End Monad.
Arguments M : clear implicits.

Notation "'let*' x ':=' m 'in' k" := (bind m (fun x => k))
  (at level 10, x binder, m at level 100, k at level 200,
   format "'[v' 'let*'  x  ':='  m  'in' '/' k ']'").
Notation "m ;; k" := (bind m (fun _ => k))
  (at level 100, k at level 200, right associativity,
   format "'[v' m  ;; '/' k ']'").

Definition exit {S A} (code : Z) : M S A := raise (SystemExit code).

(** [variable_to_int] does not touch the executor. *)
Definition variable_to_int (variablename value : string) : outcome Z :=
  if isnumeric value then py_int value
  else Raise (ExecException
    ("Variable " +:+ variablename +:+ " has not a numeric value: " +:+ value)).

(** ** The heap

    Mutable objects: dictionaries (insertion-ordered, text keys), lists, and
    command descriptors.  A descriptor carries its attributes and the list
    that [list_template_vars()] returns for it ([schemas.py] declares one per
    command class). *)
Inductive pyobj : Type :=
  | ODict (items : list (string * pyval))
  | OList (elems : list pyval)
  | OCommand (attrs : list (string * pyval)) (template_vars : list string).

Abbreviation heap := (list pyobj).

(** [type(x).__name__]; the model keeps no subclass of a descriptor. *)
Definition type_name (h : heap) (x : pyval) : string :=
  match x with
  | VNone => "NoneType"
  | VBool _ => "bool"
  | VInt _ => "int"
  | VStr _ => "str"
  | VExc e => class_name e
  | VRef l =>
      match h !! l with
      | Some (ODict _) => "dict"
      | Some (OList _) => "list"
      | Some (OCommand _ _) => "BaseCommand"
      | None => "object"
      end
  end.

(** [str(e)] for the [TypeError] that [outfile.write(x)] raises when [x] is
    not text. *)
Definition write_refused (h : heap) (x : pyval) : string :=
  "write() argument must be str, not " +:+ type_name h x.

Definition children (o : pyobj) : list pyval :=
  match o with
  | ODict items => map snd items
  | OList elems => elems
  | OCommand attrs _ => map snd attrs
  end.

(** The object [o] with its children replaced, position by position. *)
Definition rebuild (o : pyobj) (ys : list pyval) : pyobj :=
  match o with
  | ODict items => ODict (zip (map fst items) ys)
  | OList _ => OList ys
  | OCommand attrs tv => OCommand (zip (map fst attrs) ys) tv
  end.

(** The empty object of the same class, as [deepcopy] creates it before it
    fills it. *)
Definition blank (o : pyobj) : pyobj :=
  match o with
  | ODict _ => ODict []
  | OList _ => OList []
  | OCommand _ tv => OCommand [] tv
  end.

Fixpoint assoc_get {V} (k : string) (l : list (string * V)) : option V :=
  match l with
  | [] => None
  | (k', v) :: l' => if String.eqb k k' then Some v else assoc_get k l'
  end.

(** [d[k] = v] and [setattr(o, k, v)]: overwrite in place, or append. *)
Fixpoint assoc_set {V} (k : string) (v : V) (l : list (string * V))
  : list (string * V) :=
  match l with
  | [] => [(k, v)]
  | (k', v') :: l' =>
      if String.eqb k k' then (k', v) :: l' else (k', v') :: assoc_set k v l'
  end.

(** [copy.deepcopy]: atoms are returned as they are; an object reached for
    the first time is allocated at the end of the heap, entered in the memo,
    and filled with the copies of its children, left to right; an object
    already in the memo is not copied again. *)
Abbreviation memo := (gmap nat nat).

Fixpoint mapM_copy (f : pyval -> heap -> memo -> option (pyval * heap * memo))
    (xs : list pyval) (h : heap) (m : memo)
  : option (list pyval * heap * memo) :=
  match xs with
  | [] => Some ([], h, m)
  | x :: xs' =>
      match f x h m with
      | None => None
      | Some (y, h1, m1) =>
          match mapM_copy f xs' h1 m1 with
          | None => None
          | Some (ys, h2, m2) => Some (y :: ys, h2, m2)
          end
      end
  end.

Fixpoint deepcopy_rec (fuel : nat) (x : pyval) (h : heap) (m : memo)
  : option (pyval * heap * memo) :=
  match x with
  | VRef l =>
      match m !! l with
      | Some l' => Some (VRef l', h, m)
      | None =>
          match fuel with
          | O => None
          | S fuel' =>
              match h !! l with
              | None => None
              | Some o =>
                  let l' := length h in
                  match mapM_copy (deepcopy_rec fuel') (children o)
                          (h ++ [blank o]) (<[l := l']> m) with
                  | None => None
                  | Some (ys, h2, m2) =>
                      Some (VRef l', <[l' := rebuild o ys]> h2, m2)
                  end
              end
          end
      end
  | _ => Some (x, h, m)
  end.

(** No chain of first visits is longer than the heap. *)
Definition deepcopy (x : pyval) (h : heap) : option (pyval * heap) :=
  match deepcopy_rec (S (length h)) x h ∅ with
  | Some (y, h', _) => Some (y, h')
  | None => None
  end.

(** ** Command descriptors, results and the trace *)

Module schemas.
(** The fields of [BaseCommand] that the executor reads. *)
Record BaseCommand : Type := {
  cmd : string;
  save : option string;
  exit_on_error : bool;
  error_if : option string;
  error_if_not : option string;
  loop_if : option string;
  loop_if_not : option string;
  loop_count : string
}.
End schemas.
Import schemas.

(** [Result(stdout, returncode)].  The class annotates [stdout: str] and
    [returncode: int]; the executor itself also builds results whose
    [stdout] is an exception object, and the placeholder [_exec_cmd] of the
    base class returns [Result(None, None)]. *)
Record Result : Type := { stdout : pyval; returncode : option Z }.

Record CmdConfig : Type := { loop_sleep : Z }.

Inductive level : Type := Debug | Info | Warn | Error.

Inductive event : Type :=
  | ELog (lv : level) (msg : string)
  | EOutput (msg : string)
  | EExecCmd (command : BaseCommand)
  | ESetVariable (name : string) (value : pyval)
  | ESearch (pattern : string) (text : pyval)
  | EOpen (path : string)
  | EWrite (path : string) (text : string)
  | ESleep (secs : Z)
  | EPut (queue : nat) (item : string * string)
  | EGet (queue : nat) (item : string * string)
  | ETaskDone (queue : nat).

Definition nl : string := String (ascii_of_nat 10) EmptyString.

(** Modelled from the spec: [VariableStore] ([variablestore.py] is not among
    the sources).  The store offers [set_variable(name, value)] and a
    black-box [substitute(text) -> text]; the variables are kept as a finite
    map and the substitution function is a parameter of the development. *)
Definition set_variable_in (name : string) (value : pyval)
    (vs : gmap string pyval) : gmap string pyval :=
  <[name := value]> vs.

(** ** [BaseExecutor] *)

Module BaseExecutor.

Record executor : Type := {
  varstore : gmap string pyval;
  cmdconfig : option CmdConfig;
  run_count : Z;
  objects : heap;
  attempts : nat;
  trace : list event
}.

Definition with_varstore vs (st : executor) : executor :=
  {| varstore := vs; cmdconfig := cmdconfig st; run_count := run_count st;
     objects := objects st; attempts := attempts st; trace := trace st |}.
Definition with_run_count n (st : executor) : executor :=
  {| varstore := varstore st; cmdconfig := cmdconfig st; run_count := n;
     objects := objects st; attempts := attempts st; trace := trace st |}.
Definition with_objects h (st : executor) : executor :=
  {| varstore := varstore st; cmdconfig := cmdconfig st;
     run_count := run_count st; objects := h; attempts := attempts st;
     trace := trace st |}.
Definition with_attempts n (st : executor) : executor :=
  {| varstore := varstore st; cmdconfig := cmdconfig st;
     run_count := run_count st; objects := objects st; attempts := n;
     trace := trace st |}.
Definition with_trace tr (st : executor) : executor :=
  {| varstore := varstore st; cmdconfig := cmdconfig st;
     run_count := run_count st; objects := objects st;
     attempts := attempts st; trace := tr |}.

Definition emit (e : event) : M executor unit :=
  fun st => (Normal tt, with_trace (e :: trace st) st).

Definition logger_debug msg := emit (ELog Debug msg).
Definition logger_info msg := emit (ELog Info msg).
Definition logger_warn msg := emit (ELog Warn msg).
Definition logger_error msg := emit (ELog Error msg).
Definition output_info msg := emit (EOutput msg).

Definition set_variable (name : string) (value : pyval) : M executor unit :=
  fun st =>
    (Normal tt,
     with_trace (ESetVariable name value :: trace st)
       (with_varstore (set_variable_in name value (varstore st)) st)).

Definition get_run_count : M executor Z := fun st => (Normal (run_count st), st).
Definition set_run_count (n : Z) : M executor unit :=
  fun st => (Normal tt, with_run_count n st).

(** [time.sleep(secs)] *)
Definition time_sleep (secs : Z) : M executor unit :=
  if secs <? 0 then raise ValueError else emit (ESleep secs).

(** [self.cmdconfig.loop_sleep]; [cmdconfig] defaults to [None]. *)
Definition cmdconfig_loop_sleep : M executor Z :=
  fun st =>
    match cmdconfig st with
    | Some cfg => (Normal (loop_sleep cfg), st)
    | None => (Raise AttributeError, st)
    end.

(** *** Objects *)

Definition getattr (o : loc) (name : string) : M executor pyval :=
  fun st =>
    match objects st !! o with
    | Some (OCommand attrs _) =>
        match assoc_get name attrs with
        | Some v => (Normal v, st)
        | None => (Raise AttributeError, st)
        end
    | Some _ => (Raise AttributeError, st)
    | None => (Undefined, st)
    end.

Definition setattr (o : loc) (name : string) (v : pyval) : M executor unit :=
  fun st =>
    match objects st !! o with
    | Some (OCommand attrs tv) =>
        (Normal tt,
         with_objects (<[o := OCommand (assoc_set name v attrs) tv]> (objects st)) st)
    | Some _ => (Raise AttributeError, st)
    | None => (Undefined, st)
    end.

Definition list_template_vars (o : loc) : M executor (list string) :=
  fun st =>
    match objects st !! o with
    | Some (OCommand _ tv) => (Normal tv, st)
    | Some _ => (Raise AttributeError, st)
    | None => (Undefined, st)
    end.

Definition copy_deepcopy (x : pyval) : M executor pyval :=
  fun st =>
    match deepcopy x (objects st) with
    | Some (y, h') => (Normal y, with_objects h' st)
    | None => (Undefined, st)
    end.

(** [isinstance(x, dict)] together with the items of the dictionary. *)
Definition as_dict (x : pyval) : M executor (option (loc * list (string * pyval))) :=
  fun st =>
    match x with
    | VRef d =>
        match objects st !! d with
        | Some (ODict items) => (Normal (Some (d, items)), st)
        | Some _ => (Normal None, st)
        | None => (Undefined, st)
        end
    | _ => (Normal None, st)
    end.

Definition dict_setitem (d : loc) (k : string) (v : pyval) : M executor unit :=
  fun st =>
    match objects st !! d with
    | Some (ODict items) =>
        (Normal tt, with_objects (<[d := ODict (assoc_set k v items)]> (objects st)) st)
    | Some _ => (Raise TypeError, st)
    | None => (Undefined, st)
    end.

Fixpoint for_each {A} (f : A -> M executor unit) (xs : list A) : M executor unit :=
  match xs with
  | [] => ret tt
  | x :: xs' => f x ;; for_each f xs'
  end.

Section Collaborators.
(** [self.varstore.substitute]. *)
Variable substitute : gmap string pyval -> string -> string.
(** The regular-expression engine: whether a pattern compiles, and the
    text of the first match of a compiled pattern ([m.group(0)]). *)
Variable re_valid : string -> bool.
Variable re_match : string -> string -> option string.
(** The backend primitive: what the [i]-th call of [_exec_cmd] does. *)
Variable _exec_cmd : nat -> BaseCommand -> outcome Result.
(** [open(path, "w")]: [None] when it succeeds, the text of the
    [OSError] otherwise. *)
Variable fs_open : string -> option string.
(** [str(command)]. *)
Variable str_command : BaseCommand -> string.
(** The interpreter: how many retries, each a call of [exec] nested in the
    one before, the call stack has room for below the first call of [exec]
    (two frames a retry, out of what [sys.getrecursionlimit()] leaves).
    Where in the call that does not fit the [RecursionError] comes up is
    not modelled: it is raised on entry. *)
Variable recursion_limit : nat.

Definition varstore_substitute (text : string) : M executor string :=
  fun st => (Normal (substitute (varstore st) text), st).

(** The body of [for k, v in new_cmd_member.items()]. *)
Definition replace_item (d : loc) (kv : string * pyval) : M executor unit :=
  match snd kv with
  | VStr v =>
      let* r := varstore_substitute v in
      dict_setitem d (fst kv) (VStr r)
  | _ => ret tt
  end.

(** The body of [for member in command.list_template_vars()]. *)
Definition replace_member (command template_cmd : loc) (member : string)
  : M executor unit :=
  let* cmd_member := getattr command member in
  match cmd_member with
  | VStr text =>
      let* replaced_str := varstore_substitute text in
      setattr template_cmd member (VStr replaced_str)
  | _ => ret tt
  end ;;
  let* is_dict := as_dict cmd_member in
  match is_dict with
  | Some _ =>
      let* new_cmd_member := copy_deepcopy cmd_member in
      let* new_dict := as_dict new_cmd_member in
      match new_dict with
      | Some (d, items) =>
          for_each (replace_item d) items ;;
          setattr template_cmd member new_cmd_member
      | None => undefined
      end
  | None => ret tt
  end.

Definition replace_variables (command : loc) : M executor loc :=
  let* template_cmd := copy_deepcopy (VRef command) in
  match template_cmd with
  | VRef template_cmd =>
      let* members := list_template_vars command in
      for_each (replace_member command template_cmd) members ;;
      ret template_cmd
  | _ => undefined
  end.

(** *** The lifecycle pipeline *)

Definition log_command (command : BaseCommand) : M executor unit :=
  logger_info ("Executing '" +:+ str_command command +:+ "'").

Definition call_exec_cmd (command : BaseCommand) : M executor Result :=
  fun st =>
    (_exec_cmd (attempts st) command,
     with_trace (EExecCmd command :: trace st)
       (with_attempts (S (attempts st)) st)).

(** [re.search(pattern, text, re.MULTILINE)]: the pattern is compiled
    first, then the subject must be text. *)
Definition re_search (pattern : string) (text : pyval)
  : M executor (option string) :=
  emit (ESearch pattern text) ;;
  if re_valid pattern then
    match text with
    | VStr s => ret (re_match pattern s)
    | _ => raise TypeError
    end
  else raise ReError.

Definition open_w (path : string) : M executor unit :=
  match fs_open path with
  | None => emit (EOpen path)
  | Some msg => raise (OSError msg)
  end.

Definition outfile_write (path : string) (text : pyval) : M executor unit :=
  match text with
  | VStr s => emit (EWrite path s)
  | _ => raise TypeError
  end.

(** [str(e)] in the handler of [save_output].  [open] fails with the text
    of the system; the only [TypeError] that the block raises is the one of
    [outfile.write(x)]. *)
Definition str_caught (x : pyval) (e : exn) : M executor string :=
  fun st =>
    (Normal match e with
            | TypeError => write_refused (objects st) x
            | _ => str_exn e
            end, st).

(** [if command.save:] holds for a non-empty text. *)
Definition truthy (x : option string) : bool :=
  match x with
  | Some (String _ _) => true
  | _ => false
  end.

Definition save_output (command : BaseCommand) (result : Result)
  : M executor unit :=
  match save command with
  | Some path =>
      if truthy (save command) then
        try_except_Exception
          (open_w path ;; outfile_write path (stdout result))
          (fun e =>
             let* text := str_caught (stdout result) e in
             logger_warn
               ("Unable to write output to file " +:+ path +:+ ": " +:+ text))
      else ret tt
  | None => ret tt
  end.

Definition returncode_ne_0 (result : Result) : bool :=
  match returncode result with
  | Some 0 => false
  | _ => true
  end.

Definition str_returncode (result : Result) : string :=
  match returncode result with
  | Some z => pretty z
  | None => "None"
  end.

Definition error_if (command : BaseCommand) (result : Result)
  : M executor unit :=
  match schemas.error_if command with
  | Some pattern =>
      let* m := re_search pattern (stdout result) in
      match m with
      | Some group0 =>
          logger_error ("Exitting because error_if matches: " +:+ group0) ;;
          exit 1
      | None => ret tt
      end
  | None => ret tt
  end.

Definition error_if_not (command : BaseCommand) (result : Result)
  : M executor unit :=
  match schemas.error_if_not command with
  | Some pattern =>
      let* m := re_search pattern (stdout result) in
      match m with
      | None =>
          logger_error "Exitting because error_if_not does not match" ;;
          exit 1
      | Some _ => ret tt
      end
  | None => ret tt
  end.

(** The retry decision shared by [loop_if] and [loop_if_not]. *)
Definition rerun (exec : BaseCommand -> M executor unit)
    (command : BaseCommand) : M executor unit :=
  let* count := get_run_count in
  let* limit := lift (variable_to_int "loop_count" (loop_count command)) in
  if count <? limit then
    set_run_count (count + 1) ;;
    (let* secs := cmdconfig_loop_sleep in time_sleep secs) ;;
    exec command
  else
    logger_error "Exitting because loop_count exceeded" ;;
    exit 1.

Definition loop_if (exec : BaseCommand -> M executor unit)
    (command : BaseCommand) (result : Result) : M executor unit :=
  match schemas.loop_if command with
  | Some pattern =>
      let* m := re_search pattern (stdout result) in
      match m with
      | Some group0 =>
          logger_warn ("Re-run command because loop_if matches: " +:+ group0) ;;
          rerun exec command
      | None => logger_debug "loop_if does not match"
      end
  | None => ret tt
  end.

Definition loop_if_not (exec : BaseCommand -> M executor unit)
    (command : BaseCommand) (result : Result) : M executor unit :=
  match schemas.loop_if_not command with
  | Some pattern =>
      let* m := re_search pattern (stdout result) in
      match m with
      | None =>
          logger_warn "Re-run command because loop_if_not does not match" ;;
          rerun exec command
      | Some _ => logger_debug "loop_if_not does not match"
      end
  | None => ret tt
  end.

(** The [try] block of [exec] and its handler. *)
Definition attempt (command : BaseCommand) : M executor Result :=
  try_except_ExecException
    (log_command command ;; call_exec_cmd command)
    (fun error =>
       ret {| stdout := VExc (ExecException error); returncode := Some 1 |}).

(** One pass of [exec]; [self.exec] is the recursive call. *)
Definition exec_body (exec : BaseCommand -> M executor unit)
    (command : BaseCommand) : M executor unit :=
  let* result := attempt command in
  (if returncode_ne_0 result && exit_on_error command then
     logger_error (py_str (stdout result)) ;;
     logger_debug "Exiting because return-code is not 0" ;;
     exit 1
   else ret tt) ;;
  set_variable "RESULT_STDOUT" (stdout result) ;;
  set_variable "RESULT_RETURNCODE" (VStr (str_returncode result)) ;;
  output_info ("Command: " +:+ cmd command +:+ nl +:+ py_str (stdout result)) ;;
  save_output command result ;;
  error_if command result ;;
  error_if_not command result ;;
  loop_if exec command result ;;
  loop_if_not exec command result.

(** [exec] with room for [depth] calls of itself, one inside the other:
    a retry is a call of [self.exec] from [loop_if] or [loop_if_not], and
    the call that the stack has no room for raises [RecursionError]. *)
Fixpoint exec_rec (depth : nat) (command : BaseCommand) : M executor unit :=
  match depth with
  | O => raise RecursionError
  | S depth' => exec_body (exec_rec depth') command
  end.

(** The call of [exec] from outside, and [recursion_limit] retries nested
    in it. *)
Definition exec (command : BaseCommand) : M executor unit :=
  exec_rec (S recursion_limit) command.

(** The attributes of a descriptor, read with the types of the schema. *)
Definition opt_text (x : pyval) : option (option string) :=
  match x with
  | VNone => Some None
  | VStr s => Some (Some s)
  | _ => None
  end.

Definition read_command (h : heap) (o : loc) : option BaseCommand :=
  match h !! o with
  | Some (OCommand attrs _) =>
      match assoc_get "cmd" attrs, assoc_get "save" attrs,
            assoc_get "exit_on_error" attrs,
            assoc_get "error_if" attrs, assoc_get "error_if_not" attrs,
            assoc_get "loop_if" attrs, assoc_get "loop_if_not" attrs,
            assoc_get "loop_count" attrs with
      | Some (VStr c), Some sv, Some (VBool x), Some e1, Some e2,
        Some l1, Some l2, Some (VStr n) =>
          match opt_text sv, opt_text e1, opt_text e2, opt_text l1, opt_text l2 with
          | Some sv, Some e1, Some e2, Some l1, Some l2 =>
              Some {| cmd := c; save := sv; exit_on_error := x;
                      schemas.error_if := e1; schemas.error_if_not := e2;
                      schemas.loop_if := l1; schemas.loop_if_not := l2;
                      loop_count := n |}
          | _, _, _, _, _ => None
          end
      | _, _, _, _, _, _, _, _ => None
      end
  | _ => None
  end.

Definition the_command (o : loc) : M executor BaseCommand :=
  fun st =>
    match read_command (objects st) o with
    | Some c => (Normal c, st)
    | None => (Undefined, st)
    end.

Definition run (command : loc) : M executor unit :=
  set_run_count 1 ;;
  let* template := getattr command "cmd" in
  logger_debug ("Template-Command: '" +:+ py_str template +:+ "'") ;;
  let* replaced := replace_variables command in
  let* c := the_command replaced in
  exec c.
End Collaborators.
End BaseExecutor.

(** ** Collaborators for the examples

    For a pattern made of literal characters [re.search] is a substring
    search and the match is the pattern itself; the examples use such
    patterns only. *)
Module Examples.
Definition literal_valid (pattern : string) : bool := true.
Definition literal_match (pattern text : string) : option string :=
  if occurs pattern text then Some pattern else None.

(** A variable store that replaces a text ["$NAME"] by the text stored
    under [NAME], and leaves every other text as it is. *)
Definition substitute_whole (vs : gmap string pyval) (text : string) : string :=
  match text with
  | String "$" name =>
      match vs !! name with
      | Some (VStr v) => v
      | _ => text
      end
  | _ => text
  end.

Definition fs_ok (path : string) : option string := None.

(** A backend that prints the same text on every attempt. *)
Definition prints (text : string) (i : nat) (command : BaseCommand)
  : outcome Result :=
  Normal {| stdout := VStr text; returncode := Some 0 |}.

(** A backend whose every attempt fails with [ExecException]. *)
Definition fails (payload : string) (i : nat) (command : BaseCommand)
  : outcome Result :=
  Raise (ExecException payload).

Definition init (cfg : option CmdConfig) (h : heap) : BaseExecutor.executor :=
  {| BaseExecutor.varstore := ∅; BaseExecutor.cmdconfig := cfg;
     BaseExecutor.run_count := 1; BaseExecutor.objects := h;
     BaseExecutor.attempts := 0; BaseExecutor.trace := [] |}.

(** The object of a descriptor; every attribute is a template variable. *)
Definition text_or_none (x : option string) : pyval :=
  match x with
  | Some s => VStr s
  | None => VNone
  end.

Definition names : list string :=
  ["cmd"; "save"; "exit_on_error"; "error_if"; "error_if_not"; "loop_if";
   "loop_if_not"; "loop_count"].

Definition command_object (c : BaseCommand) : pyobj :=
  OCommand
    [("cmd", VStr (cmd c)); ("save", text_or_none (save c));
     ("exit_on_error", VBool (exit_on_error c));
     ("error_if", text_or_none (error_if c));
     ("error_if_not", text_or_none (error_if_not c));
     ("loop_if", text_or_none (loop_if c));
     ("loop_if_not", text_or_none (loop_if_not c));
     ("loop_count", VStr (loop_count c))]
    names.

Definition a_command (loop_if loop_if_not error_if : option string)
    (loop_count : string) : BaseCommand :=
  {| cmd := "check"; save := None; exit_on_error := false;
     schemas.error_if := error_if; error_if_not := None;
     schemas.loop_if := loop_if; schemas.loop_if_not := loop_if_not;
     schemas.loop_count := loop_count |}.

Definition five_seconds : option CmdConfig := Some {| loop_sleep := 5 |}.

Definition looping : BaseCommand := a_command (Some "pending") None None "3".
Definition not_ready : BaseCommand := a_command None (Some "READY") None "3".

(** An executor whose heap holds the descriptor [c] at location 0. *)
Definition fresh_executor (c : BaseCommand) : BaseExecutor.executor :=
  init five_seconds [command_object c].

(** A heap with a mapping at location 0 and, at location 1, a descriptor
    whose template variables are [cmd] and [options]; [note] is not one. *)
Definition module_heap : heap :=
  [ODict [("RHOSTS", VStr "$TARGET"); ("RPORT", VInt 445)];
   OCommand [("cmd", VStr "$CMD"); ("options", VRef 0%nat);
             ("note", VStr "$CMD"); ("exit_on_error", VBool true)]
     ["cmd"; "options"]].

Definition module_executor : BaseExecutor.executor :=
  {| BaseExecutor.varstore :=
       <["TARGET" := VStr "10.0.0.1"]> (<["CMD" := VStr "whoami"]> ∅);
     BaseExecutor.cmdconfig := five_seconds;
     BaseExecutor.run_count := 1; BaseExecutor.objects := module_heap;
     BaseExecutor.attempts := 0; BaseExecutor.trace := [] |}.

(** A backend whose every attempt fails with [ValueError]. *)
Definition breaks (i : nat) (command : BaseCommand) : outcome Result :=
  Raise ValueError.

(** A call stack with room for a hundred nested retries. *)
Definition room : nat := 100.

Definition run_with (backend : nat -> BaseCommand -> outcome Result) :=
  BaseExecutor.run substitute_whole literal_valid literal_match backend fs_ok cmd
    room.

Definition exec_with (backend : nat -> BaseCommand -> outcome Result) :=
  BaseExecutor.exec literal_valid literal_match backend fs_ok cmd room.
End Examples.

(** ** [MsfSessionStore] *)

Module MsfSessionStore.

(** A queue is a shared object: the store holds a reference to one in
    [self.queue], the waiting functions receive one as an argument, and
    both may be the same queue. *)
Abbreviation item := (string * string)%type.

Record store : Type := {
  sessions : gmap string string;
  queue : option nat;
  get_session_wait_time : Z;
  varstore : gmap string pyval;
  queues : list (list item);
  reads : nat;
  trace : list event
}.

Definition with_sessions d (st : store) : store :=
  {| sessions := d; queue := queue st;
     get_session_wait_time := get_session_wait_time st;
     varstore := varstore st; queues := queues st; reads := reads st;
     trace := trace st |}.
Definition with_varstore vs (st : store) : store :=
  {| sessions := sessions st; queue := queue st;
     get_session_wait_time := get_session_wait_time st;
     varstore := vs; queues := queues st; reads := reads st;
     trace := trace st |}.
Definition with_queues qs (st : store) : store :=
  {| sessions := sessions st; queue := queue st;
     get_session_wait_time := get_session_wait_time st;
     varstore := varstore st; queues := qs; reads := reads st;
     trace := trace st |}.
Definition with_reads n (st : store) : store :=
  {| sessions := sessions st; queue := queue st;
     get_session_wait_time := get_session_wait_time st;
     varstore := varstore st; queues := queues st; reads := n;
     trace := trace st |}.
Definition with_trace tr (st : store) : store :=
  {| sessions := sessions st; queue := queue st;
     get_session_wait_time := get_session_wait_time st;
     varstore := varstore st; queues := queues st; reads := reads st;
     trace := tr |}.

(** [MsfSessionStore(varstore)] *)
Definition __init__ (vs : gmap string pyval) (qs : list (list item)) : store :=
  {| sessions := ∅; queue := None; get_session_wait_time := 5;
     varstore := vs; queues := qs; reads := 0; trace := [] |}.

Definition emit (e : event) : M store unit :=
  fun st => (Normal tt, with_trace (e :: trace st) st).
Definition logger_debug msg := emit (ELog Debug msg).

Definition time_sleep (secs : Z) : M store unit :=
  if secs <? 0 then raise ValueError else emit (ESleep secs).

Definition set_variable (name : string) (value : pyval) : M store unit :=
  fun st =>
    (Normal tt,
     with_trace (ESetVariable name value :: trace st)
       (with_varstore (set_variable_in name value (varstore st)) st)).

Definition queue_put (q : nat) (x : item) : M store unit :=
  fun st =>
    match queues st !! q with
    | Some content =>
        (Normal tt,
         with_trace (EPut q x :: trace st)
           (with_queues (<[q := content ++ [x]]> (queues st)) st))
    | None => (Undefined, st)
    end.

Definition add_session (name uuid : string) : M store unit :=
  logger_debug ("Set MSF-Session: " +:+ name +:+ " = " +:+ uuid) ;;
  fun st => (Normal tt, with_sessions (<[name := uuid]> (sessions st)) st).

Definition queue_get (q : nat) : M store item :=
  fun st =>
    match queues st !! q with
    | Some (x :: rest) =>
        (Normal x, with_trace (EGet q x :: trace st)
                     (with_queues (<[q := rest]> (queues st)) st))
    | _ => (Undefined, st)
    end.

(** [while not self.queue.empty(): ...], for a queue that holds [pending]
    items and receives none meanwhile. *)
Fixpoint drain_loop (q : nat) (pending : nat) : M store unit :=
  match pending with
  | O => ret tt
  | S pending' =>
      let* item := queue_get q in
      logger_debug ("Session from Queue: " +:+ fst item +:+ " = " +:+ snd item) ;;
      add_session (fst item) (snd item) ;;
      emit (ETaskDone q) ;;
      (let* secs := (fun st => (Normal (get_session_wait_time st), st)) in
       time_sleep secs) ;;
      drain_loop q pending'
  end.

(** [if self.queue: ...]: a queue object is true, [None] is not. *)
Definition drain : M store unit :=
  fun st =>
    match queue st with
    | Some q =>
        match queues st !! q with
        | Some pending => drain_loop q (length pending) st
        | None => (Undefined, st)
        end
    | None => (Normal tt, st)
    end.

(** The first handle of the registry whose correlation id is the one the
    directory holds for [name]. *)
Fixpoint scan (name : string) (directory : gmap string string)
    (registry : list (string * string)) : option string :=
  match registry with
  | [] => None
  | (k, exploit_uuid) :: registry' =>
      match directory !! name with
      | Some known =>
          if String.eqb exploit_uuid known then Some k
          else scan name directory registry'
      | None => scan name directory registry'
      end
  end.

Fixpoint first_with_uuid (uuid : string) (registry : list (string * string))
  : option string :=
  match registry with
  | [] => None
  | (session_id, exploit_uuid) :: registry' =>
      if String.eqb exploit_uuid uuid then Some session_id
      else first_with_uuid uuid registry'
  end.

Fixpoint first_new (known : list string) (registry : list (string * string))
  : option (string * string) :=
  match registry with
  | [] => None
  | (session_id, exploit_uuid) :: registry' =>
      if bool_decide (session_id ∈ known) then first_new known registry'
      else Some (session_id, exploit_uuid)
  end.

Definition add_or_queue_session (name uuid : string) (queue : option nat)
    (session_id : string) : M store unit :=
  let seconds := 30 in
  match queue with
  | Some q => queue_put q (name, uuid)
  | None =>
      add_session name uuid ;;
      logger_debug ("Set LAST_MSF_SESSION: " +:+ session_id) ;;
      set_variable "LAST_MSF_SESSION" (VStr session_id) ;;
      logger_debug ("Waiting " +:+ pretty seconds +:+ " seconds for session to get ready") ;;
      time_sleep seconds
  end.

Section Registry.
(** The live registry of the framework: what the [i]-th evaluation of
    [msfsessions.list] returns, handles with their [exploit_uuid] in
    the order of iteration. *)
Variable msfsessions_list : nat -> list (string * string).
(** [str(msfsessions.list)]. *)
Variable str_sessions : list (string * string) -> string.

Definition msfsessions : M store (list (string * string)) :=
  fun st => (Normal (msfsessions_list (reads st)), with_reads (S (reads st)) st).

Fixpoint get_session_by_name (rounds : nat) (name : string) (block : bool)
  : M store string :=
  match rounds with
  | O => undefined
  | S rounds' =>
      drain ;;
      let* registry := msfsessions in
      let* found := (fun st => (Normal (scan name (sessions st) registry), st)) in
      match found with
      | Some k => ret k
      | None =>
          if negb block then
            raise (ExecException ("Session (" +:+ name +:+ ") not found"))
          else
            time_sleep 3 ;;
            get_session_by_name rounds' name block
      end
  end.

Fixpoint wait_for_session_loop (rounds : nat) (name uuid : string)
    (queue : option nat) : M store unit :=
  match rounds with
  | O => undefined
  | S rounds' =>
      let* keys := msfsessions in
      if (0 <? length keys)%nat then
        let* registry := msfsessions in
        match first_with_uuid uuid registry with
        | Some session_id => add_or_queue_session name uuid queue session_id
        | None => wait_for_session_loop rounds' name uuid queue
        end
      else wait_for_session_loop rounds' name uuid queue
  end.

Definition wait_for_session (rounds : nat) (name uuid : string)
    (queue : option nat) : M store unit :=
  let* shown := msfsessions in
  logger_debug ("Sessions: " +:+ str_sessions shown) ;;
  wait_for_session_loop rounds name uuid queue.

Fixpoint wait_for_increased_session_loop (rounds : nat)
    (stored_list_len : nat) (known : list string) (name : string)
    (queue : option nat) : M store unit :=
  match rounds with
  | O => undefined
  | S rounds' =>
      let* keys := msfsessions in
      if (stored_list_len <? length keys)%nat then
        let* registry := msfsessions in
        match first_new known registry with
        | Some (session_id, exploit_uuid) =>
            add_or_queue_session name exploit_uuid queue session_id ;;
            let* shown := msfsessions in
            logger_debug ("Sessions: " +:+ str_sessions shown)
        | None =>
            wait_for_increased_session_loop rounds' stored_list_len known name queue
        end
      else wait_for_increased_session_loop rounds' stored_list_len known name queue
  end.

Definition wait_for_increased_session (rounds : nat) (name uuid : string)
    (queue : option nat) : M store unit :=
  let* first := msfsessions in
  let stored_list_len := length first in
  let* second := msfsessions in
  let known := map fst second in
  wait_for_increased_session_loop rounds stored_list_len known name queue.
End Registry.
End MsfSessionStore.

(** ** Registries and stores for the examples *)
Module SessionExamples.
(** A registry that shows the same handles at every evaluation. *)
Definition steady (registry : list (string * string)) (i : nat)
  : list (string * string) := registry.

Definition show_sessions (registry : list (string * string)) : string :=
  "{...}".

(** The store of the process that owns the directory: the directory is
    empty and [self.queue] is the queue 0, which holds [pending]. *)
Definition owner (pending : list (string * string)) : MsfSessionStore.store :=
  {| MsfSessionStore.sessions := ∅; MsfSessionStore.queue := Some 0%nat;
     MsfSessionStore.get_session_wait_time := 5;
     MsfSessionStore.varstore := ∅; MsfSessionStore.queues := [pending];
     MsfSessionStore.reads := 0; MsfSessionStore.trace := [] |}.

(** The store of a worker process; the queue 0 is the shared one. *)
Definition worker : MsfSessionStore.store :=
  MsfSessionStore.__init__ ∅ [[]].

(** A registry that is empty for the first [n] evaluations and shows
    [registry] from then on. *)
Definition appears_at (n : nat) (registry : list (string * string)) (i : nat)
  : list (string * string) :=
  if (i <? n)%nat then [] else registry.

(** A registry that shows [before] for the first [n] evaluations and
    [after] from then on. *)
Definition changes_at (n : nat) (before after : list (string * string))
    (i : nat) : list (string * string) :=
  if (i <? n)%nat then before else after.
End SessionExamples.

(** ** Observations

    What the statements below say about a run is read off the trace and the
    final state. *)

Definition is_exec_cmd (e : event) : bool :=
  match e with EExecCmd _ => true | _ => false end.
Definition is_sleep (e : event) : bool :=
  match e with ESleep _ => true | _ => false end.
Definition is_search (e : event) : bool :=
  match e with ESearch _ _ => true | _ => false end.
Definition is_set_variable (e : event) : bool :=
  match e with ESetVariable _ _ => true | _ => false end.
Definition is_put (e : event) : bool :=
  match e with EPut _ _ => true | _ => false end.
Definition is_file (e : event) : bool :=
  match e with EOpen _ | EWrite _ _ => true | _ => false end.
(** The warning with which [loop_if] and [loop_if_not] announce that their
    predicate asks for another run. *)
Definition is_rerun (e : event) : bool :=
  match e with
  | ELog Warn msg => is_prefix "Re-run command because" msg
  | _ => false
  end.

Fixpoint count (p : event -> bool) (tr : list event) : nat :=
  match tr with
  | [] => O
  | e :: tr' => ((if p e then 1 else 0) + count p tr')%nat
  end.

(** The result that [exec] classifies after an attempt: the one the
    primitive returned, or the one the handler of [ExecException] built. *)
Definition attempt_result (o : outcome Result) : option Result :=
  match o with
  | Normal r => Some r
  | Raise (ExecException error) =>
      Some {| stdout := VExc (ExecException error); returncode := Some 1 |}
  | _ => None
  end.

(** The executor after the attempt (steps 1 and 2). *)
Definition attempted (str_command : BaseCommand -> string)
    (command : BaseCommand) (st : BaseExecutor.executor) : BaseExecutor.executor :=
  BaseExecutor.with_trace
    (EExecCmd command
     :: ELog Info ("Executing '" +:+ str_command command +:+ "'")
     :: BaseExecutor.trace st)
    (BaseExecutor.with_attempts (S (BaseExecutor.attempts st)) st).

(** The events of [save_output], newest first. *)
Definition save_events (fs_open : string -> option string)
    (command : BaseCommand) (result : Result) (h : heap) : list event :=
  match save command with
  | Some path =>
      if BaseExecutor.truthy (save command) then
        match fs_open path with
        | Some msg =>
            [ELog Warn ("Unable to write output to file " +:+ path +:+ ": " +:+ msg)]
        | None =>
            match stdout result with
            | VStr s => [EWrite path s; EOpen path]
            | _ =>
                [ELog Warn ("Unable to write output to file " +:+ path +:+ ": "
                            +:+ write_refused h (stdout result));
                 EOpen path]
            end
        end
      else []
  | None => []
  end.

(** The executor after the result is published, shown and saved (steps 4
    to 6). *)
Definition published (fs_open : string -> option string)
    (command : BaseCommand) (result : Result) (st : BaseExecutor.executor)
  : BaseExecutor.executor :=
  BaseExecutor.with_trace
    (save_events fs_open command result (BaseExecutor.objects st)
     ++ EOutput ("Command: " +:+ cmd command +:+ nl +:+ py_str (stdout result))
     :: ESetVariable "RESULT_RETURNCODE" (VStr (BaseExecutor.str_returncode result))
     :: ESetVariable "RESULT_STDOUT" (stdout result)
     :: BaseExecutor.trace st)
    (BaseExecutor.with_varstore
       (set_variable_in "RESULT_RETURNCODE" (VStr (BaseExecutor.str_returncode result))
          (set_variable_in "RESULT_STDOUT" (stdout result) (BaseExecutor.varstore st)))
       st).

(** Step 3 lets the result through. *)
Definition not_fatal (command : BaseCommand) (result : Result) : Prop :=
  exit_on_error command = false \/ returncode result = Some 0.

(** The error predicates (steps 7 and 8) let the text through. *)
Definition passes_errors (re_valid : string -> bool)
    (re_match : string -> string -> option string)
    (command : BaseCommand) (text : string) : Prop :=
  (forall p, error_if command = Some p ->
     re_valid p = true /\ re_match p text = None) /\
  (forall p, error_if_not command = Some p ->
     re_valid p = true /\ is_Some (re_match p text)).

Definition search_events (pattern : option string) (text : pyval) : list event :=
  match pattern with
  | Some p => [ESearch p text]
  | None => []
  end.

(** The executor after both error predicates let the result through. *)
Definition classified (command : BaseCommand) (result : Result)
    (st : BaseExecutor.executor) : BaseExecutor.executor :=
  BaseExecutor.with_trace
    (search_events (error_if_not command) (stdout result)
     ++ search_events (error_if command) (stdout result)
     ++ BaseExecutor.trace st) st.

(** [loop_if] asks for another run on this text. *)
Definition loop_if_triggers (re_valid : string -> bool)
    (re_match : string -> string -> option string)
    (command : BaseCommand) (text : string) : Prop :=
  exists p, loop_if command = Some p /\ re_valid p = true
            /\ is_Some (re_match p text).

(** [loop_if] does not, and [loop_if_not] does. *)
Definition loop_if_not_triggers (re_valid : string -> bool)
    (re_match : string -> string -> option string)
    (command : BaseCommand) (text : string) : Prop :=
  (forall p, loop_if command = Some p ->
     re_valid p = true /\ re_match p text = None) /\
  exists q, loop_if_not command = Some q /\ re_valid q = true
            /\ re_match q text = None.

(** The events of a [loop_if] that does not ask for another run. *)
Definition loop_if_quiet_events (command : BaseCommand) (text : string)
  : list event :=
  match loop_if command with
  | Some p => [ELog Debug "loop_if does not match"; ESearch p (VStr text)]
  | None => []
  end.

(** [s] is the executor at the retry decision that follows one attempt
    made from [st]. *)
Definition at_decision (st s : BaseExecutor.executor) : Prop :=
  BaseExecutor.attempts s = S (BaseExecutor.attempts st)
  /\ BaseExecutor.run_count s = BaseExecutor.run_count st
  /\ BaseExecutor.cmdconfig s = BaseExecutor.cmdconfig st
  /\ BaseExecutor.objects s = BaseExecutor.objects st
  /\ count is_exec_cmd (BaseExecutor.trace s)
     = S (count is_exec_cmd (BaseExecutor.trace st))
  /\ count is_sleep (BaseExecutor.trace s) = count is_sleep (BaseExecutor.trace st)
  /\ count is_rerun (BaseExecutor.trace s)
     = S (count is_rerun (BaseExecutor.trace st)).

(** A method that touches nothing but the heap. *)
Definition only_objects {A} (m : M BaseExecutor.executor A) : Prop :=
  forall st o st',
    m st = (o, st') -> st' = BaseExecutor.with_objects (BaseExecutor.objects st') st.

(** [run] hands the descriptor [c], read from the substituted copy of
    [command], to [exec] in the state [s]. *)
Definition runs_as (substitute : gmap string pyval -> string -> string)
    (command : loc) (st : BaseExecutor.executor)
    (c : BaseCommand) (s : BaseExecutor.executor) : Prop :=
  exists template replaced,
    BaseExecutor.getattr command "cmd" (BaseExecutor.with_run_count 1 st)
    = (Normal template, BaseExecutor.with_run_count 1 st)
    /\ BaseExecutor.replace_variables substitute command
         (BaseExecutor.with_trace
            (ELog Debug ("Template-Command: '" +:+ py_str template +:+ "'")
             :: BaseExecutor.trace st)
            (BaseExecutor.with_run_count 1 st))
       = (Normal replaced, s)
    /\ BaseExecutor.read_command (BaseExecutor.objects s) replaced = Some c.

(** An attempt whose result reaches the loop predicates and makes one of
    them ask for another run. *)
Definition asks_rerun (re_valid : string -> bool)
    (re_match : string -> string -> option string)
    (command : BaseCommand) (o : outcome Result) : Prop :=
  exists result text,
    attempt_result o = Some result /\ stdout result = VStr text
    /\ not_fatal command result
    /\ passes_errors re_valid re_match command text
    /\ (loop_if_triggers re_valid re_match command text
        \/ loop_if_not_triggers re_valid re_match command text).

(** An attempt whose result reaches the loop predicates and makes
    [loop_if] ask for another run. *)
Definition loops (re_valid : string -> bool)
    (re_match : string -> string -> option string)
    (command : BaseCommand) (o : outcome Result) : Prop :=
  exists result text,
    attempt_result o = Some result /\ stdout result = VStr text
    /\ not_fatal command result
    /\ passes_errors re_valid re_match command text
    /\ loop_if_triggers re_valid re_match command text.

(** ** Observations on the session store *)

(** The directory after the pending items are merged, oldest first. *)
Definition merge (pending : list MsfSessionStore.item)
    (directory : gmap string string) : gmap string string :=
  foldl (fun d x => <[fst x := snd x]> d) directory pending.

(** The events of one turn of the drain loop, newest first. *)
Definition drain_events (q : nat) (secs : Z) (x : MsfSessionStore.item)
  : list event :=
  [ESleep secs; ETaskDone q;
   ELog Debug ("Set MSF-Session: " +:+ fst x +:+ " = " +:+ snd x);
   ELog Debug ("Session from Queue: " +:+ fst x +:+ " = " +:+ snd x);
   EGet q x].

(** The store after the queue [q], holding [pending], is drained. *)
Fixpoint drained (q : nat) (pending : list MsfSessionStore.item)
    (st : MsfSessionStore.store) : MsfSessionStore.store :=
  match pending with
  | [] => st
  | x :: rest =>
      drained q rest
        (MsfSessionStore.with_trace
           (drain_events q (MsfSessionStore.get_session_wait_time st) x
            ++ MsfSessionStore.trace st)
           (MsfSessionStore.with_sessions
              (<[fst x := snd x]> (MsfSessionStore.sessions st))
              (MsfSessionStore.with_queues
                 (<[q := rest]> (MsfSessionStore.queues st)) st)))
  end.

(** Nothing waits in [self.queue]. *)
Definition no_pending (st : MsfSessionStore.store) : Prop :=
  match MsfSessionStore.queue st with
  | Some q => MsfSessionStore.queues st !! q = Some []
  | None => True
  end.

(** The local state of the store is what it was: the directory, the
    variables, the reference to its own queue; no variable was set and
    nothing slept. *)
Definition untouched (st st' : MsfSessionStore.store) : Prop :=
  MsfSessionStore.sessions st' = MsfSessionStore.sessions st
  /\ MsfSessionStore.varstore st' = MsfSessionStore.varstore st
  /\ MsfSessionStore.queue st' = MsfSessionStore.queue st
  /\ count is_set_variable (MsfSessionStore.trace st')
     = count is_set_variable (MsfSessionStore.trace st)
  /\ count is_sleep (MsfSessionStore.trace st')
     = count is_sleep (MsfSessionStore.trace st).

(** ** Observations on the heap *)

(** The locations of [0 .. n-1] that the memo does not hold yet. *)
Definition unvisited (n : nat) (m : memo) : nat :=
  size (set_seq 0 n ∖ dom m : gset nat).

(** Every reference of [xs] is a location below [n]. *)
Definition refs_below (n : nat) (xs : list pyval) : Prop :=
  forall r, VRef r ∈ xs -> (r < n)%nat.

(** No object refers to a location outside the heap. *)
Definition closed (h : heap) : Prop :=
  forall l o, h !! l = Some o -> refs_below (length h) (children o).

(** [y] is [x] with its reference renamed by the memo. *)
Definition value_copy (m : memo) (x y : pyval) : Prop :=
  match x with
  | VRef r => exists r', m !! r = Some r' /\ y = VRef r'
  | _ => y = x
  end.

(** [o'] is [o] with the references of its children renamed. *)
Definition obj_copy (m : memo) (o o' : pyobj) : Prop :=
  exists ys, o' = rebuild o ys /\ Forall2 (value_copy m) (children o) ys.

(** The heap [h] extends the original heap [h0] during a copy: the
    original objects are in place, the memo sends original locations to
    new ones, and the new objects refer to new locations only. *)
Definition copying (h0 h : heap) (m : memo) : Prop :=
  (length h0 <= length h)%nat
  /\ (forall i o, h0 !! i = Some o -> h !! i = Some o)
  /\ (forall r r', m !! r = Some r' ->
        (r < length h0)%nat /\ (length h0 <= r')%nat /\ (r' < length h)%nat)
  /\ (forall l o, h !! l = Some o -> (length h0 <= l)%nat ->
        forall r, VRef r ∈ children o -> (length h0 <= r)%nat).

(** What a copy that starts in [h], [m] leaves in [h'], [m']: the heap
    below [length h] is what it was, and every location that entered the
    memo holds the renamed copy of its original. *)
Definition copied (h0 h : heap) (m : memo) (h' : heap) (m' : memo) : Prop :=
  copying h0 h' m'
  /\ m ⊆ m'
  /\ (length h <= length h')%nat
  /\ (forall i, (i < length h)%nat -> h' !! i = h !! i)
  /\ (forall r r', m' !! r = Some r' -> m !! r = None ->
        (length h <= r')%nat
        /\ exists o o', h0 !! r = Some o /\ h' !! r' = Some o' /\ obj_copy m' o o').

(** [f] copies any value of the original heap when at most [fuel]
    locations are unvisited. *)
Definition copies_at (h0 : heap) (fuel : nat)
    (f : pyval -> heap -> memo -> option (pyval * heap * memo)) : Prop :=
  forall x h m,
    copying h0 h m -> refs_below (length h0) [x] ->
    (unvisited (length h0) m <= fuel)%nat ->
    exists x' h' m',
      f x h m = Some (x', h', m') /\ copied h0 h m h' m' /\ value_copy m' x x'.


(** What [replace_variables] makes of a value that is a text. *)
Definition substituted (f : string -> string) (v : pyval) : pyval :=
  match v with
  | VStr s => VStr (f s)
  | _ => v
  end.

Definition subst_items (f : string -> string) (items : list (string * pyval))
  : list (string * pyval) :=
  map (fun kv => (fst kv, substituted f (snd kv))) items.

(** A value of a substituted mapping: a text is substituted, another atom
    is what it was, a reference refers to a new object. *)
Definition item_copy (f : string -> string) (n : nat) (v v' : pyval) : Prop :=
  match v with
  | VStr s => v' = VStr (f s)
  | VRef r => exists r', v' = VRef r' /\ (n <= r')%nat
  | _ => v' = v
  end.

(** A field of the copy [h'] against the field [v] of the original in [h]:
    an eligible text is substituted; an eligible mapping is a new mapping
    with the same keys and substituted values; any other field is the deep
    copy that the memo [m] describes, which for an atom is the atom. *)
Definition field_copy (f : string -> string) (h h' : heap) (m : memo)
    (eligible : bool) (v v' : pyval) : Prop :=
  match eligible, v with
  | true, VStr s => v' = VStr (f s)
  | true, VRef d =>
      match h !! d with
      | Some (ODict items) =>
          exists d' items',
            v' = VRef d' /\ (length h <= d')%nat
            /\ h' !! d' = Some (ODict items')
            /\ map fst items' = map fst items
            /\ Forall2 (item_copy f (length h)) (map snd items) (map snd items')
      | _ => value_copy m v v'
      end
  | _, _ => value_copy m v v'
  end.

(** The keys of every dictionary are distinct. *)
Definition dicts_wf (h : heap) : Prop :=
  forall d items, h !! d = Some (ODict items) -> NoDup (map fst items).

(** The heap [hc] while [replace_variables] works through the template
    variables: [h1] is the heap after the descriptor was copied to [t],
    [done] the variables dealt with so far. *)
Definition replacing (f : string -> string) (h0 : heap) (m : memo) (h1 : heap)
    (t : loc) (attrs : list (string * pyval)) (tv done : list string)
    (hc : heap) : Prop :=
  copying h0 hc ∅
  /\ (length h1 <= length hc)%nat
  /\ (forall i, (i < length h1)%nat -> i <> t -> hc !! i = h1 !! i)
  /\ exists attrs_c,
       hc !! t = Some (OCommand attrs_c tv)
       /\ map fst attrs_c = map fst attrs
       /\ forall name v, assoc_get name attrs = Some v ->
            exists v', assoc_get name attrs_c = Some v'
                       /\ field_copy f h0 hc m (bool_decide (name ∈ done)) v v'.

(** ** Further observations on the engine *)

(** Neither loop predicate asks for another run on this text. *)
Definition loop_quiet (re_valid : string -> bool)
    (re_match : string -> string -> option string)
    (command : BaseCommand) (text : string) : Prop :=
  (forall p, loop_if command = Some p ->
     re_valid p = true /\ re_match p text = None) /\
  (forall q, loop_if_not command = Some q ->
     re_valid q = true /\ is_Some (re_match q text)).

(** The events of a [loop_if_not] that does not ask for another run. *)
Definition loop_if_not_quiet_events (command : BaseCommand) (text : string)
  : list event :=
  match loop_if_not command with
  | Some q => [ELog Debug "loop_if_not does not match"; ESearch q (VStr text)]
  | None => []
  end.

(** How far [exec] may move an executor: the heap and the configuration
    stay, attempts and the run counter do not go down, the trace is
    extended, and the run counter stays below [loop_count] unless it was
    above before; with a [loop_count] that is not numeric it stays. *)
Definition advances (command : BaseCommand) (st st' : BaseExecutor.executor)
  : Prop :=
  BaseExecutor.objects st' = BaseExecutor.objects st
  /\ BaseExecutor.cmdconfig st' = BaseExecutor.cmdconfig st
  /\ (BaseExecutor.attempts st <= BaseExecutor.attempts st')%nat
  /\ BaseExecutor.run_count st <= BaseExecutor.run_count st'
  /\ (exists new, BaseExecutor.trace st' = new ++ BaseExecutor.trace st)
  /\ match variable_to_int "loop_count" (loop_count command) with
     | Normal limit =>
         BaseExecutor.run_count st' <= Z.max (BaseExecutor.run_count st) limit
     | _ => BaseExecutor.run_count st' = BaseExecutor.run_count st
     end.

(** Every run of [m] moves the executor as [advances] allows. *)
Definition advancing {A} (command : BaseCommand)
    (m : M BaseExecutor.executor A) : Prop :=
  forall st o st', m st = (o, st') -> advances command st st'.

(** [BaseExecutor._exec_cmd] as the base class has it, before an executor
    overrides it: [Result(None, None)] at every attempt. *)
Module Base.
Definition _exec_cmd (i : nat) (command : BaseCommand) : outcome Result :=
  Normal {| stdout := VNone; returncode := None |}.
End Base.

(** The first predicate of the pipeline that is set, in the order in which
    [exec] calls them. *)
Definition first_pattern (command : BaseCommand) : option string :=
  match error_if command with
  | Some p => Some p
  | None =>
      match error_if_not command with
      | Some p => Some p
      | None =>
          match loop_if command with
          | Some p => Some p
          | None => loop_if_not command
          end
      end
  end.
(** ** Further observations on the session store *)

(** What a wait has done to the store when it returns: with a queue, the
    pair is at the end of that queue and the directory and the variables
    are untouched; without one, the pair is in the directory, the handle in
    [LAST_MSF_SESSION], and the store slept once. *)
Definition registered (name uuid session_id : string) (queue : option nat)
    (st st' : MsfSessionStore.store) : Prop :=
  match queue with
  | Some q =>
      exists content,
        MsfSessionStore.queues st !! q = Some content
        /\ MsfSessionStore.queues st'
           = <[q := content ++ [(name, uuid)]]> (MsfSessionStore.queues st)
        /\ MsfSessionStore.sessions st' = MsfSessionStore.sessions st
        /\ MsfSessionStore.varstore st' = MsfSessionStore.varstore st
        /\ count is_sleep (MsfSessionStore.trace st')
           = count is_sleep (MsfSessionStore.trace st)
  | None =>
      MsfSessionStore.sessions st'
      = <[name := uuid]> (MsfSessionStore.sessions st)
      /\ MsfSessionStore.varstore st'
         = <["LAST_MSF_SESSION" := VStr session_id]> (MsfSessionStore.varstore st)
      /\ MsfSessionStore.queues st' = MsfSessionStore.queues st
      /\ count is_sleep (MsfSessionStore.trace st')
         = S (count is_sleep (MsfSessionStore.trace st))
  end.

(** * Facts *)

Lemma count_app p tr1 tr2 : count p (tr1 ++ tr2) = (count p tr1 + count p tr2)%nat.
Proof. induction tr1 as [|e tr1 IH]; simpl; [reflexivity | rewrite IH; lia]. Qed.

Lemma repeat_app_cons {A} (a : A) n l : repeat a n ++ a :: l = a :: repeat a n ++ l.
Proof. induction n as [|n IH]; simpl; [reflexivity | rewrite IH; reflexivity]. Qed.

Lemma bind_normal {S A B} (m : M S A) (k : A -> M S B) st a st' :
  m st = (Normal a, st') -> bind m k st = k a st'.
Proof. unfold bind. intros ->. reflexivity. Qed.

Lemma bind_raise {S A B} (m : M S A) (k : A -> M S B) st e st' :
  m st = (Raise e, st') -> bind m k st = (Raise e, st').
Proof. unfold bind. intros ->. reflexivity. Qed.

Lemma bind_undefined {S A B} (m : M S A) (k : A -> M S B) st st' :
  m st = (Undefined, st') -> bind m k st = (Undefined, st').
Proof. unfold bind. intros ->. reflexivity. Qed.

Section ExecutorFacts.
Import BaseExecutor.
Variable re_valid : string -> bool.
Variable re_match : string -> string -> option string.
Variable _exec_cmd : nat -> BaseCommand -> outcome Result.
Variable fs_open : string -> option string.
Variable str_command : BaseCommand -> string.
Variable recursion_limit : nat.

Local Abbreviation exec :=
  (BaseExecutor.exec re_valid re_match _exec_cmd fs_open str_command
     recursion_limit).
Local Abbreviation exec_rec :=
  (BaseExecutor.exec_rec re_valid re_match _exec_cmd fs_open str_command).
Local Abbreviation exec_body :=
  (BaseExecutor.exec_body re_valid re_match _exec_cmd fs_open str_command).
Local Abbreviation attempt := (BaseExecutor.attempt _exec_cmd str_command).
Local Abbreviation error_if := (BaseExecutor.error_if re_valid re_match).
Local Abbreviation error_if_not := (BaseExecutor.error_if_not re_valid re_match).
Local Abbreviation loop_if := (BaseExecutor.loop_if re_valid re_match).
Local Abbreviation loop_if_not := (BaseExecutor.loop_if_not re_valid re_match).
Local Abbreviation save_output := (BaseExecutor.save_output fs_open).
Local Abbreviation re_search := (BaseExecutor.re_search re_valid re_match).

Lemma exec_unfold command st :
  exists d, exec command st = exec_body (exec_rec d) command st.
Proof. exists recursion_limit. reflexivity. Qed.

Lemma attempt_yields command st result :
  attempt_result (_exec_cmd (attempts st) command) = Some result ->
  attempt command st = (Normal result, attempted str_command command st).
Proof.
  unfold BaseExecutor.attempt, try_except_ExecException, bind, log_command,
    logger_info, emit, call_exec_cmd, attempt_result, attempted. simpl.
  destruct (_exec_cmd (attempts st) command) as [r|e|]; try discriminate.
  - intros [= ->]. reflexivity.
  - destruct e; try discriminate. intros [= <-]. reflexivity.
Qed.

Lemma returncode_ne_0_true result :
  returncode result <> Some 0 -> returncode_ne_0 result = true.
Proof.
  unfold returncode_ne_0. destruct (returncode result) as [[| |]|]; congruence.
Qed.

Lemma not_fatal_check command result :
  not_fatal command result ->
  returncode_ne_0 result && exit_on_error command = false.
Proof.
  unfold returncode_ne_0. intros [-> | ->]; [apply andb_false_r | reflexivity].
Qed.

Lemma save_output_spec command result st :
  save_output command result st
  = (Normal tt,
     with_trace (save_events fs_open command result (objects st) ++ trace st) st).
Proof.
  unfold BaseExecutor.save_output, save_events.
  destruct st as [vs cfg rc h a tr].
  destruct (save command) as [path|]; [|reflexivity].
  destruct (truthy (Some path)); [|reflexivity].
  unfold try_except_Exception, bind, open_w, outfile_write, str_caught,
    logger_warn, emit, raise.
  destruct (fs_open path) as [msg|]; [reflexivity|]. simpl.
  destruct (stdout result); reflexivity.
Qed.

(** The pipeline up to the error predicates. *)
Lemma exec_body_fatal rec command st result :
  attempt_result (_exec_cmd (attempts st) command) = Some result ->
  returncode_ne_0 result && exit_on_error command = true ->
  exec_body rec command st
  = (Raise (SystemExit 1),
     with_trace (ELog Debug "Exiting because return-code is not 0"
                 :: ELog Error (py_str (stdout result))
                 :: trace (attempted str_command command st))
       (attempted str_command command st)).
Proof.
  intros Ha Hx. unfold BaseExecutor.exec_body.
  rewrite (bind_normal _ _ _ _ _ (attempt_yields _ _ _ Ha)).
  rewrite Hx. reflexivity.
Qed.

Lemma exec_body_published rec command st result :
  attempt_result (_exec_cmd (attempts st) command) = Some result ->
  returncode_ne_0 result && exit_on_error command = false ->
  exec_body rec command st
  = (error_if command result ;;
     error_if_not command result ;;
     loop_if rec command result ;;
     loop_if_not rec command result)
      (published fs_open command result (attempted str_command command st)).
Proof.
  intros Ha Hx. unfold BaseExecutor.exec_body.
  rewrite (bind_normal _ _ _ _ _ (attempt_yields _ _ _ Ha)).
  rewrite Hx.
  unfold bind at 1. unfold ret at 1.
  unfold bind at 1. unfold set_variable at 1.
  unfold bind at 1. unfold set_variable at 1.
  unfold bind at 1. unfold output_info, emit at 1.
  unfold bind at 1. rewrite save_output_spec.
  reflexivity.
Qed.

Lemma error_if_passes command text result st :
  stdout result = VStr text ->
  (forall p, schemas.error_if command = Some p ->
     re_valid p = true /\ re_match p text = None) ->
  error_if command result st
  = (Normal tt,
     with_trace (search_events (schemas.error_if command) (stdout result)
                 ++ trace st) st).
Proof.
  intros Hs Hp. unfold BaseExecutor.error_if, search_events.
  destruct st as [vs cfg rc h a tr].
  destruct (schemas.error_if command) as [p|]; [|reflexivity].
  destruct (Hp p eq_refl) as [Hv Hm].
  unfold BaseExecutor.re_search, bind, emit. simpl.
  rewrite Hv, Hs. unfold ret. rewrite Hm. reflexivity.
Qed.

Lemma error_if_matches command text result st p group0 :
  stdout result = VStr text ->
  schemas.error_if command = Some p -> re_valid p = true ->
  re_match p text = Some group0 ->
  error_if command result st
  = (Raise (SystemExit 1),
     with_trace (ELog Error ("Exitting because error_if matches: " +:+ group0)
                 :: ESearch p (VStr text) :: trace st) st).
Proof.
  intros Hs Hp Hv Hm. unfold BaseExecutor.error_if.
  destruct st as [vs cfg rc h a tr]. rewrite Hp.
  unfold BaseExecutor.re_search, bind, emit. simpl.
  rewrite Hv, Hs. unfold ret. rewrite Hm. reflexivity.
Qed.

Lemma error_if_not_passes command text result st :
  stdout result = VStr text ->
  (forall p, schemas.error_if_not command = Some p ->
     re_valid p = true /\ is_Some (re_match p text)) ->
  error_if_not command result st
  = (Normal tt,
     with_trace (search_events (schemas.error_if_not command) (stdout result)
                 ++ trace st) st).
Proof.
  intros Hs Hp. unfold BaseExecutor.error_if_not, search_events.
  destruct st as [vs cfg rc h a tr].
  destruct (schemas.error_if_not command) as [p|]; [|reflexivity].
  destruct (Hp p eq_refl) as [Hv [g Hm]].
  unfold BaseExecutor.re_search, bind, emit. simpl.
  rewrite Hv, Hs. unfold ret. rewrite Hm. reflexivity.
Qed.

(** A result that is not fatal reaches the loop predicates. *)
Lemma exec_body_classified rec command st result text :
  attempt_result (_exec_cmd (attempts st) command) = Some result ->
  stdout result = VStr text ->
  not_fatal command result ->
  passes_errors re_valid re_match command text ->
  exec_body rec command st
  = (loop_if rec command result ;; loop_if_not rec command result)
      (classified command result
         (published fs_open command result (attempted str_command command st))).
Proof.
  intros Ha Hs Hnf [He Hen].
  rewrite (exec_body_published _ _ _ _ Ha (not_fatal_check _ _ Hnf)).
  rewrite (bind_normal _ _ _ _ _ (error_if_passes _ _ _ _ Hs He)).
  rewrite (bind_normal _ _ _ _ _ (error_if_not_passes _ _ _ _ Hs Hen)).
  reflexivity.
Qed.

(** The three ways of a retry decision. *)
Lemma rerun_not_numeric rec command st e :
  variable_to_int "loop_count" (loop_count command) = Raise e ->
  rerun rec command st = (Raise e, st).
Proof. unfold rerun, bind, get_run_count, lift. intros ->. reflexivity. Qed.

Lemma rerun_exhausted rec command st limit :
  variable_to_int "loop_count" (loop_count command) = Normal limit ->
  limit <= run_count st ->
  rerun rec command st
  = (Raise (SystemExit 1),
     with_trace (ELog Error "Exitting because loop_count exceeded" :: trace st) st).
Proof.
  unfold rerun, bind, get_run_count, lift. intros -> Hle.
  destruct (Z.ltb_spec (run_count st) limit); [lia|]. reflexivity.
Qed.

Lemma rerun_again rec command st limit cfg :
  variable_to_int "loop_count" (loop_count command) = Normal limit ->
  run_count st < limit ->
  cmdconfig st = Some cfg -> 0 <= loop_sleep cfg ->
  rerun rec command st
  = rec command
      (with_trace (ESleep (loop_sleep cfg) :: trace st)
         (with_run_count (run_count st + 1) st)).
Proof.
  unfold rerun, bind, get_run_count, lift. intros -> Hlt Hc Hs.
  destruct (Z.ltb_spec (run_count st) limit); [|lia].
  unfold set_run_count, cmdconfig_loop_sleep, time_sleep. simpl. rewrite Hc.
  destruct (Z.ltb_spec (loop_sleep cfg) 0); [lia|]. reflexivity.
Qed.

Lemma loop_if_rerun rec command text result st p group0 :
  stdout result = VStr text ->
  schemas.loop_if command = Some p -> re_valid p = true ->
  re_match p text = Some group0 ->
  loop_if rec command result st
  = rerun rec command
      (with_trace (ELog Warn ("Re-run command because loop_if matches: " +:+ group0)
                   :: ESearch p (VStr text) :: trace st) st).
Proof.
  intros Hs Hp Hv Hm. unfold BaseExecutor.loop_if. rewrite Hp.
  unfold BaseExecutor.re_search, bind, emit. simpl.
  rewrite Hv, Hs. unfold ret. rewrite Hm. reflexivity.
Qed.

Lemma loop_if_quiet rec command text result st :
  stdout result = VStr text ->
  (forall p, schemas.loop_if command = Some p ->
     re_valid p = true /\ re_match p text = None) ->
  loop_if rec command result st
  = (Normal tt, with_trace (loop_if_quiet_events command text ++ trace st) st).
Proof.
  intros Hs Hp. unfold BaseExecutor.loop_if, loop_if_quiet_events.
  destruct st as [vs cfg rc h a tr].
  destruct (schemas.loop_if command) as [p|]; [|reflexivity].
  destruct (Hp p eq_refl) as [Hv Hm].
  unfold BaseExecutor.re_search, bind, emit. simpl.
  rewrite Hv, Hs. unfold ret. rewrite Hm. reflexivity.
Qed.

Lemma loop_if_not_rerun rec command text result st q :
  stdout result = VStr text ->
  schemas.loop_if_not command = Some q -> re_valid q = true ->
  re_match q text = None ->
  loop_if_not rec command result st
  = rerun rec command
      (with_trace (ELog Warn "Re-run command because loop_if_not does not match"
                   :: ESearch q (VStr text) :: trace st) st).
Proof.
  intros Hs Hp Hv Hm. unfold BaseExecutor.loop_if_not. rewrite Hp.
  unfold BaseExecutor.re_search, bind, emit. simpl.
  rewrite Hv, Hs. unfold ret. rewrite Hm. reflexivity.
Qed.

Lemma bind_ret_r {A} (m : M executor A) st : bind m ret st = m st.
Proof. unfold bind, ret. destruct (m st) as [[a|e|] st']; reflexivity. Qed.

Lemma count_search_events p pattern text :
  (forall a b, p (ESearch a b) = false) ->
  count p (search_events pattern text) = O.
Proof. intros H. destruct pattern; simpl; [rewrite H|]; reflexivity. Qed.

Lemma count_save_events p command result h :
  (forall a, p (EOpen a) = false) -> (forall a b, p (EWrite a b) = false) ->
  (forall path msg,
     p (ELog Warn ("Unable to write output to file " +:+ path +:+ ": " +:+ msg))
     = false) ->
  count p (save_events fs_open command result h) = O.
Proof.
  intros Ho Hw Hl. unfold save_events.
  destruct (save command) as [path|]; [|reflexivity].
  destruct (truthy _); [|reflexivity].
  destruct (fs_open path); simpl; [rewrite Hl; reflexivity|].
  destruct (stdout result); simpl; rewrite ?Hl, ?Ho, ?Hw; reflexivity.
Qed.

Lemma count_classified p command result st :
  (forall a b, p (ESearch a b) = false) ->
  (forall a, p (EOpen a) = false) -> (forall a b, p (EWrite a b) = false) ->
  (forall path msg,
     p (ELog Warn ("Unable to write output to file " +:+ path +:+ ": " +:+ msg))
     = false) ->
  (forall a, p (EOutput a) = false) ->
  (forall a b, p (ESetVariable a b) = false) ->
  (forall a, p (ELog Info a) = false) ->
  count p (trace (classified command result
             (published fs_open command result (attempted str_command command st))))
  = ((if p (EExecCmd command) then 1 else 0) + count p (trace st))%nat.
Proof.
  intros Hs Ho Hw Hl Hout Hset Hinfo. unfold classified, published, attempted.
  simpl. rewrite !count_app, !count_search_events, count_save_events by assumption.
  simpl. rewrite Hout, !Hset, Hinfo. reflexivity.
Qed.

(** After an attempt that reaches the loop predicates and makes one of
    them ask for another run, what [exec] does is the retry decision. *)
Lemma exec_body_decision rec command st result text :
  attempt_result (_exec_cmd (attempts st) command) = Some result ->
  stdout result = VStr text ->
  not_fatal command result ->
  passes_errors re_valid re_match command text ->
  loop_if_triggers re_valid re_match command text
  \/ loop_if_not_triggers re_valid re_match command text ->
  exists s k,
    exec_body rec command st = bind (rerun rec command) k s
    /\ at_decision st s.
Proof.
  intros Ha Hs Hnf Hpe Htr.
  rewrite (exec_body_classified _ _ _ _ _ Ha Hs Hnf Hpe).
  set (s0 := classified _ _ _).
  assert (Hc : forall p,
    (forall a b, p (ESearch a b) = false) ->
    (forall a, p (EOpen a) = false) -> (forall a b, p (EWrite a b) = false) ->
    (forall path msg,
       p (ELog Warn ("Unable to write output to file " +:+ path +:+ ": " +:+ msg))
       = false) ->
    (forall a, p (EOutput a) = false) ->
    (forall a b, p (ESetVariable a b) = false) ->
    (forall a, p (ELog Info a) = false) ->
    count p (trace s0) = ((if p (EExecCmd command) then 1 else 0) + count p (trace st))%nat)
    by (intros; apply count_classified; assumption).
  assert (Hf : attempts s0 = S (attempts st) /\ run_count s0 = run_count st
               /\ cmdconfig s0 = cmdconfig st /\ objects s0 = objects st)
    by (repeat split; reflexivity).
  destruct Hf as (Hf1 & Hf2 & Hf3 & Hf4). clearbody s0.
  pose proof (Hc is_exec_cmd) as Hc1. pose proof (Hc is_sleep) as Hc2.
  pose proof (Hc is_rerun) as Hc3. clear Hc.
  specialize (Hc1 ltac:(reflexivity) ltac:(reflexivity) ltac:(reflexivity)
                ltac:(reflexivity) ltac:(reflexivity) ltac:(reflexivity)
                ltac:(reflexivity)).
  specialize (Hc2 ltac:(reflexivity) ltac:(reflexivity) ltac:(reflexivity)
                ltac:(reflexivity) ltac:(reflexivity) ltac:(reflexivity)
                ltac:(reflexivity)).
  specialize (Hc3 ltac:(reflexivity) ltac:(reflexivity) ltac:(reflexivity)
                ltac:(reflexivity) ltac:(reflexivity) ltac:(reflexivity)
                ltac:(reflexivity)).
  simpl in Hc1, Hc2, Hc3.
  destruct Htr as [(p & Hp & Hv & g & Hm) | (Hq & q & Hq' & Hv & Hm)].
  - eexists _, _. split.
    + unfold bind at 1. rewrite (loop_if_rerun _ _ _ _ _ _ _ Hs Hp Hv Hm).
      reflexivity.
    + unfold at_decision. simpl. rewrite Hc1, Hc2, Hc3.
      repeat split; assumption.
  - eexists _, ret. split.
    + rewrite (bind_normal _ _ _ _ _ (loop_if_quiet _ _ _ _ _ Hs Hq)).
      rewrite (loop_if_not_rerun _ _ _ _ _ _ Hs Hq' Hv Hm).
      symmetry. apply bind_ret_r.
    + unfold at_decision. simpl. rewrite !count_app.
      assert (forall p', (forall a b, p' (ESearch a b) = false) ->
                (forall a, p' (ELog Debug a) = false) ->
                count p' (loop_if_quiet_events command text) = O) as Hqe.
      { intros p' H1 H2. unfold loop_if_quiet_events.
        destruct (schemas.loop_if command); simpl; rewrite ?H1, ?H2; reflexivity. }
      rewrite !Hqe, Hc1, Hc2, Hc3 by reflexivity.
      repeat split; assumption.
Qed.

(** A retry decision taken when the run counter has reached the limit. *)
Lemma exec_body_exhausted rec command st result text limit :
  attempt_result (_exec_cmd (attempts st) command) = Some result ->
  stdout result = VStr text ->
  not_fatal command result ->
  passes_errors re_valid re_match command text ->
  loop_if_triggers re_valid re_match command text
  \/ loop_if_not_triggers re_valid re_match command text ->
  variable_to_int "loop_count" (loop_count command) = Normal limit ->
  limit <= run_count st ->
  exists s,
    exec_body rec command st
    = (Raise (SystemExit 1),
       with_trace (ELog Error "Exitting because loop_count exceeded" :: trace s) s)
    /\ at_decision st s.
Proof.
  intros Ha Hs Hnf Hpe Htr Hl Hle.
  destruct (exec_body_decision rec _ _ _ _ Ha Hs Hnf Hpe Htr) as (s & k & -> & Hd).
  exists s. split; [|exact Hd].
  apply bind_raise, (rerun_exhausted _ _ _ _ Hl).
  destruct Hd as (_ & -> & _). exact Hle.
Qed.

(** A retry decision with a [loop_count] that is not numeric. *)
Lemma exec_body_not_numeric rec command st result text :
  attempt_result (_exec_cmd (attempts st) command) = Some result ->
  stdout result = VStr text ->
  not_fatal command result ->
  passes_errors re_valid re_match command text ->
  loop_if_triggers re_valid re_match command text
  \/ loop_if_not_triggers re_valid re_match command text ->
  isnumeric (loop_count command) = false ->
  exists s,
    exec_body rec command st
    = (Raise (ExecException
                ("Variable loop_count has not a numeric value: "
                 +:+ loop_count command)), s)
    /\ at_decision st s.
Proof.
  intros Ha Hs Hnf Hpe Htr Hn.
  destruct (exec_body_decision rec _ _ _ _ Ha Hs Hnf Hpe Htr) as (s & k & -> & Hd).
  exists s. split; [|exact Hd].
  apply bind_raise, rerun_not_numeric.
  unfold variable_to_int. rewrite Hn. reflexivity.
Qed.

(** [loop_if] asks for another run after every attempt: the attempts go
    on until the run counter reaches the limit. *)
Lemma retry_until_exhausted command limit cfg :
  variable_to_int "loop_count" (loop_count command) = Normal limit ->
  0 <= loop_sleep cfg ->
  forall (j d : nat) st,
    (j <= d)%nat ->
    cmdconfig st = Some cfg ->
    j = Z.to_nat (limit - run_count st) ->
    (forall i, (i <= j)%nat ->
       loops re_valid re_match command (_exec_cmd (attempts st + i) command)) ->
    exists st',
      exec_rec (S d) command st = (Raise (SystemExit 1), st')
      /\ attempts st' = (attempts st + S j)%nat
      /\ count is_exec_cmd (trace st') = (count is_exec_cmd (trace st) + S j)%nat
      /\ count is_sleep (trace st') = (count is_sleep (trace st) + j)%nat
      /\ count is_rerun (trace st') = (count is_rerun (trace st) + S j)%nat
      /\ head (trace st') = Some (ELog Error "Exitting because loop_count exceeded").
Proof.
  intros Hl Hsl. induction j as [|j IH]; intros d st Hd Hcfg Hj Hloops.
  - destruct (Hloops O (Nat.le_refl _)) as (result & text & Ha & Hs & Hnf & Hpe & Htr).
    rewrite Nat.add_0_r in Ha.
    destruct (exec_body_exhausted (exec_rec d) _ _ _ _ limit Ha Hs Hnf Hpe
                (or_introl Htr) Hl ltac:(lia))
      as (s & He & Hd1 & Hd2 & Hd3 & Hd4 & Hd5 & Hd6 & Hd7).
    eexists. split; [exact He|]. simpl. rewrite Hd1, Hd5, Hd6, Hd7.
    repeat split; lia.
  - destruct d as [|d]; [lia|].
    destruct (Hloops O ltac:(lia)) as (result & text & Ha & Hs & Hnf & Hpe & Htr).
    rewrite Nat.add_0_r in Ha.
    destruct (exec_body_decision (exec_rec (S d)) _ _ _ _ Ha Hs Hnf Hpe
                (or_introl Htr))
      as (s & k & He & Hd1 & Hd2 & Hd3 & Hd4 & Hd5 & Hd6 & Hd7).
    assert (run_count s < limit) as Hlt by lia.
    rewrite Hcfg in Hd3.
    pose proof (rerun_again (exec_rec (S d)) _ _ _ _ Hl Hlt Hd3 Hsl) as Hr.
    destruct (IH d (with_trace (ESleep (loop_sleep cfg) :: trace s)
                      (with_run_count (run_count s + 1) s)))
      as (st' & He' & H1 & H2 & H3 & H4 & H5).
    + lia.
    + exact Hd3.
    + simpl. lia.
    + intros i Hi. simpl. rewrite Hd1.
      replace (S (attempts st) + i)%nat with (attempts st + S i)%nat by lia.
      apply Hloops. lia.
    + exists st'. split.
      * change (exec_rec (S (S d)) command st)
          with (exec_body (exec_rec (S d)) command st).
        rewrite He. apply bind_raise. rewrite Hr. exact He'.
      * simpl in H1, H2, H3, H4. rewrite H1, H2, H3, H4, H5, Hd1, Hd5, Hd6, Hd7.
        repeat split; lia.
Qed.

(** *** [replace_variables] and [run] *)

Lemma only_objects_bind {A B} (m : M executor A) (k : A -> M executor B) :
  only_objects m -> (forall a, only_objects (k a)) -> only_objects (bind m k).
Proof.
  intros Hm Hk st o st'. unfold bind.
  destruct (m st) as [[a|e|] st1] eqn:E; intros H.
  - apply Hk in H. apply Hm in E. rewrite H, E. reflexivity.
  - injection H as <- <-. exact (Hm _ _ _ E).
  - injection H as <- <-. exact (Hm _ _ _ E).
Qed.

Lemma only_objects_pure {A} (f : executor -> outcome A) :
  only_objects (fun st => (f st, st)).
Proof. intros st o st' [= <- <-]. destruct st; reflexivity. Qed.

Lemma only_objects_ret {A} (a : A) : only_objects (ret a).
Proof. apply (only_objects_pure (fun _ => Normal a)). Qed.

Lemma only_objects_undefined {A} : only_objects (@undefined executor A).
Proof. apply (only_objects_pure (fun _ => Undefined)). Qed.

Lemma only_objects_getattr o name : only_objects (getattr o name).
Proof.
  intros st r st'. unfold getattr.
  destruct (objects st !! o) as [[| |attrs tv]|];
    [| |destruct (assoc_get name attrs)|]; intros [= <- <-];
    destruct st; reflexivity.
Qed.

Lemma only_objects_setattr o name v : only_objects (setattr o name v).
Proof.
  intros st r st'. unfold setattr.
  destruct (objects st !! o) as [[| |attrs tv]|]; intros [= <- <-];
    destruct st; reflexivity.
Qed.

Lemma only_objects_list_template_vars o : only_objects (list_template_vars o).
Proof.
  intros st r st'. unfold list_template_vars.
  destruct (objects st !! o) as [[| |attrs tv]|]; intros [= <- <-];
    destruct st; reflexivity.
Qed.

Lemma only_objects_copy_deepcopy x : only_objects (copy_deepcopy x).
Proof.
  intros st r st'. unfold copy_deepcopy.
  destruct (deepcopy x (objects st)) as [[y h']|]; intros [= <- <-];
    destruct st; reflexivity.
Qed.

Lemma only_objects_as_dict x : only_objects (as_dict x).
Proof.
  intros st r st'. unfold as_dict.
  destruct x; try (intros [= <- <-]; destruct st; reflexivity).
  destruct (objects st !! l) as [[| |]|]; intros [= <- <-];
    destruct st; reflexivity.
Qed.

Lemma only_objects_dict_setitem d k v : only_objects (dict_setitem d k v).
Proof.
  intros st r st'. unfold dict_setitem.
  destruct (objects st !! d) as [[| |]|]; intros [= <- <-];
    destruct st; reflexivity.
Qed.

Lemma only_objects_for_each {A} (f : A -> M executor unit) xs :
  (forall x, only_objects (f x)) -> only_objects (for_each f xs).
Proof.
  intros Hf. induction xs as [|x xs IH]; simpl.
  - apply only_objects_ret.
  - apply only_objects_bind; [apply Hf | intros _; exact IH].
Qed.

Lemma only_objects_replace_variables substitute command :
  only_objects (replace_variables substitute command).
Proof.
unfold replace_variables.
apply only_objects_bind; [apply only_objects_copy_deepcopy|].
intros [| | | | |template_cmd]; try apply only_objects_undefined.
apply only_objects_bind; [apply only_objects_list_template_vars|].
intros members.
apply only_objects_bind; [|intros _; apply only_objects_ret].
apply only_objects_for_each. intros member. unfold replace_member.
apply only_objects_bind; [apply only_objects_getattr|]. intros cmd_member.
apply only_objects_bind.
{ destruct cmd_member; try apply only_objects_ret.
  apply only_objects_bind;
    [apply (only_objects_pure (fun st => Normal (substitute (varstore st) s)))|].
  intros r. apply only_objects_setattr. }
intros _. apply only_objects_bind; [apply only_objects_as_dict|].
intros [_|]; [|apply only_objects_ret].
apply only_objects_bind; [apply only_objects_copy_deepcopy|]. intros new.
apply only_objects_bind; [apply only_objects_as_dict|].
intros [[d items]|]; [|apply only_objects_undefined].
apply only_objects_bind; [|intros _; apply only_objects_setattr].
apply only_objects_for_each. intros [k v]. unfold replace_item. simpl.
destruct v; try apply only_objects_ret.
apply only_objects_bind;
  [apply (only_objects_pure (fun st => Normal (substitute (varstore st) s)))|].
intros r. apply only_objects_dict_setitem.
Qed.

Lemma runs_as_exec substitute command st c s :
  runs_as substitute command st c s ->
  run substitute re_valid re_match _exec_cmd fs_open str_command
      recursion_limit command st
  = exec c s.
Proof.
  intros (template & replaced & Hg & Hr & Hc). unfold run.
  unfold bind at 1. unfold set_run_count at 1.
  rewrite (bind_normal _ _ _ _ _ Hg).
  unfold bind at 1. unfold logger_debug, emit at 1.
  rewrite (bind_normal _ _ _ _ _ Hr).
  unfold bind, the_command. rewrite Hc. reflexivity.
Qed.

Lemma runs_as_frame substitute command st c s :
  runs_as substitute command st c s ->
  run_count s = 1 /\ attempts s = attempts st /\ cmdconfig s = cmdconfig st
  /\ varstore s = varstore st
  /\ exists template, trace s
       = ELog Debug ("Template-Command: '" +:+ template +:+ "'") :: trace st.
Proof.
  intros (template & replaced & Hg & Hr & Hc).
  apply only_objects_replace_variables in Hr. rewrite Hr. simpl.
  repeat split. eexists. reflexivity.
Qed.

(** *** The claims about the engine *)

(** C1, amended.  When [loop_if] matches the output of every attempt and
    [loop_count] resolves to [n >= 1], with [n - 1] no more than the
    retries that the call stack has room for, [run] invokes the primitive
    exactly [n] times, sleeps [n - 1] times in between, and exits with
    status 1 at the [n]-th evaluation of the loop predicate: the one that
    follows the [n]-th attempt. *)
Theorem loop_if_retry_bound substitute command st c s (n : nat) cfg :
  runs_as substitute command st c s ->
  variable_to_int "loop_count" (loop_count c) = Normal (Z.of_nat n) ->
  (1 <= n)%nat -> (n <= S recursion_limit)%nat ->
  cmdconfig st = Some cfg -> 0 <= loop_sleep cfg ->
  (forall i, (i < n)%nat ->
     loops re_valid re_match c (_exec_cmd (attempts st + i) c)) ->
  exists st',
    run substitute re_valid re_match _exec_cmd fs_open str_command
      recursion_limit command st
    = (Raise (SystemExit 1), st')
    /\ attempts st' = (attempts st + n)%nat
    /\ count is_exec_cmd (trace st') = (count is_exec_cmd (trace st) + n)%nat
    /\ count is_rerun (trace st') = (count is_rerun (trace st) + n)%nat
    /\ count is_sleep (trace st') = (count is_sleep (trace st) + (n - 1))%nat
    /\ head (trace st') = Some (ELog Error "Exitting because loop_count exceeded").
Proof.
  intros Hr Hl Hn Hroom Hcfg Hsl Hloops.
  rewrite (runs_as_exec _ _ _ _ _ Hr).
  destruct (runs_as_frame _ _ _ _ _ Hr) as (Hrc & Ha & Hc & _ & template & Htr).
  unfold BaseExecutor.exec.
  destruct (retry_until_exhausted c (Z.of_nat n) cfg Hl Hsl
              (Z.to_nat (Z.of_nat n - 1)) recursion_limit s)
    as (st' & He & H1 & H2 & H3 & H4 & H5).
  - lia.
  - congruence.
  - rewrite Hrc. reflexivity.
  - intros i Hi. rewrite Ha. apply Hloops. lia.
  - exists st'. split; [exact He|].
    rewrite H1, H2, H3, H4, H5, Ha, Htr. simpl.
    repeat split; lia.
Qed.

(** C9.  With [loop_count] resolving to 0 or to 1, a command whose loop
    predicate asks for another run has the primitive invoked exactly once:
    the run counter, set to 1 by [run], is not below the limit at the
    first retry decision, and the process exits with status 1. *)
Theorem loop_count_0_or_1_runs_once substitute command st c s limit :
  runs_as substitute command st c s ->
  variable_to_int "loop_count" (loop_count c) = Normal limit ->
  limit = 0 \/ limit = 1 ->
  asks_rerun re_valid re_match c (_exec_cmd (attempts st) c) ->
  exists st',
    run substitute re_valid re_match _exec_cmd fs_open str_command
      recursion_limit command st
    = (Raise (SystemExit 1), st')
    /\ attempts st' = S (attempts st)
    /\ count is_exec_cmd (trace st') = S (count is_exec_cmd (trace st))
    /\ count is_sleep (trace st') = count is_sleep (trace st)
    /\ run_count st' = 1
    /\ (limit = 0 -> limit < run_count st')
    /\ head (trace st') = Some (ELog Error "Exitting because loop_count exceeded").
Proof.
  intros Hr Hl Hlim (result & text & Ha & Hs & Hnf & Hpe & Htr).
  rewrite (runs_as_exec _ _ _ _ _ Hr).
  destruct (runs_as_frame _ _ _ _ _ Hr) as (Hrc & Hat & Hc & _ & template & Ht).
  destruct (exec_unfold c s) as [d ->]. rewrite <- Hat in Ha.
  destruct (exec_body_exhausted (exec_rec d) _ _ _ _ limit Ha Hs Hnf Hpe Htr Hl
              ltac:(lia))
    as (s1 & -> & Hd1 & Hd2 & Hd3 & Hd4 & Hd5 & Hd6 & Hd7).
  eexists. split; [reflexivity|]. simpl.
  rewrite Hd1, Hd2, Hd5, Hd6, Hat, Hrc, Ht. simpl.
  repeat split; lia.
Qed.

(** What the code does with a [loop_count] that [str.isnumeric] rejects,
    for every command and backend: when a loop predicate asks for another
    run, [exec] raises [ExecException] to its caller; nothing has slept,
    the run counter is unchanged and the primitive was invoked once. *)
Theorem loop_count_not_numeric_raises command st :
  asks_rerun re_valid re_match command (_exec_cmd (attempts st) command) ->
  isnumeric (loop_count command) = false ->
  exists st',
    exec command st
    = (Raise (ExecException
                ("Variable loop_count has not a numeric value: "
                 +:+ loop_count command)), st')
    /\ count is_sleep (trace st') = count is_sleep (trace st)
    /\ run_count st' = run_count st
    /\ attempts st' = S (attempts st).
Proof.
  intros (result & text & Ha & Hs & Hnf & Hpe & Htr) Hn.
  destruct (exec_unfold command st) as [d ->].
  destruct (exec_body_not_numeric (exec_rec d) _ _ _ _ Ha Hs Hnf Hpe Htr Hn)
    as (s1 & -> & Hd1 & Hd2 & Hd3 & Hd4 & Hd5 & Hd6 & Hd7).
  exists s1. repeat split; assumption.
Qed.

(** C6.  With [exit_on_error] set and a status other than 0, [exec] exits
    with status 1 right after the attempt: no variable is published,
    nothing is saved, no predicate is evaluated, nothing sleeps. *)
Theorem exit_on_error_stops_pipeline command st result :
  exit_on_error command = true ->
  attempt_result (_exec_cmd (attempts st) command) = Some result ->
  returncode result <> Some 0 ->
  let st' :=
    with_trace (ELog Debug "Exiting because return-code is not 0"
                :: ELog Error (py_str (stdout result))
                :: trace (attempted str_command command st))
      (attempted str_command command st) in
  exec command st = (Raise (SystemExit 1), st')
  /\ varstore st' = varstore st
  /\ count is_set_variable (trace st') = count is_set_variable (trace st)
  /\ count is_file (trace st') = count is_file (trace st)
  /\ count is_search (trace st') = count is_search (trace st)
  /\ count is_sleep (trace st') = count is_sleep (trace st)
  /\ count is_exec_cmd (trace st') = S (count is_exec_cmd (trace st)).
Proof.
  intros Hx Ha Hrc st'. destruct (exec_unfold command st) as [d ->].
  rewrite (exec_body_fatal _ _ _ _ Ha).
  - repeat split; reflexivity.
  - rewrite (returncode_ne_0_true _ Hrc), Hx. reflexivity.
Qed.

(** C2.  When [error_if] matches the output, [exec] exits with status 1
    whatever [loop_if] and [loop_if_not] are, hence also when [loop_if]
    matches too: at most one regular expression was searched, the one of
    [error_if]; no loop predicate asked for a run, nothing slept and the
    run counter is unchanged.  Unless step 3 was fatal before, the last
    things done are the search of [error_if] and its report. *)
Theorem error_if_preempts_loop command st result text p group0 :
  attempt_result (_exec_cmd (attempts st) command) = Some result ->
  stdout result = VStr text ->
  schemas.error_if command = Some p -> re_valid p = true ->
  re_match p text = Some group0 ->
  exists st',
    exec command st = (Raise (SystemExit 1), st')
    /\ attempts st' = S (attempts st)
    /\ run_count st' = run_count st
    /\ count is_sleep (trace st') = count is_sleep (trace st)
    /\ count is_rerun (trace st') = count is_rerun (trace st)
    /\ (count is_search (trace st') <= S (count is_search (trace st)))%nat
    /\ (not_fatal command result ->
        trace st'
        = ELog Error ("Exitting because error_if matches: " +:+ group0)
          :: ESearch p (VStr text)
          :: trace (published fs_open command result
                      (attempted str_command command st))).
Proof.
  intros Ha Hs Hp Hv Hm. destruct (exec_unfold command st) as [d ->].
  destruct (returncode_ne_0 result && exit_on_error command) eqn:Hx.
  - rewrite (exec_body_fatal _ _ _ _ Ha Hx). eexists. split; [reflexivity|].
    simpl. repeat split; try lia.
    intros Hnf. rewrite (not_fatal_check _ _ Hnf) in Hx. discriminate.
  - rewrite (exec_body_published _ _ _ _ Ha Hx).
    rewrite (bind_raise _ _ _ _ _ (error_if_matches _ _ _ _ _ _ Hs Hp Hv Hm)).
    eexists. split; [reflexivity|]. simpl.
    rewrite !count_app, !count_save_events by reflexivity. simpl.
    repeat split; lia.
Qed.
End ExecutorFacts.

(** *** The claims about the engine, at concrete inputs *)

Section EngineScenarios.
Import Examples.
Import BaseExecutor.

(** C1, as stated, fails.  A command with [loop_if: "pending"] and
    [loop_count: "3"] whose every attempt prints ["pending"]: the process
    exits after three attempts, and by then the loop predicate was
    evaluated three times, not four; the only searches are those of
    [loop_if]. *)
Lemma loop_if_exit_is_not_a_fourth_evaluation :
  let r := run_with (prints "pending") 0%nat (fresh_executor looping) in
  fst r = Raise (SystemExit 1)
  /\ count is_exec_cmd (trace (snd r)) = 3%nat
  /\ count is_search (trace (snd r)) = 3%nat
  /\ count is_rerun (trace (snd r)) = 3%nat
  /\ count is_search (trace (snd r)) <> (3 + 1)%nat.
Proof.
  repeat split; try (vm_compute; reflexivity).
  vm_compute. discriminate.
Qed.

Lemma loop_if_retry_bound_witness :
  exists st',
    run_with (prints "pending") 0%nat (fresh_executor looping)
    = (Raise (SystemExit 1), st')
    /\ attempts st' = (0 + 3)%nat
    /\ count is_exec_cmd (trace st') = (0 + 3)%nat
    /\ count is_rerun (trace st') = (0 + 3)%nat
    /\ count is_sleep (trace st') = (0 + (3 - 1))%nat
    /\ head (trace st') = Some (ELog Error "Exitting because loop_count exceeded").
Proof.
  apply (loop_if_retry_bound literal_valid literal_match (prints "pending")
           fs_ok cmd room substitute_whole 0%nat (fresh_executor looping) looping
           (with_trace [ELog Debug "Template-Command: 'check'"]
              (with_objects [command_object looping; command_object looping]
                 (fresh_executor looping)))
           3%nat {| loop_sleep := 5 |}).
  - exists (VStr "check"), 1%nat. repeat split; vm_compute; reflexivity.
  - reflexivity.
  - lia.
  - unfold room. lia.
  - reflexivity.
  - simpl. lia.
  - intros i _. exists {| stdout := VStr "pending"; returncode := Some 0 |}, "pending".
    split; [reflexivity|]. split; [reflexivity|].
    split; [left; reflexivity|].
    split; [split; intros p H; discriminate H|].
    exists "pending". split; [reflexivity|]. split; [reflexivity|].
    exists "pending". reflexivity.
Defined.

(** The attempt of [prints text] is let through by a command without
    [exit_on_error] and without error predicates. *)
Lemma prints_asks_rerun c text i :
  exit_on_error c = false ->
  schemas.error_if c = None -> schemas.error_if_not c = None ->
  loop_if_triggers literal_valid literal_match c text
  \/ loop_if_not_triggers literal_valid literal_match c text ->
  asks_rerun literal_valid literal_match c (prints text i c).
Proof.
intros Hx He Hen Htr.
exists {| stdout := VStr text; returncode := Some 0 |}, text.
split; [reflexivity|]. split; [reflexivity|]. split; [left; exact Hx|].
split; [|exact Htr].
split; intros p H; congruence.
Defined.

Lemma loop_count_0_or_1_runs_once_witness :
  exists st',
    run_with (prints "pending") 0%nat
      (fresh_executor (a_command None (Some "READY") None "0"))
    = (Raise (SystemExit 1), st')
    /\ attempts st' = 1%nat
    /\ count is_exec_cmd (trace st') = 1%nat
    /\ count is_sleep (trace st') = 0%nat
    /\ run_count st' = 1
    /\ (0 = 0 -> 0 < run_count st')
    /\ head (trace st') = Some (ELog Error "Exitting because loop_count exceeded").
Proof.
pose (c := a_command None (Some "READY") None "0").
apply (loop_count_0_or_1_runs_once literal_valid literal_match (prints "pending")
         fs_ok cmd room substitute_whole 0%nat (fresh_executor c) c
         (with_trace [ELog Debug "Template-Command: 'check'"]
            (with_objects [command_object c; command_object c] (fresh_executor c)))
         0).
- exists (VStr "check"), 1%nat. repeat split; vm_compute; reflexivity.
- reflexivity.
- left. reflexivity.
- apply prints_asks_rerun; try reflexivity. right. split.
  + intros p H. discriminate H.
  + exists "READY". repeat split; reflexivity.
Defined.

(** C5 at the failing inputs.  A command whose [loop_if] matches is run
    with a [loop_count] that is no number.  With ["abc"], [variable_to_int]
    raises [ExecException] inside [loop_if], outside the [try] of [exec]:
    the exception leaves [exec] and [run]; the engine has logged no error
    and has called no [exit], and the last thing it did is the warning of
    [loop_if].  With the superscript two, which [str.isnumeric] accepts and
    [int] refuses, what leaves [run] is a [ValueError], not the typed
    failure.  Nothing slept in either run. *)
Theorem loop_count_failure_leaves_run :
  let abc := run_with (prints "pending") 0%nat
               (fresh_executor (a_command (Some "pending") None None "abc")) in
  let superscript := run_with (prints "pending") 0%nat
               (fresh_executor
                  (a_command (Some "pending") None None
                     (String (ascii_of_nat 178) ""))) in
  fst abc = Raise (ExecException "Variable loop_count has not a numeric value: abc")
  /\ head (trace (snd abc))
     = Some (ELog Warn "Re-run command because loop_if matches: pending")
  /\ (forall msg, ~ In (ELog Error msg) (trace (snd abc)))
  /\ count is_sleep (trace (snd abc)) = 0%nat
  /\ fst superscript = Raise ValueError
  /\ (forall payload, fst superscript <> Raise (ExecException payload))
  /\ (forall msg, ~ In (ELog Error msg) (trace (snd superscript)))
  /\ count is_sleep (trace (snd superscript)) = 0%nat.
Proof.
repeat split; try (vm_compute; reflexivity).
- intros msg. vm_compute. intuition discriminate.
- intros payload. vm_compute. discriminate.
- intros msg. vm_compute. intuition discriminate.
Qed.

Lemma loop_count_not_numeric_raises_witness :
  exists st',
    exec_with (prints "pending") (a_command (Some "pending") None None "abc")
      (init five_seconds [])
    = (Raise (ExecException "Variable loop_count has not a numeric value: abc"), st')
    /\ count is_sleep (trace st') = 0%nat
    /\ run_count st' = 1
    /\ attempts st' = 1%nat.
Proof.
apply (loop_count_not_numeric_raises literal_valid literal_match (prints "pending")
         fs_ok cmd room (a_command (Some "pending") None None "abc") (init five_seconds [])).
- apply prints_asks_rerun; try reflexivity. left.
  exists "pending". repeat split; try reflexivity. exists "pending". reflexivity.
- reflexivity.
Defined.

Lemma exit_on_error_stops_pipeline_witness :
  let c := {| cmd := "check"; save := Some "out.txt"; exit_on_error := true;
              schemas.error_if := Some "boom"; schemas.error_if_not := None;
              schemas.loop_if := Some "boom"; schemas.loop_if_not := None;
              loop_count := "3" |} in
  let st := init five_seconds [] in
  let st' :=
    with_trace [ELog Debug "Exiting because return-code is not 0";
                ELog Error "boom"; EExecCmd c; ELog Info "Executing 'check'"]
      (with_attempts 1 st) in
  exec_with (fails "boom") c st = (Raise (SystemExit 1), st')
  /\ varstore st' = varstore st
  /\ count is_set_variable (trace st') = count is_set_variable (trace st)
  /\ count is_file (trace st') = count is_file (trace st)
  /\ count is_search (trace st') = count is_search (trace st)
  /\ count is_sleep (trace st') = count is_sleep (trace st)
  /\ count is_exec_cmd (trace st') = S (count is_exec_cmd (trace st)).
Proof.
intros c st.
apply (exit_on_error_stops_pipeline literal_valid literal_match (fails "boom")
         fs_ok cmd room c st
         {| stdout := VExc (ExecException "boom"); returncode := Some 1 |}).
- reflexivity.
- reflexivity.
- discriminate.
Defined.

Lemma error_if_preempts_loop_witness :
  let c := a_command (Some "FAIL") None (Some "FAIL") "3" in
  let st := init five_seconds [] in
  exists st',
    exec_with (prints "all FAIL here") c st = (Raise (SystemExit 1), st')
    /\ attempts st' = 1%nat
    /\ run_count st' = 1
    /\ count is_sleep (trace st') = 0%nat
    /\ count is_rerun (trace st') = 0%nat
    /\ (count is_search (trace st') <= 1)%nat
    /\ (not_fatal c {| stdout := VStr "all FAIL here"; returncode := Some 0 |} ->
        trace st'
        = ELog Error "Exitting because error_if matches: FAIL"
          :: ESearch "FAIL" (VStr "all FAIL here")
          :: trace (published fs_ok c
                      {| stdout := VStr "all FAIL here"; returncode := Some 0 |}
                      (attempted cmd c st))).
Proof.
intros c st.
apply (error_if_preempts_loop literal_valid literal_match (prints "all FAIL here")
         fs_ok cmd room c st
         {| stdout := VStr "all FAIL here"; returncode := Some 0 |}
         "all FAIL here" "FAIL" "FAIL"); reflexivity.
Defined.

(** C4 at the failing input.  The primitive raises [ExecException("boom")]
    for a command with [error_if: "FAIL"] and no [exit_on_error].  The
    result that [exec] classifies holds the exception object, not its text:
    the search of [error_if] is applied to that object and raises
    [TypeError], which leaves [exec]. *)
Theorem exec_exception_object_reaches_error_if :
  let r := exec_with (fails "boom") (a_command None None (Some "FAIL") "3")
             (init five_seconds []) in
  fst r = Raise TypeError
  /\ head (trace (snd r)) = Some (ESearch "FAIL" (VExc (ExecException "boom")))
  /\ varstore (snd r) !! "RESULT_STDOUT" = Some (VExc (ExecException "boom")).
Proof. repeat split; vm_compute; reflexivity. Qed.
End EngineScenarios.

(** ** The session store *)

Section SessionStoreFacts.
Import MsfSessionStore.
Variable msfsessions_list : nat -> list (string * string).
Variable str_sessions : list (string * string) -> string.

Local Abbreviation get_session_by_name :=
  (MsfSessionStore.get_session_by_name msfsessions_list).
Local Abbreviation wait_for_session :=
  (MsfSessionStore.wait_for_session msfsessions_list str_sessions).
Local Abbreviation wait_for_session_loop :=
  (MsfSessionStore.wait_for_session_loop msfsessions_list).
Local Abbreviation wait_for_increased_session :=
  (MsfSessionStore.wait_for_increased_session msfsessions_list str_sessions).
Local Abbreviation wait_for_increased_session_loop :=
  (MsfSessionStore.wait_for_increased_session_loop msfsessions_list str_sessions).

Lemma drain_loop_spec q pending : forall st,
  queues st !! q = Some pending ->
  0 <= get_session_wait_time st ->
  drain_loop q (length pending) st = (Normal tt, drained q pending st).
Proof.
induction pending as [|x rest IH]; intros st Hq Hw; [reflexivity|].
simpl drain_loop. unfold bind at 1. unfold queue_get at 1. rewrite Hq.
unfold bind at 1. unfold logger_debug, emit at 1.
unfold bind at 1. unfold add_session, bind at 1. unfold logger_debug, emit at 1.
unfold bind at 1. unfold emit at 1.
unfold bind at 1. unfold bind at 1. unfold time_sleep. simpl.
destruct (Z.ltb_spec (get_session_wait_time st) 0); [lia|].
unfold emit. simpl. rewrite IH.
- reflexivity.
- simpl. apply list_lookup_insert_eq. apply lookup_lt_Some in Hq. exact Hq.
- exact Hw.
Qed.

Lemma drained_frame q pending : forall st,
  sessions (drained q pending st) = merge pending (sessions st)
  /\ varstore (drained q pending st) = varstore st
  /\ queue (drained q pending st) = queue st
  /\ reads (drained q pending st) = reads st
  /\ get_session_wait_time (drained q pending st) = get_session_wait_time st
  /\ count is_sleep (trace (drained q pending st))
     = (count is_sleep (trace st) + length pending)%nat.
Proof.
induction pending as [|x rest IH]; intros st.
- simpl. repeat split. lia.
- set (st1 := with_trace
           (drain_events q (get_session_wait_time st) x ++ trace st)
           (with_sessions (<[fst x := snd x]> (sessions st))
              (with_queues (<[q := rest]> (queues st)) st))).
  change (drained q (x :: rest) st) with (drained q rest st1).
  destruct (IH st1) as (H1 & H2 & H3 & H4 & H5 & H6).
  rewrite H1, H2, H3, H4, H5, H6. subst st1. simpl. repeat split. lia.
Qed.

Lemma drained_queue q pending : forall st,
  queues st !! q = Some pending ->
  queues (drained q pending st) !! q = Some [].
Proof.
induction pending as [|x rest IH]; intros st Hq; simpl; [exact Hq|].
apply IH. simpl. apply list_lookup_insert_eq. apply lookup_lt_Some in Hq. exact Hq.
Qed.

Lemma drain_no_pending st : no_pending st -> drain st = (Normal tt, st).
Proof.
unfold no_pending, drain. destruct (queue st) as [q|]; [|reflexivity].
intros ->. reflexivity.
Qed.

(** One round of [get_session_by_name], after the drain. *)
Lemma get_session_round rounds name block st st1 :
  drain st = (Normal tt, st1) ->
  get_session_by_name (S rounds) name block st
  = match scan name (sessions st1) (msfsessions_list (reads st1)) with
    | Some k => (Normal k, with_reads (S (reads st1)) st1)
    | None =>
        if block then
          get_session_by_name rounds name block
            (with_trace (ESleep 3 :: trace st1) (with_reads (S (reads st1)) st1))
        else
          (Raise (ExecException ("Session (" +:+ name +:+ ") not found")),
           with_reads (S (reads st1)) st1)
    end.
Proof.
intros Hd. simpl MsfSessionStore.get_session_by_name.
rewrite (bind_normal _ _ _ _ _ Hd).
unfold bind at 1. unfold msfsessions at 1.
unfold bind at 1. simpl.
destruct (scan name (sessions st1) (msfsessions_list (reads st1))); [reflexivity|].
destruct block; reflexivity.
Qed.

(** C10.  A call with [block=False] first drains the queue into the
    directory, sleeping after each item, and looks up the name in the
    merged directory; when the lookup fails the call raises
    [ExecException] and the merged entries stay in the directory. *)
Theorem get_session_by_name_merges_before_failing rounds name st q pending :
  queue st = Some q ->
  queues st !! q = Some pending ->
  0 <= get_session_wait_time st ->
  scan name (merge pending (sessions st)) (msfsessions_list (reads st)) = None ->
  let st' := with_reads (S (reads st)) (drained q pending st) in
  get_session_by_name (S rounds) name false st
  = (Raise (ExecException ("Session (" +:+ name +:+ ") not found")), st')
  /\ sessions st' = merge pending (sessions st)
  /\ queues st' !! q = Some []
  /\ count is_sleep (trace st') = (count is_sleep (trace st) + length pending)%nat.
Proof.
intros Hq Hp Hw Hs st'.
assert (drain st = (Normal tt, drained q pending st)) as Hd.
{ unfold drain. rewrite Hq, Hp. apply drain_loop_spec; assumption. }
destruct (drained_frame q pending st) as (H1 & H2 & H3 & H4 & H5 & H6).
rewrite (get_session_round _ _ _ _ _ Hd), H1, H4, Hs.
subst st'. simpl. rewrite ?H1, ?H4, ?H6.
repeat split. apply drained_queue, Hp.
Qed.

(** C7.  Nothing is pending and no handle of the registry carries the
    correlation id that the directory holds for [name].  With
    [block=False] the call raises [ExecException] at once: the registry
    was read once and the trace is what it was, so nothing slept.  With
    [block=True], as long as the registry shows no such handle, the call
    neither returns nor raises: after any number of rounds it has slept 3
    seconds that many times and is still polling. *)
Theorem get_session_by_name_not_found name st :
  no_pending st ->
  (scan name (sessions st) (msfsessions_list (reads st)) = None ->
   forall rounds,
     get_session_by_name (S rounds) name false st
     = (Raise (ExecException ("Session (" +:+ name +:+ ") not found")),
        with_reads (S (reads st)) st))
  /\ ((forall i, scan name (sessions st) (msfsessions_list (reads st + i)) = None) ->
      forall rounds,
        get_session_by_name rounds name true st
        = (Undefined,
           with_trace (repeat (ESleep 3) rounds ++ trace st)
             (with_reads (reads st + rounds) st))).
Proof.
intros Hn. split.
- intros Hs rounds.
  rewrite (get_session_round _ _ _ _ _ (drain_no_pending _ Hn)), Hs. reflexivity.
- intros Hs rounds. revert st Hn Hs.
  induction rounds as [|rounds IH]; intros st Hn Hs.
  + simpl. unfold undefined. rewrite Nat.add_0_r. destruct st; reflexivity.
  + rewrite (get_session_round _ _ _ _ _ (drain_no_pending _ Hn)).
    pose proof (Hs O) as H0. rewrite Nat.add_0_r in H0. rewrite H0.
    rewrite IH.
    * simpl. rewrite repeat_app_cons.
      replace (reads st + S rounds)%nat with (S (reads st + rounds)) by lia.
      reflexivity.
    * exact Hn.
    * intros i. simpl.
      replace (S (reads st + i)) with (reads st + S i)%nat by lia. apply Hs.
Qed.

Lemma add_or_queue_session_queued name uuid q session_id content st :
  queues st !! q = Some content ->
  add_or_queue_session name uuid (Some q) session_id st
  = (Normal tt,
     with_trace (EPut q (name, uuid) :: trace st)
       (with_queues (<[q := content ++ [(name, uuid)]]> (queues st)) st)).
Proof. intros Hq. unfold add_or_queue_session, queue_put. rewrite Hq. reflexivity. Qed.

Lemma add_or_queue_session_direct name uuid session_id st :
  add_or_queue_session name uuid None session_id st
  = (Normal tt,
     with_trace
       (ESleep 30
        :: ELog Debug ("Waiting " +:+ pretty 30 +:+ " seconds for session to get ready")
        :: ESetVariable "LAST_MSF_SESSION" (VStr session_id)
        :: ELog Debug ("Set LAST_MSF_SESSION: " +:+ session_id)
        :: ELog Debug ("Set MSF-Session: " +:+ name +:+ " = " +:+ uuid)
        :: trace st)
       (with_varstore (<["LAST_MSF_SESSION" := VStr session_id]> (varstore st))
          (with_sessions (<[name := uuid]> (sessions st)) st))).
Proof. reflexivity. Qed.

Lemma untouched_refl st : untouched st st.
Proof. repeat split. Qed.

Lemma wait_for_session_loop_queued name uuid q content rounds : forall st,
  queues st !! q = Some content ->
  exists o st',
    wait_for_session_loop rounds name uuid (Some q) st = (o, st')
    /\ untouched st st'
    /\ ((o = Normal tt
         /\ queues st' = <[q := content ++ [(name, uuid)]]> (queues st)
         /\ head (trace st') = Some (EPut q (name, uuid)))
        \/ (o = Undefined /\ queues st' = queues st)).
Proof.
induction rounds as [|rounds IH]; intros st Hq.
- exists Undefined, st. split; [reflexivity|]. split; [apply untouched_refl|].
  right. split; reflexivity.
- simpl MsfSessionStore.wait_for_session_loop.
  unfold bind at 1. unfold msfsessions at 1.
  destruct (0 <? length (msfsessions_list (reads st)))%nat.
  + unfold bind at 1. unfold msfsessions at 1.
    destruct (first_with_uuid uuid _) as [session_id|].
    * unfold queue_put. simpl. rewrite Hq.
      eexists _, _. split; [reflexivity|]. split; [repeat split|].
      left. repeat split.
    * destruct (IH (with_reads (S (reads (with_reads (S (reads st)) st)))
                      (with_reads (S (reads st)) st)) Hq)
        as (o & st' & He & Hu & Hr).
      exists o, st'. split; [exact He|]. split; [exact Hu|exact Hr].
  + destruct (IH (with_reads (S (reads st)) st) Hq) as (o & st' & He & Hu & Hr).
    exists o, st'. split; [exact He|]. split; [exact Hu|exact Hr].
Qed.

Lemma wait_for_increased_session_loop_queued name q content len known rounds :
  forall st,
  queues st !! q = Some content ->
  exists o st',
    wait_for_increased_session_loop rounds len known name (Some q) st = (o, st')
    /\ untouched st st'
    /\ ((o = Normal tt
         /\ exists exploit_uuid,
              queues st' = <[q := content ++ [(name, exploit_uuid)]]> (queues st))
        \/ (o = Undefined /\ queues st' = queues st)).
Proof.
induction rounds as [|rounds IH]; intros st Hq.
- exists Undefined, st. split; [reflexivity|]. split; [apply untouched_refl|].
  right. split; reflexivity.
- simpl MsfSessionStore.wait_for_increased_session_loop.
  unfold bind at 1. unfold msfsessions at 1.
  destruct (len <? length (msfsessions_list (reads st)))%nat.
  + unfold bind at 1. unfold msfsessions at 1.
    destruct (first_new known _) as [[session_id exploit_uuid]|].
    * unfold bind at 1. unfold add_or_queue_session, queue_put. simpl. rewrite Hq.
      eexists _, _. split; [reflexivity|]. split; [repeat split|].
      left. split; [reflexivity|]. exists exploit_uuid. reflexivity.
    * destruct (IH (with_reads (S (reads (with_reads (S (reads st)) st)))
                      (with_reads (S (reads st)) st)) Hq)
        as (o & st' & He & Hu & Hr).
      exists o, st'. split; [exact He|]. split; [exact Hu|exact Hr].
  + destruct (IH (with_reads (S (reads st)) st) Hq) as (o & st' & He & Hu & Hr).
    exists o, st'. split; [exact He|]. split; [exact Hu|exact Hr].
Qed.

(** Once the registry shows, and goes on showing, a handle with the
    correlation id, [wait_for_session] returns. *)
Lemma wait_for_session_loop_returns name uuid queue k :
  (forall i, (k <= i)%nat ->
     (0 < length (msfsessions_list i))%nat
     /\ is_Some (first_with_uuid uuid (msfsessions_list i))) ->
  forall rounds st,
    (1 <= rounds)%nat -> (k < rounds + reads st)%nat ->
    match queue with Some q => is_Some (queues st !! q) | None => True end ->
    exists st', wait_for_session_loop rounds name uuid queue st = (Normal tt, st').
Proof.
intros Hlive. induction rounds as [|rounds IH]; intros st H1 Hk Hq; [lia|].
simpl MsfSessionStore.wait_for_session_loop.
unfold bind at 1. unfold msfsessions at 1.
destruct (Nat.ltb_spec 0 (length (msfsessions_list (reads st)))) as [Hne|He].
- unfold bind at 1. unfold msfsessions at 1.
  match goal with |- context [first_with_uuid uuid ?r] =>
    destruct (first_with_uuid uuid r) as [sid|] eqn:Hf end; simpl in Hf.
  + destruct queue as [q|].
    * destruct Hq as [content Hq].
      unfold add_or_queue_session, queue_put. simpl. rewrite Hq.
      eexists. reflexivity.
    * eexists. reflexivity.
  + assert (S (reads st) < k)%nat as Hlt.
    { destruct (Nat.lt_ge_cases (S (reads st)) k) as [|Hge]; [assumption|].
      destruct (Hlive _ Hge) as [_ [x Hx]]. congruence. }
    apply IH; simpl; [lia | lia | exact Hq].
- assert (reads st < k)%nat as Hlt.
  { destruct (Nat.lt_ge_cases (reads st) k) as [|Hge]; [assumption|].
    destruct (Hlive _ Hge) as [Hpos _]. lia. }
  apply IH; simpl; [lia | lia | exact Hq].
Qed.

(** Once the registry has grown, and goes on showing the same first new
    handle, [wait_for_increased_session] returns, having put the id of
    that handle on the queue. *)
Lemma wait_for_increased_session_loop_grows name q content len known lo k
    session_id exploit_uuid :
  (forall i, (lo <= i)%nat -> (i < k)%nat ->
     (length (msfsessions_list i) <= len)%nat) ->
  (forall i, (k <= i)%nat ->
     (len < length (msfsessions_list i))%nat
     /\ first_new known (msfsessions_list i) = Some (session_id, exploit_uuid)) ->
  forall rounds st,
    queues st !! q = Some content ->
    (lo <= reads st)%nat -> (1 <= rounds)%nat -> (k < rounds + reads st)%nat ->
    exists st',
      wait_for_increased_session_loop rounds len known name (Some q) st
      = (Normal tt, st')
      /\ queues st' = <[q := content ++ [(name, exploit_uuid)]]> (queues st).
Proof.
intros Hbefore Hafter.
induction rounds as [|rounds IH]; intros st Hq Hlo H1 Hk; [lia|].
simpl MsfSessionStore.wait_for_increased_session_loop.
unfold bind at 1. unfold msfsessions at 1.
destruct (Nat.ltb_spec len (length (msfsessions_list (reads st)))) as [Hgrown|Hnot].
- assert (k <= reads st)%nat as Hge.
  { destruct (Nat.lt_ge_cases (reads st) k) as [Hlt|]; [|assumption].
    pose proof (Hbefore _ Hlo Hlt). lia. }
  unfold bind at 1. unfold msfsessions at 1. simpl.
  destruct (Hafter (S (reads st)) ltac:(lia)) as [_ ->].
  unfold bind at 1. unfold add_or_queue_session, queue_put. simpl. rewrite Hq.
  eexists. split; reflexivity.
- assert (reads st < k)%nat as Hlt.
  { destruct (Nat.lt_ge_cases (reads st) k) as [|Hge]; [assumption|].
    destruct (Hafter _ Hge) as [Hpos _]. lia. }
  destruct (IH (with_reads (S (reads st)) st) Hq) as (st' & He & Hqs);
    simpl; try lia.
  exists st'. split; [exact He|exact Hqs].
Qed.

(** C8.  A wait that was given a queue leaves the store as it was, however
    it goes: the directory and the variables are unchanged, no variable was
    set and nothing slept.  When the registry shows a matching session the
    wait returns, and the pair of the name and the correlation id is at the
    end of the queue: [wait_for_session] returns once the registry keeps
    showing a handle with the id it was asked to wait for, and puts that
    id; [wait_for_increased_session] returns once the registry has grown,
    and puts the id of the first handle that was not in its snapshot.
    Without a queue the pair goes into the directory, the handle into
    [LAST_MSF_SESSION], and the store sleeps 30 seconds. *)
Theorem waits_with_queue_leave_store_untouched name uuid q content rounds st :
  queues st !! q = Some content ->
  (forall o st',
     wait_for_session rounds name uuid (Some q) st = (o, st') -> untouched st st')
  /\ (forall o st',
        wait_for_increased_session rounds name uuid (Some q) st = (o, st') ->
        untouched st st')
  /\ (forall k,
        (forall i, (k <= i)%nat ->
           (0 < length (msfsessions_list i))%nat
           /\ is_Some (first_with_uuid uuid (msfsessions_list i))) ->
        (1 <= rounds)%nat -> (k <= rounds + reads st)%nat ->
        exists st',
          wait_for_session rounds name uuid (Some q) st = (Normal tt, st')
          /\ queues st' = <[q := content ++ [(name, uuid)]]> (queues st)
          /\ head (trace st') = Some (EPut q (name, uuid)))
  /\ (forall k session_id exploit_uuid,
        (forall i, (S (S (reads st)) <= i)%nat -> (i < k)%nat ->
           (length (msfsessions_list i)
            <= length (msfsessions_list (reads st)))%nat) ->
        (forall i, (k <= i)%nat ->
           (length (msfsessions_list (reads st))
            < length (msfsessions_list i))%nat
           /\ first_new (map fst (msfsessions_list (S (reads st))))
                (msfsessions_list i)
              = Some (session_id, exploit_uuid)) ->
        (1 <= rounds)%nat -> (k <= rounds + S (reads st))%nat ->
        exists st',
          wait_for_increased_session rounds name uuid (Some q) st
          = (Normal tt, st')
          /\ queues st' = <[q := content ++ [(name, exploit_uuid)]]> (queues st))
  /\ (forall session_id, exists st',
        add_or_queue_session name uuid None session_id st = (Normal tt, st')
        /\ sessions st' = <[name := uuid]> (sessions st)
        /\ varstore st' = <["LAST_MSF_SESSION" := VStr session_id]> (varstore st)
        /\ queues st' = queues st
        /\ head (trace st') = Some (ESleep 30)).
Proof.
intros Hq. split; [|split; [|split; [|split]]].
- intros o st'. unfold MsfSessionStore.wait_for_session.
  unfold bind at 1. unfold msfsessions at 1.
  unfold bind at 1. unfold logger_debug, emit at 1.
  match goal with |- context [wait_for_session_loop _ _ _ _ ?s] =>
    destruct (wait_for_session_loop_queued name uuid q content rounds s Hq)
      as (o1 & st1 & He & Hu & _) end.
  rewrite He. intros [= <- <-]. exact Hu.
- intros o st'. unfold MsfSessionStore.wait_for_increased_session.
  unfold bind at 1. unfold msfsessions at 1.
  unfold bind at 1. unfold msfsessions at 1.
  match goal with |- context [wait_for_increased_session_loop _ ?l ?kn _ _ ?s] =>
    destruct (wait_for_increased_session_loop_queued name q content l kn rounds s Hq)
      as (o1 & st1 & He & Hu & _) end.
  rewrite He. intros [= <- <-]. exact Hu.
- intros k Hlive Hr Hk. unfold MsfSessionStore.wait_for_session.
  unfold bind at 1. unfold msfsessions at 1.
  unfold bind at 1. unfold logger_debug, emit at 1.
  match goal with |- context [wait_for_session_loop _ _ _ _ ?s] =>
    destruct (wait_for_session_loop_queued name uuid q content rounds s Hq)
      as (o1 & st1 & He & _ & Hcase);
    destruct (wait_for_session_loop_returns name uuid (Some q) k Hlive rounds s Hr)
      as [st2 He2] end.
  + simpl. lia.
  + simpl. eexists. exact Hq.
  + rewrite He in He2. injection He2 as -> ->.
    destruct Hcase as [(_ & Hqs & Hh)|(Habs & _)]; [|discriminate Habs].
    exists st2. split; [exact He|]. split; [exact Hqs|exact Hh].
- intros k session_id exploit_uuid Hbefore Hafter Hr Hk.
  unfold MsfSessionStore.wait_for_increased_session.
  unfold bind at 1. unfold msfsessions at 1.
  unfold bind at 1. unfold msfsessions at 1.
  match goal with |- context [wait_for_increased_session_loop _ ?l ?kn _ _ ?s] =>
    destruct (wait_for_increased_session_loop_grows name q content l kn
                (S (S (reads st))) k session_id exploit_uuid Hbefore Hafter
                rounds s Hq)
      as (st1 & He & Hqs) end.
  + simpl. lia.
  + exact Hr.
  + simpl. lia.
  + exists st1. split; [exact He|exact Hqs].
- intros session_id. rewrite add_or_queue_session_direct.
  eexists. split; [reflexivity|]. repeat split.
Qed.

(** A name that the directory does not hold matches no handle. *)
Lemma scan_absent name (directory : gmap string string) registry :
  directory !! name = None -> scan name directory registry = None.
Proof.
intros Hn. induction registry as [|[k u] registry IH]; simpl; [reflexivity|].
rewrite Hn. exact IH.
Qed.
End SessionStoreFacts.

(** *** The claims about the session store, at concrete inputs *)

Section SessionScenarios.
Import SessionExamples.
Import MsfSessionStore.

Lemma get_session_by_name_not_found_witness :
  get_session_by_name (steady [("7", "other")]) 1 "beacon1" false worker
  = (Raise (ExecException "Session (beacon1) not found"),
     with_reads 1 worker)
  /\ get_session_by_name (steady [("7", "other")]) 2 "beacon1" true worker
     = (Undefined,
        with_trace ([ESleep 3; ESleep 3] ++ trace worker)
          (with_reads (0 + 2) worker)).
Proof.
destruct (get_session_by_name_not_found (steady [("7", "other")]) "beacon1" worker)
  as [Hfalse Htrue].
- exact I.
- split.
  + apply (Hfalse eq_refl 0%nat).
  + apply (Htrue (fun i => eq_refl) 2%nat).
Defined.

Lemma get_session_by_name_merges_before_failing_witness :
  let st := owner [("beacon1", "u1"); ("beacon2", "u2")] in
  let st' := with_reads 1 (drained 0 [("beacon1", "u1"); ("beacon2", "u2")] st) in
  get_session_by_name (steady [("7", "other")]) 1 "beacon1" false st
  = (Raise (ExecException "Session (beacon1) not found"), st')
  /\ sessions st' = merge [("beacon1", "u1"); ("beacon2", "u2")] (sessions st)
  /\ queues st' !! 0%nat = Some []
  /\ count is_sleep (trace st') = (count is_sleep (trace st) + 2)%nat.
Proof.
intros st.
apply (get_session_by_name_merges_before_failing (steady [("7", "other")])
         0%nat "beacon1" st 0%nat [("beacon1", "u1"); ("beacon2", "u2")]).
- reflexivity.
- reflexivity.
- simpl. lia.
- vm_compute. reflexivity.
Defined.

Lemma waits_with_queue_leave_store_untouched_witness :
  let registry := changes_at 3 [("4", "u0")] [("4", "u0"); ("7", "u1")] in
  (exists st',
     wait_for_session registry show_sessions 3 "beacon1" "u0" (Some 0%nat) worker
     = (Normal tt, st')
     /\ untouched worker st'
     /\ queues st' = <[0%nat := [] ++ [("beacon1", "u0")]]> (queues worker)
     /\ head (trace st') = Some (EPut 0 ("beacon1", "u0")))
  /\ (exists st',
        wait_for_increased_session registry show_sessions 3 "beacon1" "u0"
          (Some 0%nat) worker
        = (Normal tt, st')
        /\ untouched worker st'
        /\ queues st' = <[0%nat := [] ++ [("beacon1", "u1")]]> (queues worker))
  /\ (forall session_id, exists st',
        add_or_queue_session "beacon1" "u0" None session_id worker = (Normal tt, st')
        /\ sessions st' = <["beacon1" := "u0"]> (sessions worker)
        /\ varstore st' = <["LAST_MSF_SESSION" := VStr session_id]> (varstore worker)
        /\ queues st' = queues worker
        /\ head (trace st') = Some (ESleep 30)).
Proof.
intros registry.
destruct (waits_with_queue_leave_store_untouched registry show_sessions
            "beacon1" "u0" 0%nat [] 3%nat worker eq_refl)
  as (Hs1 & Hs2 & Hl1 & Hl2 & Hd).
split; [|split; [|exact Hd]].
- destruct (Hl1 0%nat) as (st' & He & Hq & Hh).
  + intros i _. unfold registry, changes_at.
    destruct (i <? 3)%nat; simpl; (split; [lia|eexists; reflexivity]).
  + lia.
  + simpl. lia.
  + exists st'. split; [exact He|]. split; [exact (Hs1 _ _ He)|].
    split; [exact Hq|exact Hh].
- destruct (Hl2 3%nat "7" "u1") as (st' & He & Hq).
  + intros i H1 H2. simpl in H1. assert (i = 2%nat) as -> by lia. simpl. lia.
  + intros i Hi. unfold registry, changes_at.
    destruct (Nat.ltb_spec i 3) as [Hlt|_]; [lia|]. simpl. split; [lia|reflexivity].
  + lia.
  + simpl. lia.
  + exists st'. split; [exact He|]. split; [exact (Hs2 _ _ He)|exact Hq].
Defined.

(** The same wait, run: the worker returns with the pair on the queue and
    an empty directory; the owner then finds the handle. *)
Lemma worker_queues_then_owner_finds :
  let w := wait_for_session (steady [("7", "u1")]) show_sessions 1 "beacon1" "u1"
             (Some 0%nat) worker in
  fst w = Normal tt
  /\ queues (snd w) = [[("beacon1", "u1")]]
  /\ sessions (snd w) = ∅
  /\ fst (get_session_by_name (steady [("7", "u1")]) 1 "beacon1" false
            (owner [("beacon1", "u1")])) = Normal "7".
Proof. repeat split; vm_compute; reflexivity. Qed.
End SessionScenarios.

(** ** The heap: [copy.deepcopy] *)

Lemma unvisited_mono n (m m' : memo) : m ⊆ m' -> (unvisited n m' <= unvisited n m)%nat.
Proof.
intros H. unfold unvisited. apply subseteq_size. apply subseteq_dom in H. set_solver.
Qed.

Lemma unvisited_insert n (m : memo) r r' :
  (r < n)%nat -> m !! r = None ->
  (unvisited n (<[r := r']> m) < unvisited n m)%nat.
Proof.
intros Hr Hm. unfold unvisited. apply subset_size. rewrite dom_insert_L.
apply not_elem_of_dom in Hm.
assert (r ∈ (set_seq 0 n : gset nat)) by (apply elem_of_set_seq; lia).
set_solver.
Qed.

Lemma unvisited_empty n : unvisited n ∅ = n.
Proof.
unfold unvisited. rewrite dom_empty_L, difference_empty_L. apply size_set_seq.
Qed.

Lemma value_copy_mono (m m' : memo) x y : m ⊆ m' -> value_copy m x y -> value_copy m' x y.
Proof.
intros Hm. destruct x; simpl; try exact (fun H => H).
intros (r' & Hr & ->). exists r'. split; [|reflexivity].
eapply lookup_weaken; eassumption.
Qed.

Lemma obj_copy_mono (m m' : memo) o o' : m ⊆ m' -> obj_copy m o o' -> obj_copy m' o o'.
Proof.
intros Hm (ys & -> & Hf). exists ys. split; [reflexivity|].
eapply Forall2_impl; [exact Hf|]. intros x y. apply value_copy_mono, Hm.
Qed.

Lemma children_blank o : children (blank o) = [].
Proof. destruct o; reflexivity. Qed.

Lemma children_rebuild o ys x : x ∈ children (rebuild o ys) -> x ∈ ys.
Proof.
destruct o as [items|elems|attrs tv]; simpl; try exact (fun H => H).
- intros H. apply list_elem_of_fmap in H as ([k v] & -> & H).
  apply elem_of_zip_r in H. exact H.
- intros H. apply list_elem_of_fmap in H as ([k v] & -> & H).
  apply elem_of_zip_r in H. exact H.
Qed.

Lemma value_copy_refs (m : memo) xs ys r' :
  Forall2 (value_copy m) xs ys -> VRef r' ∈ ys -> exists r, m !! r = Some r'.
Proof.
induction 1 as [|x y xs ys Hv _ IH]; intros Hin.
- apply elem_of_nil in Hin. destruct Hin.
- apply elem_of_cons in Hin as [<-|Hin]; [|exact (IH Hin)].
  destruct x; simpl in Hv; try discriminate.
  destruct Hv as (r0 & Hr & [= ->]). exists l. exact Hr.
Qed.

Lemma copied_refl h0 h m : copying h0 h m -> copied h0 h m h m.
Proof.
intros Hc. split; [exact Hc|]. split; [reflexivity|]. split; [lia|].
split; [reflexivity|]. intros r r' H1 H2. congruence.
Qed.

Lemma copied_trans h0 h m h1 m1 h2 m2 :
  copied h0 h m h1 m1 -> copied h0 h1 m1 h2 m2 -> copied h0 h m h2 m2.
Proof.
intros (Hc1 & Hs1 & Hl1 & Hf1 & Hn1) (Hc2 & Hs2 & Hl2 & Hf2 & Hn2).
split; [exact Hc2|]. split; [etrans; eassumption|]. split; [lia|].
split.
- intros i Hi. rewrite Hf2 by lia. apply Hf1, Hi.
- intros r r' Hr Hm. destruct (m1 !! r) as [r1|] eqn:E.
  + assert (r1 = r') as -> by (eapply lookup_weaken in E; [|exact Hs2]; congruence).
    destruct (Hn1 _ _ E Hm) as (Hle & o & o' & Ho & Ho' & Hcp).
    split; [exact Hle|]. exists o, o'. split; [exact Ho|]. split.
    * destruct Hc1 as (_ & _ & Hb & _). destruct (Hb _ _ E) as (_ & _ & Hlt).
      rewrite Hf2 by exact Hlt. exact Ho'.
    * eapply obj_copy_mono; eassumption.
  + destruct (Hn2 _ _ Hr E) as (Hle & Hex). split; [lia|exact Hex].
Qed.

Section Deepcopy.
Variable h0 : heap.
Hypothesis h0_closed : closed h0.

Lemma mapM_copy_spec fuel f :
  copies_at h0 fuel f ->
  forall xs h m,
    copying h0 h m -> refs_below (length h0) xs ->
    (unvisited (length h0) m <= fuel)%nat ->
    exists ys h' m',
      mapM_copy f xs h m = Some (ys, h', m') /\ copied h0 h m h' m'
      /\ Forall2 (value_copy m') xs ys.
Proof.
intros Hf. induction xs as [|x xs IH]; intros h m Hc Hr Hu.
- exists [], h, m. split; [reflexivity|]. split; [apply copied_refl, Hc|constructor].
- destruct (Hf x h m Hc) as (y & h1 & m1 & E1 & Hcp1 & Hv1); [|exact Hu|].
  { intros r Hin. apply Hr. apply list_elem_of_singleton in Hin. subst. left. }
  destruct (IH h1 m1) as (ys & h2 & m2 & E2 & Hcp2 & Hv2).
  + apply Hcp1.
  + intros r Hin. apply Hr. right. exact Hin.
  + destruct Hcp1 as (_ & Hs & _). pose proof (unvisited_mono (length h0) _ _ Hs). lia.
  + exists (y :: ys), h2, m2. split; [simpl; rewrite E1, E2; reflexivity|].
    split; [eapply copied_trans; eassumption|].
    constructor; [|exact Hv2].
    destruct Hcp2 as (_ & Hs & _). eapply value_copy_mono; eassumption.
Qed.

Lemma deepcopy_rec_spec fuel : copies_at h0 fuel (deepcopy_rec fuel).
Proof.
induction fuel as [|fuel IH]; intros x h m Hc Hr Hu.
- destruct x; try (eexists _, _, _; split; [reflexivity|]; split;
                   [apply copied_refl, Hc|reflexivity]).
  simpl. destruct (m !! l) as [l'|] eqn:E.
  + eexists _, _, _. split; [reflexivity|]. split; [apply copied_refl, Hc|].
    exists l'. split; [exact E|reflexivity].
  + exfalso. assert (l < length h0)%nat as Hl by (apply Hr; left).
    pose proof (unvisited_insert (length h0) m l 0%nat Hl E). lia.
- destruct x; try (eexists _, _, _; split; [reflexivity|]; split;
                   [apply copied_refl, Hc|reflexivity]).
  simpl. destruct (m !! l) as [l'|] eqn:E.
  + eexists _, _, _. split; [reflexivity|]. split; [apply copied_refl, Hc|].
    exists l'. split; [exact E|reflexivity].
  + assert (l < length h0)%nat as Hl by (apply Hr; left).
    destruct Hc as (Hg & Hk & Hb & Hn).
    destruct (lookup_lt_is_Some_2 h0 l Hl) as [o Ho].
    rewrite (Hk _ _ Ho).
    destruct (mapM_copy_spec fuel _ IH (children o) (h ++ [blank o])
                (<[l := length h]> m))
      as (ys & h2 & m2 & E2 & (Hc2 & Hs2 & Hl2 & Hf2 & Hn2) & Hv2).
    { split; [rewrite length_app; simpl; lia|]. split; [|split].
      - intros i o' Hi. apply lookup_app_l_Some, Hk, Hi.
      - intros r r' Hlk. rewrite length_app. simpl.
        destruct (decide (r = l)) as [->|Hne].
        + rewrite lookup_insert_eq in Hlk. injection Hlk as <-. lia.
        + rewrite lookup_insert_ne in Hlk by congruence.
          destruct (Hb _ _ Hlk) as (? & ? & ?). lia.
      - intros i o' Hi Hge r Hin.
        apply lookup_app_Some in Hi as [Hi|[_ Hi]].
        + exact (Hn _ _ Hi Hge r Hin).
        + destruct (i - length h)%nat; [|discriminate].
          injection Hi as <-. rewrite children_blank in Hin.
          apply elem_of_nil in Hin. destruct Hin. }
    { apply (h0_closed _ _ Ho). }
    { pose proof (unvisited_insert (length h0) m l (length h) Hl E). lia. }
    rewrite E2. rewrite length_app in Hl2; simpl in Hl2.
    assert (m2 !! l = Some (length h)) as Hml.
    { eapply lookup_weaken; [|exact Hs2]. apply lookup_insert_eq. }
    eexists _, _, _. split; [reflexivity|]. split.
    * destruct Hc2 as (Hg2 & Hk2 & Hb2 & Hn2'). split; [|split; [|split; [|split]]].
      -- split; [rewrite length_insert; exact Hg2|]. split; [|split].
         ++ intros i o' Hi. rewrite list_lookup_insert_ne.
            ** apply Hk2, Hi.
            ** apply lookup_lt_Some in Hi. lia.
         ++ intros r r' Hlk. rewrite length_insert. apply Hb2, Hlk.
         ++ intros i o' Hi Hge r Hin.
            destruct (decide (i = length h)) as [->|Hne].
            ** rewrite list_lookup_insert_eq in Hi by lia. injection Hi as <-.
               apply children_rebuild in Hin.
               destruct (value_copy_refs _ _ _ _ Hv2 Hin) as (r0 & Hr0).
               destruct (Hb2 _ _ Hr0) as (_ & ? & _). assumption.
            ** rewrite list_lookup_insert_ne in Hi by congruence.
               exact (Hn2' _ _ Hi Hge r Hin).
      -- etrans; [|exact Hs2]. apply insert_subseteq, E.
      -- rewrite length_insert. lia.
      -- intros i Hi. rewrite list_lookup_insert_ne by lia.
         rewrite Hf2 by (rewrite length_app; simpl; lia).
         apply lookup_app_l, Hi.
      -- intros r r' Hlk Hm. destruct (decide (r = l)) as [->|Hne].
         ++ assert (r' = length h) as -> by congruence.
            split; [lia|]. exists o, (rebuild o ys). split; [exact Ho|].
            split; [apply list_lookup_insert_eq; lia|].
            exists ys. split; [reflexivity|exact Hv2].
         ++ destruct (Hn2 r r' Hlk) as (Hle & o1 & o1' & H1 & H2 & H3).
            { rewrite lookup_insert_ne by congruence. exact Hm. }
            rewrite length_app in Hle; simpl in Hle.
            split; [lia|]. exists o1, o1'. split; [exact H1|].
            split; [|exact H3]. rewrite list_lookup_insert_ne by lia. exact H2.
    * exists (length h). split; [exact Hml|reflexivity].
Qed.
End Deepcopy.

Lemma copying_start h : closed h -> copying h h ∅.
Proof.
intros Hc. split; [lia|]. split; [exact (fun _ _ H => H)|]. split.
- intros r r' H. rewrite lookup_empty in H. discriminate.
- intros l o Hl Hge. apply lookup_lt_Some in Hl. lia.
Qed.

Lemma copying_forget h0 h m : copying h0 h m -> copying h0 h ∅.
Proof.
intros (H1 & H2 & _ & H4). split; [exact H1|]. split; [exact H2|]. split; [|exact H4].
intros r r' H. rewrite lookup_empty in H. discriminate.
Qed.

(** [copy.deepcopy] on a heap [h] that extends a closed heap [h0]. *)
Lemma deepcopy_spec h0 h x :
  closed h0 -> copying h0 h ∅ -> refs_below (length h0) [x] ->
  exists x' h' m,
    deepcopy x h = Some (x', h') /\ copied h0 h ∅ h' m /\ value_copy m x x'.
Proof.
intros Hc Hcp Hx.
destruct (deepcopy_rec_spec h0 Hc (S (length h)) x h ∅ Hcp Hx)
  as (x' & h' & m & E & Hcd & Hv).
- rewrite unvisited_empty. destruct Hcp as (? & _). lia.
- exists x', h', m. unfold deepcopy. rewrite E. split; [reflexivity|]. split; assumption.
Qed.

(** ** The heap: [replace_variables] *)

Lemma assoc_get_set_eq {V} k (v : V) l : assoc_get k (assoc_set k v l) = Some v.
Proof.
induction l as [|[k' v'] l IH]; simpl.
- rewrite String.eqb_refl. reflexivity.
- destruct (String.eqb k k') eqn:E; simpl; rewrite E; [reflexivity|exact IH].
Qed.

Lemma assoc_get_set_ne {V} k k' (v : V) l :
  k <> k' -> assoc_get k' (assoc_set k v l) = assoc_get k' l.
Proof.
intros Hne. induction l as [|[k0 v0] l IH]; simpl.
- destruct (String.eqb_spec k' k); [congruence|reflexivity].
- destruct (String.eqb_spec k k0) as [->|]; simpl.
  + destruct (String.eqb_spec k' k0); [congruence|reflexivity].
  + destruct (String.eqb k' k0); [reflexivity|exact IH].
Qed.

Lemma assoc_set_keys {V} k (v : V) l :
  is_Some (assoc_get k l) -> map fst (assoc_set k v l) = map fst l.
Proof.
induction l as [|[k0 v0] l IH]; simpl; intros [x Hx]; [discriminate|].
destruct (String.eqb k k0); simpl; [reflexivity|].
rewrite IH; [reflexivity|]. exists x. exact Hx.
Qed.

Lemma assoc_set_values {V} k (v : V) l x :
  x ∈ map snd (assoc_set k v l) -> x = v \/ x ∈ map snd l.
Proof.
induction l as [|[k0 v0] l IH]; simpl; intros H.
- apply list_elem_of_singleton in H. left. exact H.
- destruct (String.eqb k k0); simpl in H; apply elem_of_cons in H as [->|H].
  + left. reflexivity.
  + right. right. exact H.
  + right. left.
  + destruct (IH H) as [->|H']; [left; reflexivity|right; right; exact H'].
Qed.

Lemma assoc_set_app_notin {V} k (v old : V) l1 l2 :
  k ∉ map fst l1 ->
  assoc_set k v (l1 ++ (k, old) :: l2) = l1 ++ (k, v) :: l2.
Proof.
induction l1 as [|[k0 v0] l1 IH]; simpl; intros Hn.
- rewrite String.eqb_refl. reflexivity.
- apply not_elem_of_cons in Hn as [Hne Hn].
  destruct (String.eqb_spec k k0); [congruence|]. rewrite (IH Hn). reflexivity.
Qed.

Lemma subst_items_keys f items : map fst (subst_items f items) = map fst items.
Proof. unfold subst_items. rewrite map_map. reflexivity. Qed.

Lemma with_objects_same (st : BaseExecutor.executor) :
  BaseExecutor.with_objects (BaseExecutor.objects st) st = st.
Proof. destruct st; reflexivity. Qed.

Lemma assoc_get_values {V} k (v : V) l : assoc_get k l = Some v -> v ∈ map snd l.
Proof.
induction l as [|[k0 v0] l IH]; simpl; [discriminate|].
destruct (String.eqb k k0).
- intros [= ->]. left.
- intros H. right. exact (IH H).
Qed.

Lemma copying_insert h0 h l o :
  copying h0 h ∅ -> (length h0 <= l)%nat ->
  (forall r, VRef r ∈ children o -> (length h0 <= r)%nat) ->
  copying h0 (<[l := o]> h) ∅.
Proof.
intros (H1 & H2 & H3 & H4) Hl Ho.
split; [rewrite length_insert; exact H1|]. split; [|split].
- intros i o' Hi. rewrite list_lookup_insert_ne; [exact (H2 _ _ Hi)|].
  apply lookup_lt_Some in Hi. lia.
- intros r r' H. rewrite lookup_empty in H. discriminate.
- intros i o' Hi Hge r Hin. destruct (decide (i = l)) as [->|Hne].
  + destruct (decide (l < length h)%nat) as [Hlt|Hge'].
    * rewrite list_lookup_insert_eq in Hi by exact Hlt. injection Hi as <-.
      exact (Ho r Hin).
    * rewrite list_insert_ge in Hi by lia. exact (H4 _ _ Hi Hge r Hin).
  + rewrite list_lookup_insert_ne in Hi by congruence. exact (H4 _ _ Hi Hge r Hin).
Qed.

Lemma field_copy_stable f h0 hc hc' m e v v' :
  (forall d items, hc !! d = Some (ODict items) -> hc' !! d = Some (ODict items)) ->
  field_copy f h0 hc m e v v' -> field_copy f h0 hc' m e v v'.
Proof.
intros Hs. unfold field_copy. destruct e; [|exact (fun H => H)].
destruct v; try exact (fun H => H).
destruct (h0 !! l) as [[items| |]|]; try exact (fun H => H).
intros (d' & items' & H1 & H2 & H3 & H4). exists d', items'.
split; [exact H1|]. split; [exact H2|]. split; [exact (Hs _ _ H3)|exact H4].
Qed.

(** A field that is neither a text nor a reference to a mapping is
    copied, whether it is eligible or not. *)
Lemma field_copy_inert f h0 hc m e e' v v' :
  match v with
  | VStr _ => False
  | VRef d => match h0 !! d with Some (ODict _) => False | _ => True end
  | _ => True
  end ->
  field_copy f h0 hc m e v v' -> field_copy f h0 hc m e' v v'.
Proof.
unfold field_copy. destruct v; try contradiction.
all: try (destruct e, e'; intros _; exact (fun H => H)).
destruct (h0 !! l) as [[| |]|]; try contradiction;
  destruct e, e'; intros _; exact (fun H => H).
Qed.

Lemma value_copy_item_copy f h0 h (m : memo) xs ys :
  copying h0 h m ->
  Forall2 (value_copy m) xs ys ->
  Forall2 (item_copy f (length h0)) xs (map (substituted f) ys).
Proof.
intros (_ & _ & Hb & _). induction 1 as [|x y xs ys Hv _ IH]; simpl; constructor.
- destruct x; simpl in *; subst; try reflexivity.
  destruct Hv as (r' & Hr & ->). exists r'. split; [reflexivity|].
  destruct (Hb _ _ Hr) as (_ & ? & _). assumption.
- exact IH.
Qed.

Lemma bool_decide_elem_of_snoc (name member : string) done :
  name <> member ->
  bool_decide (name ∈ done ++ [member]) = bool_decide (name ∈ done).
Proof.
intros Hne. apply bool_decide_ext. rewrite elem_of_app, list_elem_of_singleton.
tauto.
Qed.

Section ReplaceVariables.
Import BaseExecutor.
Variable substitute : gmap string pyval -> string -> string.

Local Abbreviation replace_item := (BaseExecutor.replace_item substitute).
Local Abbreviation replace_member := (BaseExecutor.replace_member substitute).
Local Abbreviation replace_variables := (BaseExecutor.replace_variables substitute).

(** [for k, v in new_cmd_member.items()]: every text of the mapping is
    substituted, in place. *)
Lemma replace_items_spec d : forall todo done st,
  objects st !! d
  = Some (ODict (subst_items (substitute (varstore st)) done ++ todo)) ->
  NoDup (map fst (done ++ todo)) ->
  for_each (replace_item d) todo st
  = (Normal tt,
     with_objects
       (<[d := ODict (subst_items (substitute (varstore st)) (done ++ todo))]>
          (objects st)) st).
Proof.
induction todo as [|[k v] rest IH]; intros done st Hd Hnd.
- simpl. unfold ret. rewrite app_nil_r in *. rewrite list_insert_id by exact Hd.
  rewrite with_objects_same. reflexivity.
- assert (k ∉ map fst (subst_items (substitute (varstore st)) done)) as Hk.
  { rewrite subst_items_keys. rewrite map_app in Hnd. simpl in Hnd.
    apply NoDup_app in Hnd as (_ & Hdis & _). intros Hin.
    apply (Hdis _ Hin). left. }
  assert (d < length (objects st))%nat as Hlt by (eapply lookup_lt_Some; exact Hd).
  assert (forall st1,
    varstore st1 = varstore st ->
    objects st1
    = <[d := ODict (subst_items (substitute (varstore st)) (done ++ [(k, v)]) ++ rest)]>
        (objects st) ->
    for_each (replace_item d) rest st1
    = (Normal tt,
       with_objects
         (<[d := ODict (subst_items (substitute (varstore st)) (done ++ (k, v) :: rest))]>
            (objects st)) st1)) as Hstep.
  { intros st1 Hvs Hobj.
    rewrite (IH (done ++ [(k, v)]) st1).
    - rewrite Hvs, Hobj, list_insert_insert_eq, <- app_assoc. reflexivity.
    - rewrite Hvs, Hobj. apply list_lookup_insert_eq. exact Hlt.
    - rewrite <- app_assoc. exact Hnd. }
  change (for_each (replace_item d) ((k, v) :: rest) st)
    with (bind (replace_item d (k, v)) (fun _ => for_each (replace_item d) rest) st).
  unfold bind at 1.
  destruct v; unfold BaseExecutor.replace_item at 1; cbn [snd fst].
  all: try (unfold ret at 1; rewrite (Hstep st eq_refl); [reflexivity|];
            symmetry; apply list_insert_id; rewrite Hd;
            unfold subst_items; rewrite map_app, <- app_assoc; reflexivity).
  unfold bind at 1. unfold varstore_substitute at 1.
  unfold dict_setitem. rewrite Hd.
  rewrite (assoc_set_app_notin _ _ _ _ _ Hk). cbv beta iota.
  match goal with |- for_each _ _ ?s = _ => rewrite (Hstep s eq_refl) end.
  + reflexivity.
  + simpl. unfold subst_items. rewrite map_app. simpl.
    rewrite <- app_assoc. reflexivity.
Qed.

(** One turn of [for member in command.list_template_vars()]. *)
Lemma replace_member_spec h0 m h1 t command attrs tv done member v st :
  closed h0 -> dicts_wf h0 ->
  h0 !! command = Some (OCommand attrs tv) ->
  (length h0 <= t)%nat -> (t < length h1)%nat ->
  assoc_get member attrs = Some v ->
  replacing (substitute (varstore st)) h0 m h1 t attrs tv done (objects st) ->
  exists hc',
    replace_member command t member st = (Normal tt, with_objects hc' st)
    /\ replacing (substitute (varstore st)) h0 m h1 t attrs tv (done ++ [member]) hc'.
Proof.
intros Hcl Hwf Hcmd Ht Ht1 Hget (Hcp & Hlen & Hfr & attrs_c & Htc & Hkeys & Hfields).
set (f := substitute (varstore st)) in *.
pose proof Hcp as (Hg & Hk & _ & Hn).
assert (objects st !! command = Some (OCommand attrs tv)) as Hcmd' by apply Hk, Hcmd.
assert (getattr command member st = (Normal v, st)) as Hga
  by (unfold getattr; rewrite Hcmd', Hget; reflexivity).
destruct (Hfields member v Hget) as (vm & Hvm & Hfm).
assert (is_Some (assoc_get member attrs_c)) as Hsome by (exists vm; exact Hvm).
assert (member ∈ done ++ [member]) as Hin
  by (apply elem_of_app; right; apply list_elem_of_singleton; reflexivity).
(* the fields of the copy after [member] was set to [vnew] *)
assert (forall hc' vnew,
  (forall d items, objects st !! d = Some (ODict items) ->
                   hc' !! d = Some (ODict items)) ->
  hc' !! t = Some (OCommand (assoc_set member vnew attrs_c) tv) ->
  field_copy f h0 hc' m true v vnew ->
  exists attrs_c',
    hc' !! t = Some (OCommand attrs_c' tv)
    /\ map fst attrs_c' = map fst attrs
    /\ forall name v0, assoc_get name attrs = Some v0 ->
         exists v', assoc_get name attrs_c' = Some v'
           /\ field_copy f h0 hc' m (bool_decide (name ∈ done ++ [member])) v0 v')
  as Hset.
{ intros hc' vnew Hst Htc' Hnew. exists (assoc_set member vnew attrs_c).
  split; [exact Htc'|]. split; [rewrite assoc_set_keys by exact Hsome; exact Hkeys|].
  intros name v0 Hn0. destruct (decide (name = member)) as [->|Hne].
  - assert (v0 = v) as -> by congruence. exists vnew.
    split; [apply assoc_get_set_eq|]. rewrite bool_decide_eq_true_2 by exact Hin.
    exact Hnew.
  - destruct (Hfields name v0 Hn0) as (v' & Hv' & Hf').
    exists v'. split; [rewrite assoc_get_set_ne by congruence; exact Hv'|].
    rewrite bool_decide_elem_of_snoc by exact Hne.
    eapply field_copy_stable; eassumption. }
(* nothing is done for a field that is neither a text nor a mapping *)
assert (match v with
        | VStr _ => False
        | VRef d => match h0 !! d with Some (ODict _) => False | _ => True end
        | _ => True
        end ->
        replacing f h0 m h1 t attrs tv (done ++ [member]) (objects st)) as Hinert.
{ intros Hv. split; [exact Hcp|]. split; [exact Hlen|]. split; [exact Hfr|].
  exists attrs_c. split; [exact Htc|]. split; [exact Hkeys|].
  intros name v0 Hn0. destruct (Hfields name v0 Hn0) as (v' & Hv' & Hf').
  exists v'. split; [exact Hv'|].
  destruct (decide (name = member)) as [->|Hne].
  - assert (v0 = v) as -> by congruence.
    eapply field_copy_inert; eassumption.
  - rewrite bool_decide_elem_of_snoc by exact Hne. exact Hf'. }
unfold BaseExecutor.replace_member.
rewrite (bind_normal _ _ _ _ _ Hga).
destruct v as [| b | z | s | e | d].
- exists (objects st). rewrite with_objects_same. split; [reflexivity|]. apply Hinert, I.
- exists (objects st). rewrite with_objects_same. split; [reflexivity|]. apply Hinert, I.
- exists (objects st). rewrite with_objects_same. split; [reflexivity|]. apply Hinert, I.
- (* a text *)
  unfold bind at 1. unfold bind at 1. unfold varstore_substitute at 1.
  unfold setattr at 1. rewrite Htc. cbv beta iota.
  unfold bind at 1. unfold as_dict at 1. unfold ret.
  eexists. split; [reflexivity|].
  assert (forall d items, objects st !! d = Some (ODict items) ->
            <[t := OCommand (assoc_set member (VStr (f s)) attrs_c) tv]> (objects st) !! d
            = Some (ODict items)) as Hst.
  { intros d0 items Hd0. rewrite list_lookup_insert_ne; [exact Hd0|]. congruence. }
  assert (t < length (objects st))%nat as Htl by (eapply lookup_lt_Some; exact Htc).
  split; [|split; [|split]].
  + apply copying_insert; [exact Hcp|exact Ht|].
    intros r Hr. apply assoc_set_values in Hr as [Hr|Hr]; [discriminate|].
    exact (Hn _ _ Htc Ht r Hr).
  + rewrite length_insert. exact Hlen.
  + intros i Hi Hne. rewrite list_lookup_insert_ne by congruence. exact (Hfr i Hi Hne).
  + apply (Hset _ (VStr (f s))); [exact Hst| |reflexivity].
    apply list_lookup_insert_eq. exact Htl.
- exists (objects st). rewrite with_objects_same. split; [reflexivity|]. apply Hinert, I.
- (* a reference *)
  assert (d < length h0)%nat as Hd.
  { apply (Hcl _ _ Hcmd). simpl. exact (assoc_get_values _ _ _ Hget). }
  destruct (lookup_lt_is_Some_2 h0 d Hd) as [od Hod].
  pose proof (Hk _ _ Hod) as Hod'.
  unfold bind at 1. unfold ret at 1.
  unfold bind at 1. unfold as_dict at 1. rewrite Hod'.
  destruct od as [items|elems|attrs' tv'].
  2,3: exists (objects st); rewrite with_objects_same; split; [reflexivity|];
       apply Hinert; rewrite Hod; exact I.
  (* a mapping *)
  destruct (deepcopy_spec h0 (objects st) (VRef d) Hcl Hcp)
    as (x' & hd & m2 & Edc & (Hcp2 & _ & Hl2 & Hf2 & Hn2) & (d' & Hm2 & ->)).
  { intros r Hr. apply list_elem_of_singleton in Hr. injection Hr as ->. exact Hd. }
  destruct (Hn2 d d' Hm2 (lookup_empty _)) as (Hd'ge & o & o' & Ho & Ho' & ys & -> & Hys).
  assert (o = ODict items) as -> by congruence. simpl in Ho', Hys.
  assert (length (map fst items) = length ys) as Hlen_ys
    by (rewrite <- (Forall2_length _ _ _ Hys), !length_map; reflexivity).
  unfold bind at 1. unfold copy_deepcopy at 1. rewrite Edc.
  unfold bind at 1. unfold as_dict at 1. simpl objects. rewrite Ho'.
  unfold bind at 1.
  rewrite (replace_items_spec d' (zip (map fst items) ys) [] (with_objects hd st)).
  2: { simpl. exact Ho'. }
  2: { simpl. rewrite fst_zip by lia. exact (Hwf _ _ Hod). }
  simpl app. simpl objects. simpl varstore. fold f.
  assert (t < length (objects st))%nat as Htl by (eapply lookup_lt_Some; exact Htc).
  assert (d' < length hd)%nat as Hd'l by (eapply lookup_lt_Some; exact Ho').
  assert (d' <> t) as Hd't by lia.
  unfold setattr.
  simpl objects.
  rewrite list_lookup_insert_ne by exact Hd't. rewrite (Hf2 t Htl), Htc.
  eexists. split; [reflexivity|].
  set (items' := subst_items f (zip (map fst items) ys)).
  assert (forall d0 its, objects st !! d0 = Some (ODict its) ->
            <[t := OCommand (assoc_set member (VRef d') attrs_c) tv]>
              (<[d' := ODict items']> hd) !! d0 = Some (ODict its)) as Hst.
  { intros d0 its Hd0. pose proof (lookup_lt_Some _ _ _ Hd0) as Hd0l.
    rewrite list_lookup_insert_ne by congruence.
    rewrite list_lookup_insert_ne by lia. rewrite Hf2 by exact Hd0l. exact Hd0. }
  assert (map snd items' = map (substituted f) ys) as Hvals.
  { unfold items', subst_items. rewrite map_map. simpl.
    rewrite <- (map_map snd (substituted f)). rewrite snd_zip by lia. reflexivity. }
  split; [|split; [|split]].
  + apply copying_insert; [apply copying_insert|exact Ht|].
    * eapply copying_forget. exact Hcp2.
    * lia.
    * simpl. rewrite Hvals. intros r Hr.
      apply list_elem_of_fmap in Hr as (y & Hy & Hr).
      destruct y; simpl in Hy; try discriminate. injection Hy as <-.
      destruct (value_copy_refs _ _ _ _ Hys Hr) as (r0 & Hr0).
      destruct Hcp2 as (_ & _ & Hb2 & _). destruct (Hb2 _ _ Hr0) as (_ & ? & _).
      assumption.
    * intros r Hr. apply assoc_set_values in Hr as [Hr|Hr].
      -- injection Hr as ->. lia.
      -- exact (Hn _ _ Htc Ht r Hr).
  + rewrite !length_insert. lia.
  + intros i Hi Hne. rewrite list_lookup_insert_ne by congruence.
    rewrite list_lookup_insert_ne by lia. rewrite Hf2 by lia. exact (Hfr i Hi Hne).
  + apply (Hset _ (VRef d')); [exact Hst| |].
    * apply list_lookup_insert_eq. rewrite length_insert. lia.
    * unfold field_copy. rewrite Hod. exists d', items'.
      split; [reflexivity|]. split; [lia|]. split.
      -- rewrite list_lookup_insert_ne by congruence.
         apply list_lookup_insert_eq. exact Hd'l.
      -- split.
         ++ unfold items'. rewrite subst_items_keys. apply fst_zip. lia.
         ++ rewrite Hvals. eapply value_copy_item_copy; eassumption.
Qed.

Lemma replace_members_spec h0 m h1 t command attrs tv :
  closed h0 -> dicts_wf h0 ->
  h0 !! command = Some (OCommand attrs tv) ->
  (length h0 <= t)%nat -> (t < length h1)%nat ->
  forall members done st,
    (forall member, member ∈ members -> is_Some (assoc_get member attrs)) ->
    replacing (substitute (varstore st)) h0 m h1 t attrs tv done (objects st) ->
    exists hc',
      for_each (replace_member command t) members st
      = (Normal tt, with_objects hc' st)
      /\ replacing (substitute (varstore st)) h0 m h1 t attrs tv (done ++ members) hc'.
Proof.
intros Hcl Hwf Hcmd Ht Ht1.
induction members as [|member members IH]; intros done st Hex Hinv.
- exists (objects st). rewrite with_objects_same, app_nil_r.
  split; [reflexivity|exact Hinv].
- destruct (Hex member) as [v Hv]; [left|].
  destruct (replace_member_spec h0 m h1 t command attrs tv done member v st
              Hcl Hwf Hcmd Ht Ht1 Hv Hinv) as (hc1 & E1 & Hinv1).
  destruct (IH (done ++ [member]) (with_objects hc1 st)) as (hc2 & E2 & Hinv2).
  + intros x Hx. apply Hex. right. exact Hx.
  + exact Hinv1.
  + exists hc2. split.
    * change (for_each (replace_member command t) (member :: members) st)
        with (bind (replace_member command t member)
                (fun _ => for_each (replace_member command t) members) st).
      rewrite (bind_normal _ _ _ _ _ E1), E2. reflexivity.
    * rewrite <- app_assoc in Hinv2. exact Hinv2.
Qed.

Lemma assoc_get_zip {V W} (R : V -> W -> Prop) name (l : list (string * V)) ys v :
  Forall2 R (map snd l) ys ->
  assoc_get name l = Some v ->
  exists v', assoc_get name (zip (map fst l) ys) = Some v' /\ R v v'.
Proof.
revert ys. induction l as [|[k x] l IH]; intros ys Hf Hg; [discriminate|].
simpl in Hf. apply Forall2_cons_inv_l in Hf as (y & ys' & Hxy & Hf & ->).
simpl in *. destruct (String.eqb name k).
- injection Hg as ->. exists y. split; [reflexivity|exact Hxy].
- exact (IH _ Hf Hg).
Qed.

(** C3.  On a closed heap [replace_variables] returns the location [t] of
    a new descriptor and changes no object of the heap it was given: the
    descriptor [command], its mappings and everything else are what they
    were.  The copy is independent: [t] and every location reached from
    it are new.  Field by field, an eligible text is substituted, an
    eligible mapping is a new mapping with the same keys whose texts are
    substituted, and any other field is the deep copy of the original,
    which for an atom is the atom itself. *)
Theorem replace_variables_copies command attrs tv st :
  closed (objects st) -> dicts_wf (objects st) ->
  objects st !! command = Some (OCommand attrs tv) ->
  (forall member, member ∈ tv -> is_Some (assoc_get member attrs)) ->
  exists t h' (m : memo),
    replace_variables command st = (Normal t, with_objects h' st)
    /\ (forall l o, objects st !! l = Some o -> h' !! l = Some o)
    /\ (length (objects st) <= t)%nat /\ m !! command = Some t
    /\ (forall l o, h' !! l = Some o -> (length (objects st) <= l)%nat ->
          forall r, VRef r ∈ children o -> (length (objects st) <= r)%nat)
    /\ (exists attrs',
          h' !! t = Some (OCommand attrs' tv)
          /\ map fst attrs' = map fst attrs
          /\ forall name v, assoc_get name attrs = Some v ->
               exists v', assoc_get name attrs' = Some v'
                 /\ field_copy (substitute (varstore st)) (objects st) h' m
                      (bool_decide (name ∈ tv)) v v')
    /\ (forall r r', m !! r = Some r' ->
          (length (objects st) <= r')%nat
          /\ (r' <> t ->
              exists o o', objects st !! r = Some o /\ h' !! r' = Some o'
                           /\ obj_copy m o o')).
Proof.
intros Hcl Hwf Hcmd Htv. set (h := objects st) in *.
assert (command < length h)%nat as Hc by (eapply lookup_lt_Some; exact Hcmd).
destruct (deepcopy_spec h h (VRef command) Hcl (copying_start h Hcl))
  as (x' & h1 & m & Edc & (Hcp1 & _ & Hl1 & Hf1 & Hn1) & (t & Hmt & ->)).
{ intros r Hr. apply list_elem_of_singleton in Hr. injection Hr as ->. exact Hc. }
destruct (Hn1 command t Hmt (lookup_empty _))
  as (Htge & o & o' & Ho & Ho' & ys & -> & Hys).
assert (o = OCommand attrs tv) as -> by congruence. simpl in Ho', Hys.
assert (length (map fst attrs) = length ys) as Hlen_ys
  by (rewrite <- (Forall2_length _ _ _ Hys), !length_map; reflexivity).
assert (t < length h1)%nat as Htl by (eapply lookup_lt_Some; exact Ho').
assert (h1 !! command = Some (OCommand attrs tv)) as Hcmd1
  by (rewrite Hf1 by exact Hc; exact Hcmd).
destruct (replace_members_spec h m h1 t command attrs tv Hcl Hwf Hcmd Htge Htl
            tv [] (with_objects h1 st) Htv)
  as (h' & Eloop & Hcp' & Hlen' & Hfr' & attrs' & Ht' & Hkeys' & Hfields').
{ split; [eapply copying_forget; exact Hcp1|]. split; [simpl; lia|].
  split; [reflexivity|].
  exists (zip (map fst attrs) ys). split; [exact Ho'|].
  split; [apply fst_zip; lia|].
  intros name v Hv.
  destruct (assoc_get_zip (value_copy m) name attrs ys v Hys Hv) as (v' & Hv' & Hvc).
  exists v'. split; [exact Hv'|]. exact Hvc. }
exists t, h', m. split; [|split; [|split; [|split; [|split; [|split]]]]].
- unfold BaseExecutor.replace_variables.
  unfold bind at 1. unfold copy_deepcopy at 1. fold h. rewrite Edc.
  unfold bind at 1. unfold list_template_vars at 1. simpl objects. rewrite Hcmd1.
  unfold bind at 1. rewrite Eloop. reflexivity.
- destruct Hcp' as (_ & Hk & _). exact Hk.
- exact Htge.
- exact Hmt.
- destruct Hcp' as (_ & _ & _ & Hn). exact Hn.
- exists attrs'. split; [exact Ht'|]. split; [exact Hkeys'|]. exact Hfields'.
- intros r r' Hr. destruct (Hn1 r r' Hr (lookup_empty _)) as (Hge & o1 & o1' & H1 & H2 & H3).
  split; [exact Hge|]. intros Hne. exists o1, o1'. split; [exact H1|].
  split; [|exact H3]. rewrite Hfr'; [exact H2| |exact Hne].
  eapply lookup_lt_Some. exact H2.
Qed.
End ReplaceVariables.

(** ** The claim about [replace_variables], at a concrete input *)

Section CopyScenarios.
Import Examples.
Import BaseExecutor.

(** The run of [replace_variables] on [module_heap]: the descriptor and its
    mapping are what they were, the copy at location 2 holds the
    substituted text and refers to the substituted mapping at location 4
    (location 3 holds the mapping that [deepcopy] made with the
    descriptor). *)
Lemma replace_variables_on_module_heap :
  replace_variables substitute_whole 1%nat module_executor
  = (Normal 2%nat,
     with_objects
       (module_heap ++
        [OCommand [("cmd", VStr "whoami"); ("options", VRef 4%nat);
                   ("note", VStr "$CMD"); ("exit_on_error", VBool true)]
           ["cmd"; "options"];
         ODict [("RHOSTS", VStr "$TARGET"); ("RPORT", VInt 445)];
         ODict [("RHOSTS", VStr "10.0.0.1"); ("RPORT", VInt 445)]])
       module_executor).
Proof. vm_compute. reflexivity. Qed.

Lemma module_heap_closed : closed module_heap.
Proof.
intros l o Hl r Hr.
destruct l as [|[|l]]; simpl in Hl; try discriminate; injection Hl as <-;
  simpl in Hr;
  repeat (apply elem_of_cons in Hr as [Hr|Hr];
          [try discriminate Hr; injection Hr as ->; simpl; lia|]);
  apply elem_of_nil in Hr; destruct Hr.
Defined.

Lemma module_heap_dicts_wf : dicts_wf module_heap.
Proof.
intros d items Hd.
destruct d as [|[|d]]; simpl in Hd; try discriminate; injection Hd as <-.
simpl. apply NoDup_cons. split.
- intros H. apply list_elem_of_singleton in H. discriminate H.
- apply NoDup_singleton.
Defined.

Lemma replace_variables_copies_witness :
  exists t h' (m : memo),
    replace_variables substitute_whole 1%nat module_executor
    = (Normal t, with_objects h' module_executor)
    /\ (forall l o, module_heap !! l = Some o -> h' !! l = Some o)
    /\ (length module_heap <= t)%nat /\ m !! 1%nat = Some t
    /\ (forall l o, h' !! l = Some o -> (length module_heap <= l)%nat ->
          forall r, VRef r ∈ children o -> (length module_heap <= r)%nat)
    /\ (exists attrs',
          h' !! t = Some (OCommand attrs' ["cmd"; "options"])
          /\ map fst attrs' = ["cmd"; "options"; "note"; "exit_on_error"]
          /\ forall name v,
               assoc_get name
                 [("cmd", VStr "$CMD"); ("options", VRef 0%nat);
                  ("note", VStr "$CMD"); ("exit_on_error", VBool true)]
               = Some v ->
               exists v', assoc_get name attrs' = Some v'
                 /\ field_copy (substitute_whole (varstore module_executor))
                      module_heap h' m
                      (bool_decide (name ∈ ["cmd"; "options"])) v v')
    /\ (forall r r', m !! r = Some r' ->
          (length module_heap <= r')%nat
          /\ (r' <> t ->
              exists o o', module_heap !! r = Some o /\ h' !! r' = Some o'
                           /\ obj_copy m o o')).
Proof.
apply (replace_variables_copies substitute_whole 1%nat
         [("cmd", VStr "$CMD"); ("options", VRef 0%nat);
          ("note", VStr "$CMD"); ("exit_on_error", VBool true)]
         ["cmd"; "options"] module_executor).
- exact module_heap_closed.
- exact module_heap_dicts_wf.
- reflexivity.
- intros member Hm.
  apply elem_of_cons in Hm as [->|Hm]; [eexists; reflexivity|].
  apply list_elem_of_singleton in Hm as ->. eexists. reflexivity.
Defined.
End CopyScenarios.

(** * Further properties of the engine *)

Section EngineProperties.
Import BaseExecutor.
Variable re_valid : string -> bool.
Variable re_match : string -> string -> option string.
Variable _exec_cmd : nat -> BaseCommand -> outcome Result.
Variable fs_open : string -> option string.
Variable str_command : BaseCommand -> string.
Variable recursion_limit : nat.

Local Abbreviation exec :=
  (BaseExecutor.exec re_valid re_match _exec_cmd fs_open str_command
     recursion_limit).
Local Abbreviation exec_rec :=
  (BaseExecutor.exec_rec re_valid re_match _exec_cmd fs_open str_command).
Local Abbreviation exec_body :=
  (BaseExecutor.exec_body re_valid re_match _exec_cmd fs_open str_command).
Local Abbreviation attempt := (BaseExecutor.attempt _exec_cmd str_command).
Local Abbreviation save_output := (BaseExecutor.save_output fs_open).

Lemma decimal_value_nonneg s : forall acc,
  0 <= acc -> all_chars is_decimal_char s = true -> 0 <= decimal_value acc s.
Proof.
induction s as [|c s IH]; intros acc Hacc Hd; simpl; [exact Hacc|].
simpl in Hd. apply andb_true_iff in Hd as [Hc Hs]. apply IH; [|exact Hs].
unfold is_decimal_char in Hc. apply andb_true_iff in Hc as [Hlo _].
apply N.leb_le in Hlo. lia.
Qed.

Lemma all_decimal_numeric s :
  all_chars is_decimal_char s = true -> all_chars is_numeric_char s = true.
Proof.
induction s as [|c s IH]; simpl; [reflexivity|]. intros H.
apply andb_true_iff in H as [Hc Hs]. rewrite (IH Hs), andb_true_r.
unfold is_numeric_char. rewrite Hc. reflexivity.
Qed.

(** X1.  [variable_to_int] returns an integer exactly for a text of one to
    4300 decimal digits, leading zeros included; the integer is the decimal
    value of the text and is never negative.  A sign, a blank or the empty
    text never yield an integer. *)
Theorem variable_to_int_returns_decimal_value name value n :
  variable_to_int name value = Normal n <->
  (value <> "" /\ all_chars is_decimal_char value = true
   /\ (String.length value <= int_max_str_digits)%nat
   /\ n = decimal_value 0 value /\ 0 <= n).
Proof.
unfold variable_to_int, py_int. split.
- destruct (isnumeric value) eqn:Hn; [|discriminate].
  destruct (all_chars is_decimal_char value) eqn:Hd; simpl; [|discriminate].
  destruct (Nat.leb_spec (String.length value) int_max_str_digits); [|discriminate].
  intros [= <-]. split; [|split; [reflexivity|split; [assumption|split; [reflexivity|]]]].
  + intros ->. discriminate Hn.
  + apply decimal_value_nonneg; [lia|exact Hd].
- intros (Hne & Hd & Hlen & -> & _).
  assert (isnumeric value = true) as ->.
  { destruct value; [contradiction|]. simpl. apply (all_decimal_numeric (String a value)), Hd. }
  rewrite Hd. simpl.
  destruct (Nat.leb_spec (String.length value) int_max_str_digits); [reflexivity|lia].
Qed.


Lemma loop_if_not_quiet rec command text result st :
  stdout result = VStr text ->
  (forall q, schemas.loop_if_not command = Some q ->
     re_valid q = true /\ is_Some (re_match q text)) ->
  BaseExecutor.loop_if_not re_valid re_match rec command result st
  = (Normal tt, with_trace (loop_if_not_quiet_events command text ++ trace st) st).
Proof.
intros Hs Hp. unfold BaseExecutor.loop_if_not, loop_if_not_quiet_events.
destruct st as [vs cfg rc h a tr].
destruct (schemas.loop_if_not command) as [q|]; [|reflexivity].
destruct (Hp q eq_refl) as [Hv [g Hm]].
unfold BaseExecutor.re_search, bind, emit. simpl.
rewrite Hv, Hs. unfold ret. rewrite Hm. reflexivity.
Qed.

(** X3.  A result that no step objects to: [exec] returns after one attempt,
    and the variable store holds the output under [RESULT_STDOUT] and the
    status, as a text, under [RESULT_RETURNCODE].  This includes a failing
    status when [exit_on_error] is not set.  Nothing slept and the run
    counter is what it was. *)
Theorem exec_publishes_result command st result text :
  attempt_result (_exec_cmd (attempts st) command) = Some result ->
  stdout result = VStr text ->
  not_fatal command result ->
  passes_errors re_valid re_match command text ->
  loop_quiet re_valid re_match command text ->
  exists st',
    exec command st = (Normal tt, st')
    /\ varstore st' !! "RESULT_STDOUT" = Some (VStr text)
    /\ varstore st' !! "RESULT_RETURNCODE" = Some (VStr (str_returncode result))
    /\ (forall name, name <> "RESULT_STDOUT" -> name <> "RESULT_RETURNCODE" ->
          varstore st' !! name = varstore st !! name)
    /\ attempts st' = S (attempts st)
    /\ run_count st' = run_count st
    /\ count is_sleep (trace st') = count is_sleep (trace st)
    /\ count is_exec_cmd (trace st') = S (count is_exec_cmd (trace st)).
Proof.
intros Ha Hs Hnf Hpe [Hl Hln].
destruct (exec_unfold re_valid re_match _exec_cmd fs_open str_command
            recursion_limit command st)
  as [d ->].
rewrite (exec_body_classified _ _ _ _ _ _ _ _ _ _ Ha Hs Hnf Hpe).
rewrite (bind_normal _ _ _ _ _ (loop_if_quiet _ _ _ _ _ _ _ Hs Hl)).
rewrite (loop_if_not_quiet _ _ _ _ _ Hs Hln).
eexists. split; [reflexivity|]. simpl. unfold set_variable_in.
split; [|split; [|split]].
- rewrite lookup_insert_ne by discriminate. rewrite Hs. apply lookup_insert_eq.
- apply lookup_insert_eq.
- intros name H1 H2. rewrite !lookup_insert_ne by congruence. reflexivity.
- assert (forall p, (forall a b, p (ESearch a b) = false) ->
            (forall a, p (ELog Debug a) = false) ->
            count p (loop_if_not_quiet_events command text) = O
            /\ count p (loop_if_quiet_events command text) = O) as Hq.
  { intros p H1 H2. unfold loop_if_not_quiet_events, loop_if_quiet_events.
    destruct (schemas.loop_if_not command), (schemas.loop_if command); simpl;
      rewrite ?H1, ?H2; split; reflexivity. }
  rewrite !count_app.
  destruct (Hq is_sleep) as [-> ->]; try reflexivity.
  destruct (Hq is_exec_cmd) as [-> ->]; try reflexivity.
  rewrite !(count_search_events) by reflexivity.
  rewrite !(count_save_events fs_open) by reflexivity. simpl.
  repeat split; reflexivity.
Qed.

(** X4.  Only [ExecException] is recovered.  Any other exception of the
    primitive leaves [exec] as it is, right after the attempt: no variable
    is published, nothing is saved and no predicate is evaluated. *)
Theorem exec_propagates_other_exceptions command st e :
  _exec_cmd (attempts st) command = Raise e ->
  (forall payload, e <> ExecException payload) ->
  exec command st = (Raise e, attempted str_command command st)
  /\ varstore (attempted str_command command st) = varstore st.
Proof.
intros He Hne.
destruct (exec_unfold re_valid re_match _exec_cmd fs_open str_command
            recursion_limit command st)
  as [d ->].
split; [|reflexivity]. unfold BaseExecutor.exec_body.
apply bind_raise.
unfold BaseExecutor.attempt, try_except_ExecException, bind, log_command,
  logger_info, emit, call_exec_cmd, attempted. simpl. rewrite He.
destruct e; try reflexivity. exfalso. exact (Hne payload eq_refl).
Qed.

(** X5.  When [error_if_not] finds nothing in the output, [exec] exits with
    status 1 before any loop predicate: no run was asked for, nothing
    slept, and the last thing done is the report of [error_if_not]. *)
Theorem error_if_not_unmatched_exits command st result text p :
  attempt_result (_exec_cmd (attempts st) command) = Some result ->
  stdout result = VStr text ->
  not_fatal command result ->
  (forall q, schemas.error_if command = Some q ->
     re_valid q = true /\ re_match q text = None) ->
  schemas.error_if_not command = Some p -> re_valid p = true ->
  re_match p text = None ->
  exists st',
    exec command st = (Raise (SystemExit 1), st')
    /\ head (trace st')
       = Some (ELog Error "Exitting because error_if_not does not match")
    /\ attempts st' = S (attempts st)
    /\ run_count st' = run_count st
    /\ count is_rerun (trace st') = count is_rerun (trace st)
    /\ count is_sleep (trace st') = count is_sleep (trace st).
Proof.
intros Ha Hs Hnf He Hp Hv Hm.
destruct (exec_unfold re_valid re_match _exec_cmd fs_open str_command
            recursion_limit command st)
  as [d ->].
rewrite (exec_body_published _ _ _ _ _ _ _ _ _ Ha (not_fatal_check _ _ Hnf)).
rewrite (bind_normal _ _ _ _ _ (error_if_passes _ _ _ _ _ _ Hs He)).
apply (f_equal (fun o => o)) in Hp.
assert (BaseExecutor.error_if_not re_valid re_match command result
          (with_trace (search_events (schemas.error_if command) (stdout result)
                       ++ trace (published fs_open command result
                                   (attempted str_command command st)))
             (published fs_open command result (attempted str_command command st)))
        = (Raise (SystemExit 1),
           with_trace
             (ELog Error "Exitting because error_if_not does not match"
              :: ESearch p (VStr text)
              :: search_events (schemas.error_if command) (stdout result)
              ++ trace (published fs_open command result
                          (attempted str_command command st)))
             (published fs_open command result (attempted str_command command st))))
  as Hen.
{ unfold BaseExecutor.error_if_not. rewrite Hp.
  unfold BaseExecutor.re_search, bind, emit. simpl.
  rewrite Hv, Hs. unfold ret. rewrite Hm. reflexivity. }
rewrite (bind_raise _ _ _ _ _ Hen).
eexists. split; [reflexivity|]. simpl.
rewrite !count_app, !count_search_events, !(count_save_events fs_open) by reflexivity.
simpl. repeat split; reflexivity.
Qed.
(** Whichever loop predicate asks, attempts go on until the run counter
    reaches the limit. *)
Lemma rerun_until_exhausted command limit cfg :
  variable_to_int "loop_count" (loop_count command) = Normal limit ->
  0 <= loop_sleep cfg ->
  forall (j d : nat) st,
    (j <= d)%nat ->
    cmdconfig st = Some cfg ->
    j = Z.to_nat (limit - run_count st) ->
    (forall i, (i <= j)%nat ->
       asks_rerun re_valid re_match command (_exec_cmd (attempts st + i) command)) ->
    exists st',
      exec_rec (S d) command st = (Raise (SystemExit 1), st')
      /\ attempts st' = (attempts st + S j)%nat
      /\ count is_exec_cmd (trace st') = (count is_exec_cmd (trace st) + S j)%nat
      /\ count is_sleep (trace st') = (count is_sleep (trace st) + j)%nat
      /\ count is_rerun (trace st') = (count is_rerun (trace st) + S j)%nat
      /\ head (trace st') = Some (ELog Error "Exitting because loop_count exceeded").
Proof.
intros Hl Hsl. induction j as [|j IH]; intros d st Hd Hcfg Hj Hloops.
- destruct (Hloops O (Nat.le_refl _)) as (result & text & Ha & Hs & Hnf & Hpe & Htr).
  rewrite Nat.add_0_r in Ha.
  destruct (exec_body_exhausted re_valid re_match _exec_cmd fs_open str_command
              (exec_rec d) _ _ _ _ limit Ha Hs Hnf Hpe Htr Hl ltac:(lia))
    as (s & He & Hd1 & Hd2 & Hd3 & Hd4 & Hd5 & Hd6 & Hd7).
  eexists. split; [exact He|]. simpl. rewrite Hd1, Hd5, Hd6, Hd7.
  repeat split; lia.
- destruct d as [|d]; [lia|].
  destruct (Hloops O ltac:(lia)) as (result & text & Ha & Hs & Hnf & Hpe & Htr).
  rewrite Nat.add_0_r in Ha.
  destruct (exec_body_decision re_valid re_match _exec_cmd fs_open str_command
              (exec_rec (S d)) _ _ _ _ Ha Hs Hnf Hpe Htr)
    as (s & k & He & Hd1 & Hd2 & Hd3 & Hd4 & Hd5 & Hd6 & Hd7).
  assert (run_count s < limit) as Hlt by lia.
  rewrite Hcfg in Hd3.
  pose proof (rerun_again (exec_rec (S d)) _ _ _ _ Hl Hlt Hd3 Hsl) as Hr.
  destruct (IH d (with_trace (ESleep (loop_sleep cfg) :: trace s)
                    (with_run_count (run_count s + 1) s)))
    as (st' & He' & H1 & H2 & H3 & H4 & H5).
  + lia.
  + exact Hd3.
  + simpl. lia.
  + intros i Hi. simpl. rewrite Hd1.
    replace (S (attempts st) + i)%nat with (attempts st + S i)%nat by lia.
    apply Hloops. lia.
  + exists st'. split.
    * change (exec_rec (S (S d)) command st)
        with (exec_body (exec_rec (S d)) command st).
      rewrite He. apply bind_raise. rewrite Hr. exact He'.
    * simpl in H1, H2, H3, H4. rewrite H1, H2, H3, H4, H5, Hd1, Hd5, Hd6, Hd7.
      repeat split; lia.
Qed.

(** X6.  The retry bound of [loop_if_not], and of both loop predicates mixed:
    when after every attempt one of them asks for another run, and
    [loop_count] resolves to [n >= 1] with [n - 1] no more than the retries
    that the call stack has room for, [run] makes exactly [n] attempts
    with [n - 1] sleeps in between and exits with status 1 at the [n]-th
    retry decision. *)
Theorem loop_predicates_retry_bound substitute command st c s (n : nat) cfg :
  runs_as substitute command st c s ->
  variable_to_int "loop_count" (loop_count c) = Normal (Z.of_nat n) ->
  (1 <= n)%nat -> (n <= S recursion_limit)%nat ->
  cmdconfig st = Some cfg -> 0 <= loop_sleep cfg ->
  (forall i, (i < n)%nat ->
     asks_rerun re_valid re_match c (_exec_cmd (attempts st + i) c)) ->
  exists st',
    run substitute re_valid re_match _exec_cmd fs_open str_command
      recursion_limit command st
    = (Raise (SystemExit 1), st')
    /\ attempts st' = (attempts st + n)%nat
    /\ count is_rerun (trace st') = (count is_rerun (trace st) + n)%nat
    /\ count is_sleep (trace st') = (count is_sleep (trace st) + (n - 1))%nat
    /\ head (trace st') = Some (ELog Error "Exitting because loop_count exceeded").
Proof.
intros Hr Hl Hn Hroom Hcfg Hsl Hloops.
rewrite (runs_as_exec re_valid re_match _exec_cmd fs_open str_command
           recursion_limit _ _ _ _ _ Hr).
destruct (runs_as_frame _ _ _ _ _ Hr) as (Hrc & Ha & Hc & _ & template & Htr).
unfold BaseExecutor.exec.
destruct (rerun_until_exhausted c (Z.of_nat n) cfg Hl Hsl
            (Z.to_nat (Z.of_nat n - 1)) recursion_limit s)
  as (st' & He & H1 & H2 & H3 & H4 & H5).
- lia.
- congruence.
- rewrite Hrc. reflexivity.
- intros i Hi. rewrite Ha. apply Hloops. lia.
- exists st'. split; [exact He|].
  rewrite H1, H3, H4, H5, Ha, Htr. simpl.
  repeat split; lia.
Qed.



(** X9.  [replace_variables] works on the heap alone: whatever it returns or
    raises, the variable store, the run counter, the configuration, the
    number of attempts and the trace are what they were. *)
Theorem replace_variables_touches_heap_only substitute command st o st' :
  replace_variables substitute command st = (o, st') ->
  varstore st' = varstore st /\ run_count st' = run_count st
  /\ cmdconfig st' = cmdconfig st /\ attempts st' = attempts st
  /\ trace st' = trace st.
Proof.
intros H. apply only_objects_replace_variables in H. rewrite H.
repeat split.
Qed.
(** *** What [exec] keeps *)

Lemma advances_refl command st : advances command st st.
Proof.
unfold advances. repeat split; try lia.
- exists []. reflexivity.
- destruct (variable_to_int _ _); [lia|reflexivity|reflexivity].
Qed.

Lemma advances_trans command st1 st2 st3 :
  advances command st1 st2 -> advances command st2 st3 -> advances command st1 st3.
Proof.
unfold advances.
intros (H1 & H2 & H3 & H4 & [n1 H5] & H6) (K1 & K2 & K3 & K4 & [n2 K5] & K6).
split; [congruence|]. split; [congruence|]. split; [lia|]. split; [lia|].
split; [exists (n2 ++ n1); rewrite K5, H5, app_assoc; reflexivity|].
destruct (variable_to_int _ _); [lia|congruence|congruence].
Qed.

Lemma advancing_bind {A B} command (m : M executor A) (k : A -> M executor B) :
  advancing command m -> (forall a, advancing command (k a)) ->
  advancing command (bind m k).
Proof.
intros Hm Hk st o st'. unfold bind.
destruct (m st) as [[a|e|] s1] eqn:E; intros H.
- eapply advances_trans; [exact (Hm _ _ _ E)|exact (Hk a _ _ _ H)].
- injection H as <- <-. exact (Hm _ _ _ E).
- injection H as <- <-. exact (Hm _ _ _ E).
Qed.

Lemma advancing_still {A} command (f : executor -> outcome A) :
  advancing command (fun st => (f st, st)).
Proof. intros st o st' [= <- <-]. apply advances_refl. Qed.

Lemma advances_emit command st tr vs n :
  (attempts st <= n)%nat ->
  advances command st
    (with_trace (tr ++ trace st) (with_attempts n (with_varstore vs st))).
Proof.
intros Hn. unfold advances. simpl. repeat split; try lia.
- exists tr. reflexivity.
- destruct (variable_to_int _ _); [lia|reflexivity|reflexivity].
Qed.

Lemma advancing_emit command e : advancing command (emit e).
Proof.
intros st o st' [= <- <-].
exact (advances_emit command st [e] (varstore st) (attempts st) (Nat.le_refl _)).
Qed.

Lemma advancing_set_variable command name value :
  advancing command (set_variable name value).
Proof.
intros st o st' [= <- <-].
exact (advances_emit command st [ESetVariable name value] _ (attempts st)
         (Nat.le_refl _)).
Qed.

Lemma advancing_re_search command pattern text :
  advancing command (BaseExecutor.re_search re_valid re_match pattern text).
Proof.
unfold BaseExecutor.re_search.
apply advancing_bind; [apply advancing_emit|]. intros _.
destruct (re_valid pattern); [|apply (advancing_still command (fun _ => Raise ReError))].
destruct text;
  first [apply (advancing_still command (fun _ => Raise TypeError))
        |apply (advancing_still command (fun _ => Normal (re_match pattern s)))].
Qed.

Lemma advancing_attempt command c : advancing command (attempt c).
Proof.
intros st o st'.
unfold BaseExecutor.attempt, try_except_ExecException, bind, log_command,
  logger_info, emit, call_exec_cmd. simpl.
assert (advances command st
          (with_trace (EExecCmd c :: trace (with_trace
             (ELog Info ("Executing '" +:+ str_command c +:+ "'") :: trace st) st))
             (with_attempts (S (attempts st)) (with_trace
               (ELog Info ("Executing '" +:+ str_command c +:+ "'") :: trace st) st))))
  as Hadv.
{ exact (advances_emit command st
           [EExecCmd c; ELog Info ("Executing '" +:+ str_command c +:+ "'")]
           (varstore st) (S (attempts st)) (Nat.le_succ_diag_r _)). }
destruct (_exec_cmd (attempts st) c) as [r|e|]; [|destruct e|];
  intros [= <- <-]; exact Hadv.
Qed.

Lemma advancing_rerun command rec :
  advancing command (rec command) -> advancing command (rerun rec command).
Proof.
intros Hrec st o st'. unfold rerun, bind, get_run_count, lift.
destruct (variable_to_int "loop_count" (loop_count command)) as [limit|e|] eqn:Hl;
  try (intros [= <- <-]; apply advances_refl).
destruct (Z.ltb_spec (run_count st) limit) as [Hlt|Hge].
- unfold set_run_count, cmdconfig_loop_sleep, time_sleep. simpl.
  assert (forall tr, advances command st
            (with_trace (tr ++ trace st) (with_run_count (run_count st + 1) st)))
    as Hstep.
  { intros tr. unfold advances. simpl. rewrite Hl.
    repeat split; try lia. exists tr. reflexivity. }
  destruct (cmdconfig st) as [cfg|];
    [|intros [= <- <-]; exact (Hstep [])].
  destruct (loop_sleep cfg <? 0).
  + intros [= <- <-]. exact (Hstep []).
  + unfold emit. simpl. intros H.
    eapply advances_trans; [exact (Hstep [ESleep (loop_sleep cfg)])|].
    exact (Hrec _ _ _ H).
- unfold logger_error, emit, exit, raise. simpl. intros [= <- <-].
  exact (advances_emit command st [ELog Error "Exitting because loop_count exceeded"]
           (varstore st) (attempts st) (Nat.le_refl _)).
Qed.

Lemma advancing_exec_rec command d : advancing command (exec_rec d command).
Proof.
induction d as [|d IH].
- apply (advancing_still command (fun _ => Raise RecursionError)).
- simpl. unfold BaseExecutor.exec_body.
  apply advancing_bind; [apply advancing_attempt|]. intros result.
  apply advancing_bind.
  { destruct (returncode_ne_0 result && exit_on_error command).
    - apply advancing_bind; [apply advancing_emit|]. intros _.
      apply advancing_bind; [apply advancing_emit|]. intros _.
      apply (advancing_still command (fun _ => Raise (SystemExit 1))).
    - apply (advancing_still command (fun _ => Normal tt)). }
  intros _. apply advancing_bind; [apply advancing_set_variable|]. intros _.
  apply advancing_bind; [apply advancing_set_variable|]. intros _.
  apply advancing_bind; [apply advancing_emit|]. intros _.
  apply advancing_bind.
  { intros st o st' H. rewrite save_output_spec in H. injection H as <- <-.
    exact (advances_emit command st _ (varstore st) (attempts st) (Nat.le_refl _)). }
  intros _. apply advancing_bind.
  { unfold BaseExecutor.error_if.
    destruct (schemas.error_if command);
      [|apply (advancing_still command (fun _ => Normal tt))].
    apply advancing_bind; [apply advancing_re_search|].
    intros [g|]; [|apply (advancing_still command (fun _ => Normal tt))].
    apply advancing_bind; [apply advancing_emit|]. intros _.
    apply (advancing_still command (fun _ => Raise (SystemExit 1))). }
  intros _. apply advancing_bind.
  { unfold BaseExecutor.error_if_not.
    destruct (schemas.error_if_not command);
      [|apply (advancing_still command (fun _ => Normal tt))].
    apply advancing_bind; [apply advancing_re_search|].
    intros [g|]; [apply (advancing_still command (fun _ => Normal tt))|].
    apply advancing_bind; [apply advancing_emit|]. intros _.
    apply (advancing_still command (fun _ => Raise (SystemExit 1))). }
  intros _. apply advancing_bind.
  { unfold BaseExecutor.loop_if.
    destruct (schemas.loop_if command);
      [|apply (advancing_still command (fun _ => Normal tt))].
    apply advancing_bind; [apply advancing_re_search|].
    intros [g|]; [|apply advancing_emit].
    apply advancing_bind; [apply advancing_emit|]. intros _.
    apply advancing_rerun, IH. }
  intros _. unfold BaseExecutor.loop_if_not.
  destruct (schemas.loop_if_not command);
    [|apply (advancing_still command (fun _ => Normal tt))].
  apply advancing_bind; [apply advancing_re_search|].
  intros [g|]; [apply advancing_emit|].
  apply advancing_bind; [apply advancing_emit|]. intros _.
  apply advancing_rerun, IH.
Qed.

(** X7.  Whatever the primitive does and however [exec] ends, it leaves the
    heap and the configuration alone, never lowers the run counter or the
    number of attempts, and only adds to the trace.  The run counter never
    passes [loop_count]: at the end it is at most the larger of its start
    and the limit, and with a [loop_count] that is not numeric it has not
    moved. *)
Theorem exec_keeps_run_counter_bounded command st o st' :
  exec command st = (o, st') ->
  objects st' = objects st /\ cmdconfig st' = cmdconfig st
  /\ (attempts st <= attempts st')%nat
  /\ run_count st <= run_count st'
  /\ (exists new, trace st' = new ++ trace st)
  /\ (forall limit,
        variable_to_int "loop_count" (loop_count command) = Normal limit ->
        run_count st' <= Z.max (run_count st) limit)
  /\ ((forall limit,
         variable_to_int "loop_count" (loop_count command) <> Normal limit) ->
      run_count st' = run_count st).
Proof.
intros H. unfold BaseExecutor.exec in H. apply advancing_exec_rec in H.
destruct H as (H1 & H2 & H3 & H4 & H5 & H6).
split; [exact H1|]. split; [exact H2|]. split; [exact H3|]. split; [exact H4|].
split; [exact H5|]. split.
- intros limit Hl. rewrite Hl in H6. exact H6.
- intros Hn. destruct (variable_to_int _ _) as [l|e|]; [|exact H6|exact H6].
  exfalso. exact (Hn l eq_refl).
Qed.
End EngineProperties.

(** * The primitive of the base class *)

Section BasePrimitive.
Import BaseExecutor.
Variable re_valid : string -> bool.
Variable re_match : string -> string -> option string.
Variable fs_open : string -> option string.
Variable str_command : BaseCommand -> string.
Variable recursion_limit : nat.

Local Abbreviation exec :=
  (BaseExecutor.exec re_valid re_match Base._exec_cmd fs_open str_command
     recursion_limit).

(** X8.  An executor that does not override [_exec_cmd] gets [Result(None,
    None)].  The status [None] is not 0, so with [exit_on_error] the
    command exits with status 1 and publishes nothing.  Without it, [None]
    and the text "None" are published, and the first predicate that is set
    is applied to [None]: [re.search] raises [TypeError] (or the error of
    the pattern).  Only a command with no predicate returns.  There is one
    attempt, and no sleep, in every case. *)
Theorem base_primitive_yields_none command st :
  exists st',
    exec command st
    = (if exit_on_error command then Raise (SystemExit 1)
       else match first_pattern command with
            | Some p => if re_valid p then Raise TypeError else Raise ReError
            | None => Normal tt
            end, st')
    /\ attempts st' = S (attempts st)
    /\ run_count st' = run_count st
    /\ count is_sleep (trace st') = count is_sleep (trace st)
    /\ varstore st'
       = if exit_on_error command then varstore st
         else <["RESULT_RETURNCODE" := VStr "None"]>
                (<["RESULT_STDOUT" := VNone]> (varstore st)).
Proof.
destruct (exec_unfold re_valid re_match Base._exec_cmd fs_open str_command
            recursion_limit
            command st) as [d ->].
set (result := {| stdout := VNone; returncode := None |}).
assert (attempt_result (Base._exec_cmd (attempts st) command) = Some result)
  as Ha by reflexivity.
destruct (exit_on_error command) eqn:Hx.
- rewrite (exec_body_fatal _ _ _ _ _ _ _ _ _ Ha) by (rewrite Hx; reflexivity).
  eexists. split; [reflexivity|]. repeat split; reflexivity.
- rewrite (exec_body_published _ _ _ _ _ _ _ _ _ Ha) by (rewrite Hx; reflexivity).
  assert (count is_sleep
            (trace (published fs_open command result
                      (attempted str_command command st)))
          = count is_sleep (trace st)) as Hs.
  { unfold published, save_events. simpl. rewrite count_app.
    destruct (save command) as [path|]; [|reflexivity].
    destruct (truthy (Some path)); [|reflexivity].
    destruct (fs_open path); reflexivity. }
  unfold first_pattern, BaseExecutor.error_if, BaseExecutor.error_if_not,
    BaseExecutor.loop_if, BaseExecutor.loop_if_not, re_search.
  destruct (schemas.error_if command) as [p1|].
  { destruct (re_valid p1); eexists; (split; [reflexivity|]);
      repeat split; try reflexivity; simpl; exact Hs. }
  destruct (schemas.error_if_not command) as [p2|].
  { destruct (re_valid p2); eexists; (split; [reflexivity|]);
      repeat split; try reflexivity; simpl; exact Hs. }
  destruct (schemas.loop_if command) as [p3|].
  { destruct (re_valid p3); eexists; (split; [reflexivity|]);
      repeat split; try reflexivity; simpl; exact Hs. }
  destruct (schemas.loop_if_not command) as [p4|].
  { destruct (re_valid p4); eexists; (split; [reflexivity|]);
      repeat split; try reflexivity; simpl; exact Hs. }
  eexists. split; [reflexivity|]. repeat split; try reflexivity. exact Hs.
Qed.
End BasePrimitive.
(** * Further properties of [replace_variables] *)

Section ReplaceVariablesProperties.
Import BaseExecutor.
Variable substitute : gmap string pyval -> string -> string.

Lemma for_each_app {A} (f : A -> M executor unit) l1 l2 st :
  for_each f (l1 ++ l2) st = bind (for_each f l1) (fun _ => for_each f l2) st.
Proof.
revert st. induction l1 as [|x l1 IH]; intros st; [reflexivity|].
simpl. unfold bind. destruct (f x st) as [[[]|e|] s1]; [|reflexivity..].
rewrite IH. reflexivity.
Qed.

(** X10.  A template variable that the descriptor does not have: the variables
    before it are dealt with, then [getattr] raises [AttributeError] and
    [replace_variables] ends with it.  The objects of the given heap are
    still what they were; the half-made copy is left behind in new
    locations. *)
Theorem replace_variables_missing_attribute command attrs tv pre bad post st :
  closed (objects st) -> dicts_wf (objects st) ->
  objects st !! command = Some (OCommand attrs tv) ->
  tv = pre ++ bad :: post ->
  (forall member, member ∈ pre -> is_Some (assoc_get member attrs)) ->
  assoc_get bad attrs = None ->
  exists h',
    replace_variables substitute command st
    = (Raise AttributeError, with_objects h' st)
    /\ (forall l o, objects st !! l = Some o -> h' !! l = Some o)
    /\ (length (objects st) < length h')%nat.
Proof.
intros Hcl Hwf Hcmd Htv Hpre Hbad. set (h := objects st) in *.
assert (command < length h)%nat as Hc by (eapply lookup_lt_Some; exact Hcmd).
destruct (deepcopy_spec h h (VRef command) Hcl (copying_start h Hcl))
  as (x' & h1 & m & Edc & (Hcp1 & _ & Hl1 & Hf1 & Hn1) & (t & Hmt & ->)).
{ intros r Hr. apply list_elem_of_singleton in Hr. injection Hr as ->. exact Hc. }
destruct (Hn1 command t Hmt (lookup_empty _))
  as (Htge & o & o' & Ho & Ho' & ys & -> & Hys).
assert (o = OCommand attrs tv) as -> by congruence. simpl in Ho', Hys.
assert (length (map fst attrs) = length ys) as Hlen_ys
  by (rewrite <- (Forall2_length _ _ _ Hys), !length_map; reflexivity).
assert (t < length h1)%nat as Htl by (eapply lookup_lt_Some; exact Ho').
assert (h1 !! command = Some (OCommand attrs tv)) as Hcmd1
  by (rewrite Hf1 by exact Hc; exact Hcmd).
destruct (replace_members_spec substitute h m h1 t command attrs tv Hcl Hwf Hcmd
            Htge Htl pre [] (with_objects h1 st) Hpre)
  as (h' & Eloop & Hcp' & Hlen' & _).
{ split; [eapply copying_forget; exact Hcp1|]. split; [simpl; lia|].
  split; [reflexivity|].
  exists (zip (map fst attrs) ys). split; [exact Ho'|].
  split; [apply fst_zip; lia|].
  intros name v Hv.
  destruct (assoc_get_zip (value_copy m) name attrs ys v Hys Hv) as (v' & Hv' & Hvc).
  exists v'. split; [exact Hv'|]. exact Hvc. }
destruct Hcp' as (_ & Hk & _).
exists h'. split; [|split; [exact Hk|lia]].
unfold BaseExecutor.replace_variables.
unfold bind at 1. unfold copy_deepcopy at 1. fold h. rewrite Edc.
unfold bind at 1. unfold list_template_vars at 1. simpl objects. rewrite Hcmd1.
rewrite Htv. unfold bind at 1. rewrite for_each_app.
rewrite (bind_normal _ _ _ _ _ Eloop).
change (for_each (replace_member substitute command t) (bad :: post))
  with (bind (replace_member substitute command t bad)
          (fun _ => for_each (replace_member substitute command t) post)).
unfold bind at 1. unfold BaseExecutor.replace_member. unfold bind at 1.
unfold getattr at 1. simpl objects. rewrite (Hk _ _ Hcmd), Hbad. reflexivity.
Qed.
End ReplaceVariablesProperties.

(** * Further properties of the session store *)

Section SessionStoreProperties.
Import MsfSessionStore.
Variable msfsessions_list : nat -> list (string * string).
Variable str_sessions : list (string * string) -> string.

Local Abbreviation get_session_by_name :=
  (MsfSessionStore.get_session_by_name msfsessions_list).
Local Abbreviation wait_for_session :=
  (MsfSessionStore.wait_for_session msfsessions_list str_sessions).
Local Abbreviation wait_for_session_loop :=
  (MsfSessionStore.wait_for_session_loop msfsessions_list).
Local Abbreviation wait_for_increased_session :=
  (MsfSessionStore.wait_for_increased_session msfsessions_list str_sessions).
Local Abbreviation wait_for_increased_session_loop :=
  (MsfSessionStore.wait_for_increased_session_loop msfsessions_list str_sessions).

Lemma scan_known name (directory : gmap string string) registry u :
  directory !! name = Some u ->
  scan name directory registry = first_with_uuid u registry.
Proof.
intros Hn. induction registry as [|[k v] registry IH]; simpl; [reflexivity|].
rewrite Hn, IH. reflexivity.
Qed.

Lemma first_with_uuid_sound uuid registry session_id :
  first_with_uuid uuid registry = Some session_id ->
  (session_id, uuid) ∈ registry.
Proof.
induction registry as [|[k v] registry IH]; simpl; [discriminate|].
destruct (String.eqb_spec v uuid) as [->|].
- intros [= ->]. left.
- intros H. right. exact (IH H).
Qed.

Lemma scan_sound name (directory : gmap string string) registry k :
  scan name directory registry = Some k ->
  exists u, directory !! name = Some u /\ (k, u) ∈ registry.
Proof.
destruct (directory !! name) as [u|] eqn:Hn.
- rewrite (scan_known _ _ _ _ Hn). intros H. exists u.
  split; [reflexivity|]. exact (first_with_uuid_sound _ _ _ H).
- rewrite (scan_absent _ _ _ Hn). discriminate.
Qed.

Lemma first_new_sound known registry session_id exploit_uuid :
  first_new known registry = Some (session_id, exploit_uuid) ->
  (session_id, exploit_uuid) ∈ registry /\ session_id ∉ known.
Proof.
induction registry as [|[k v] registry IH]; simpl; [discriminate|].
destruct (bool_decide (k ∈ known)) eqn:Hk.
- intros H. destruct (IH H) as [H1 H2]. split; [right; exact H1|exact H2].
- intros [= -> ->]. split; [left|]. apply bool_decide_eq_false in Hk. exact Hk.
Qed.

(** X11.  A handle that [get_session_by_name] returns is a handle of the
    registry, as it was last read, whose correlation id is the one the
    directory holds for the name; this holds with and without blocking,
    after any number of rounds and whatever the queue held. *)
Theorem get_session_by_name_returns_matching_handle rounds name block :
  forall st k st',
    get_session_by_name rounds name block st = (Normal k, st') ->
    exists u i,
      sessions st' !! name = Some u
      /\ reads st' = S i
      /\ (k, u) ∈ msfsessions_list i.
Proof.
induction rounds as [|rounds IH]; intros st k st' H; [discriminate|].
simpl in H. unfold bind at 1 in H.
destruct (drain st) as [[[]|e|] s1]; try discriminate.
unfold bind at 1 in H. unfold msfsessions at 1 in H.
unfold bind at 1 in H. simpl in H.
destruct (scan name (sessions s1) (msfsessions_list (reads s1))) as [k0|] eqn:Hs.
- injection H as <- <-. destruct (scan_sound _ _ _ _ Hs) as (u & Hu & Hin).
  exists u, (reads s1). repeat split; assumption.
- destruct block; simpl in H; [|discriminate].
  unfold bind, time_sleep, emit in H. simpl in H.
  exact (IH _ _ _ H).
Qed.

(** X12.  Blocking: while the registry shows no matching handle the call sleeps
    3 seconds and polls again; at the first read that shows one it returns
    that handle, having slept once for every read before. *)
Theorem get_session_by_name_blocks_until_match name k extra :
  forall j st,
    no_pending st ->
    (forall i, (i < j)%nat ->
       scan name (sessions st) (msfsessions_list (reads st + i)) = None) ->
    scan name (sessions st) (msfsessions_list (reads st + j)) = Some k ->
    get_session_by_name (S j + extra) name true st
    = (Normal k,
       with_trace (repeat (ESleep 3) j ++ trace st)
         (with_reads (reads st + S j) st)).
Proof.
induction j as [|j IH]; intros st Hn Hmiss Hhit.
- rewrite Nat.add_0_r in Hhit.
  change (S 0 + extra)%nat with (S extra).
  rewrite (get_session_round _ _ _ _ _ _ (drain_no_pending _ Hn)), Hhit.
  simpl. replace (reads st + 1)%nat with (S (reads st)) by lia. reflexivity.
- change (S (S j) + extra)%nat with (S (S j + extra)).
  rewrite (get_session_round _ _ _ _ _ _ (drain_no_pending _ Hn)).
  pose proof (Hmiss O ltac:(lia)) as H0. rewrite Nat.add_0_r in H0. rewrite H0.
  rewrite IH.
  + simpl. rewrite repeat_app_cons.
    replace (reads st + S (S j))%nat with (S (reads st + S j)) by lia.
    reflexivity.
  + exact Hn.
  + intros i Hi. simpl.
    replace (S (reads st + i)) with (reads st + S i)%nat by lia. apply Hmiss. lia.
  + simpl. replace (S (reads st + j)) with (reads st + S j)%nat by lia. exact Hhit.
Qed.

(** The directory after a drain: for a name that the queue held, the id
    of the pair queued last; for any other name, what it was. *)
Lemma merge_keeps_last_pair pending (directory : gmap string string) name :
  merge pending directory !! name
  = match assoc_get name (rev pending) with
    | Some u => Some u
    | None => directory !! name
    end.
Proof.
induction pending as [|[k u] pending IH] using rev_ind; [reflexivity|].
unfold merge in *. rewrite foldl_app, rev_unit. simpl.
destruct (String.eqb_spec name k) as [->|Hne].
- apply lookup_insert_eq.
- rewrite lookup_insert_ne by congruence. exact IH.
Qed.

(** X14.  Draining the queue is last-write-wins: every pending pair is taken,
    the queue is left empty, and the directory then holds, for a name that
    the queue held, the id of the pair queued last, and for any other name
    what it held before. *)
Theorem drain_keeps_last_pair st q pending name :
  queue st = Some q ->
  queues st !! q = Some pending ->
  0 <= get_session_wait_time st ->
  exists st1,
    drain st = (Normal tt, st1)
    /\ queues st1 !! q = Some []
    /\ sessions st1 !! name
       = match assoc_get name (rev pending) with
         | Some u => Some u
         | None => sessions st !! name
         end.
Proof.
intros Hq Hp Hw. exists (drained q pending st). split; [|split].
- unfold drain. rewrite Hq, Hp. apply drain_loop_spec; assumption.
- apply drained_queue, Hp.
- destruct (drained_frame q pending st) as (-> & _).
  apply merge_keeps_last_pair.
Qed.

(** X15.  Entries are consumed once.  A call drains what is pending into the
    directory; a call that follows finds nothing pending and changes
    nothing but the count of registry reads: no item is taken, nothing is
    merged, nothing sleeps. *)
Theorem second_call_finds_nothing_pending name name' rounds rounds' st q pending :
  queue st = Some q ->
  queues st !! q = Some pending ->
  0 <= get_session_wait_time st ->
  exists o1 st1,
    get_session_by_name (S rounds) name false st = (o1, st1)
    /\ no_pending st1
    /\ sessions st1 = merge pending (sessions st)
    /\ exists o2,
         get_session_by_name (S rounds') name' false st1
         = (o2, with_reads (S (reads st1)) st1).
Proof.
intros Hq Hp Hw.
assert (drain st = (Normal tt, drained q pending st)) as Hd.
{ unfold drain. rewrite Hq, Hp. apply drain_loop_spec; assumption. }
destruct (drained_frame q pending st) as (H1 & H2 & H3 & H4 & H5 & H6).
pose proof (drained_queue q pending st Hp) as Hempty.
assert (no_pending (with_reads (S (reads (drained q pending st)))
                      (drained q pending st))) as Hnp.
{ unfold no_pending. simpl. rewrite H3, Hq. exact Hempty. }
assert (exists o1,
  get_session_by_name (S rounds) name false st
  = (o1, with_reads (S (reads (drained q pending st))) (drained q pending st)))
  as [o1 E1].
{ rewrite (get_session_round _ _ _ _ _ _ Hd).
  destruct (scan _ _ _); eexists; reflexivity. }
eexists o1, _. split; [exact E1|]. split; [exact Hnp|]. split; [exact H1|].
rewrite (get_session_round _ _ _ _ _ _ (drain_no_pending _ Hnp)).
destruct (scan _ _ _); eexists; reflexivity.
Qed.

(** X16.  The hand-over through the queue.  The pair that a worker has put last
    on the queue is merged by the owner's next call, which then returns the
    first handle of the registry that carries the correlation id. *)
Theorem queued_pair_is_found_by_owner name uuid k rounds block st q content :
  queue st = Some q ->
  queues st !! q = Some (content ++ [(name, uuid)]) ->
  0 <= get_session_wait_time st ->
  first_with_uuid uuid (msfsessions_list (reads st)) = Some k ->
  exists st',
    get_session_by_name (S rounds) name block st = (Normal k, st')
    /\ sessions st' !! name = Some uuid
    /\ queues st' !! q = Some []
    /\ count is_sleep (trace st') = (count is_sleep (trace st) + S (length content))%nat.
Proof.
intros Hq Hp Hw Hf.
assert (drain st = (Normal tt, drained q (content ++ [(name, uuid)]) st)) as Hd.
{ unfold drain. rewrite Hq, Hp. apply drain_loop_spec; assumption. }
destruct (drained_frame q (content ++ [(name, uuid)]) st)
  as (H1 & H2 & H3 & H4 & H5 & H6).
assert (merge (content ++ [(name, uuid)]) (sessions st) !! name = Some uuid) as Hm.
{ unfold merge. rewrite foldl_app. simpl. apply lookup_insert_eq. }
rewrite (get_session_round _ _ _ _ _ _ Hd), H1, H4.
rewrite (scan_known _ _ _ _ Hm), Hf.
eexists. split; [reflexivity|]. simpl. rewrite H1, H6, length_app. simpl.
split; [exact Hm|]. split; [apply drained_queue, Hp|lia].
Qed.

(** X17.  [add_session] and the lookup.  After [add_session(name, uuid)], with
    nothing pending, [get_session_by_name(name, ..., block=False)] returns
    the first handle of the registry that carries [uuid], and fails with
    "not found" when no handle does. *)
Theorem add_session_then_lookup name uuid rounds st :
  no_pending st ->
  exists st',
    (add_session name uuid ;; get_session_by_name (S rounds) name false) st
    = (match first_with_uuid uuid (msfsessions_list (reads st)) with
       | Some k => Normal k
       | None => Raise (ExecException ("Session (" +:+ name +:+ ") not found"))
       end, st')
    /\ sessions st' = <[name := uuid]> (sessions st).
Proof.
intros Hn. unfold bind at 1. unfold add_session at 1. unfold bind at 1.
unfold logger_debug, emit at 1.
match goal with |- context [get_session_by_name _ _ _ ?s] => set (s1 := s) end.
assert (no_pending s1) as Hn1 by exact Hn.
rewrite (get_session_round _ _ _ _ _ _ (drain_no_pending _ Hn1)).
assert (sessions s1 !! name = Some uuid) as Hl by apply lookup_insert_eq.
rewrite (scan_known _ _ _ _ Hl).
change (reads s1) with (reads st).
destruct (first_with_uuid uuid (msfsessions_list (reads st)));
  eexists; split; reflexivity.
Qed.

(** X18.  A store as [__init__] makes it knows no session: whatever the name and
    the registry, a lookup that does not block fails with "not found". *)
Theorem new_store_finds_no_session vs qs name rounds :
  get_session_by_name (S rounds) name false (__init__ vs qs)
  = (Raise (ExecException ("Session (" +:+ name +:+ ") not found")),
     with_reads 1 (__init__ vs qs)).
Proof.
rewrite (get_session_round _ _ _ _ _ _ (drain_no_pending (__init__ vs qs) I)).
rewrite scan_absent by apply lookup_empty. reflexivity.
Qed.
Lemma add_or_queue_session_registered name uuid queue session_id st st' :
  add_or_queue_session name uuid queue session_id st = (Normal tt, st') ->
  registered name uuid session_id queue st st'.
Proof.
destruct queue as [q|].
- unfold add_or_queue_session, queue_put.
  destruct (queues st !! q) as [content|] eqn:Hq; [|discriminate].
  intros [= <-]. exists content. repeat split. exact Hq.
- rewrite add_or_queue_session_direct. intros [= <-]. repeat split.
Qed.

Lemma registered_reads name uuid session_id queue st st' n tr :
  registered name uuid session_id queue (with_reads n st) st' ->
  count is_sleep tr = O ->
  registered name uuid session_id queue st
    (with_trace (tr ++ trace st') (with_reads (S (reads st')) st')).
Proof.
unfold registered. destruct queue as [q|]; simpl.
- intros (content & H1 & H2 & H3 & H4 & H5) Htr. exists content.
  rewrite count_app, Htr. repeat split; assumption.
- intros (H1 & H2 & H3 & H4) Htr. rewrite count_app, Htr.
  repeat split; assumption.
Qed.

Lemma registered_from_reads name uuid session_id queue st st' n :
  registered name uuid session_id queue (with_reads n st) st' ->
  registered name uuid session_id queue st st'.
Proof. unfold registered. destruct queue; exact (fun H => H). Qed.

Lemma wait_for_session_loop_sound name uuid queue rounds : forall st st',
  wait_for_session_loop rounds name uuid queue st = (Normal tt, st') ->
  exists session_id i,
    (session_id, uuid) ∈ msfsessions_list i
    /\ registered name uuid session_id queue st st'.
Proof.
induction rounds as [|rounds IH]; intros st st' H; [discriminate|].
simpl in H. unfold bind at 1 in H. unfold msfsessions at 1 in H.
destruct (0 <? length (msfsessions_list (reads st)))%nat.
- unfold bind at 1 in H. unfold msfsessions at 1 in H.
  match type of H with context [first_with_uuid uuid ?r] =>
    destruct (first_with_uuid uuid r) as [session_id|] eqn:Hf end.
  + apply add_or_queue_session_registered in H.
    eexists session_id, _. split; [exact (first_with_uuid_sound _ _ _ Hf)|].
    apply registered_from_reads in H. apply registered_from_reads in H. exact H.
  + destruct (IH _ _ H) as (sid & i & Hin & Hr).
    exists sid, i. split; [exact Hin|].
    apply registered_from_reads in Hr. apply registered_from_reads in Hr. exact Hr.
- destruct (IH _ _ H) as (sid & i & Hin & Hr).
  exists sid, i. split; [exact Hin|].
  apply registered_from_reads in Hr. exact Hr.
Qed.

Lemma registered_after_log name uuid session_id queue st msg st' :
  registered name uuid session_id queue
    (with_trace (ELog Debug msg :: trace st) st) st' ->
  registered name uuid session_id queue st st'.
Proof. unfold registered. destruct queue; exact (fun H => H). Qed.

(** X19.  When [wait_for_session] returns, the registry has shown a handle with
    the correlation id it waited for, and that handle and the pair are
    where [add_or_queue_session] puts them: on the queue and nowhere else
    when a queue was given; in the directory and in [LAST_MSF_SESSION],
    with one sleep, when none was. *)
Theorem wait_for_session_registers_a_live_handle name uuid queue rounds st st' :
  wait_for_session rounds name uuid queue st = (Normal tt, st') ->
  exists session_id i,
    (session_id, uuid) ∈ msfsessions_list i
    /\ registered name uuid session_id queue st st'.
Proof.
unfold MsfSessionStore.wait_for_session.
unfold bind at 1. unfold msfsessions at 1.
unfold bind at 1. unfold logger_debug, emit at 1.
intros H. destruct (wait_for_session_loop_sound _ _ _ _ _ _ H)
  as (sid & i & Hin & Hr).
exists sid, i. split; [exact Hin|].
apply registered_after_log in Hr. apply registered_from_reads in Hr. exact Hr.
Qed.

(** X20.  Once the registry shows a handle with the correlation id, and goes on
    showing it, [wait_for_session] returns: the rounds it needs are at most
    the reads that the registry takes to show the handle. *)
Theorem wait_for_session_returns name uuid queue k rounds st :
  (forall i, (k <= i)%nat ->
     (0 < length (msfsessions_list i))%nat
     /\ is_Some (first_with_uuid uuid (msfsessions_list i))) ->
  (1 <= rounds)%nat -> (k <= rounds + reads st)%nat ->
  match queue with Some q => is_Some (queues st !! q) | None => True end ->
  exists st', wait_for_session rounds name uuid queue st = (Normal tt, st').
Proof.
intros Hlive Hr Hk Hq.
unfold MsfSessionStore.wait_for_session.
unfold bind at 1. unfold msfsessions at 1.
unfold bind at 1. unfold logger_debug, emit at 1.
apply (wait_for_session_loop_returns msfsessions_list name uuid queue k Hlive).
- exact Hr.
- simpl. lia.
- exact Hq.
Qed.

Lemma wait_for_increased_session_loop_sound name queue len known rounds :
  forall st st',
  wait_for_increased_session_loop rounds len known name queue st = (Normal tt, st') ->
  exists session_id exploit_uuid i,
    (session_id, exploit_uuid) ∈ msfsessions_list i
    /\ session_id ∉ known
    /\ registered name exploit_uuid session_id queue st st'.
Proof.
induction rounds as [|rounds IH]; intros st st' H; [discriminate|].
simpl in H. unfold bind at 1 in H. unfold msfsessions at 1 in H.
destruct (len <? length (msfsessions_list (reads st)))%nat.
- unfold bind at 1 in H. unfold msfsessions at 1 in H.
  match type of H with context [first_new known ?r] =>
    destruct (first_new known r) as [[session_id exploit_uuid]|] eqn:Hf end.
  + unfold bind at 1 in H.
    match type of H with context [add_or_queue_session ?a ?b ?c ?d ?s] =>
      destruct (add_or_queue_session a b c d s) as [[[]|e|] s1] eqn:Ea end;
      try discriminate.
    apply add_or_queue_session_registered in Ea.
    unfold bind, msfsessions, logger_debug, emit in H. simpl in H.
    injection H as <-.
    destruct (first_new_sound _ _ _ _ Hf) as [Hin Hnew].
    eexists session_id, exploit_uuid, _. split; [exact Hin|]. split; [exact Hnew|].
    apply registered_from_reads in Ea.
    exact (registered_reads _ _ _ _ _ _ _
             [ELog Debug ("Sessions: " +:+ str_sessions (msfsessions_list (reads s1)))]
             Ea eq_refl).
  + destruct (IH _ _ H) as (sid & u & i & Hin & Hn & Hr).
    exists sid, u, i. split; [exact Hin|]. split; [exact Hn|].
    apply registered_from_reads in Hr. apply registered_from_reads in Hr. exact Hr.
- destruct (IH _ _ H) as (sid & u & i & Hin & Hn & Hr).
  exists sid, u, i. split; [exact Hin|]. split; [exact Hn|].
  apply registered_from_reads in Hr. exact Hr.
Qed.

(** X21.  When [wait_for_increased_session] returns, the correlation id it has
    attributed to the name is that of a handle which the registry has shown
    and which was not in the snapshot taken at the start; the [uuid] it was
    given plays no part.  The pair and the handle are where
    [add_or_queue_session] puts them. *)
Theorem wait_for_increased_session_registers_a_new_handle
    name uuid queue rounds st st' :
  wait_for_increased_session rounds name uuid queue st = (Normal tt, st') ->
  exists session_id exploit_uuid i,
    (session_id, exploit_uuid) ∈ msfsessions_list i
    /\ session_id ∉ map fst (msfsessions_list (S (reads st)))
    /\ registered name exploit_uuid session_id queue st st'.
Proof.
unfold MsfSessionStore.wait_for_increased_session.
unfold bind at 1. unfold msfsessions at 1.
unfold bind at 1. unfold msfsessions at 1. simpl reads.
intros H. destruct (wait_for_increased_session_loop_sound _ _ _ _ _ _ _ H)
  as (sid & u & i & Hin & Hn & Hr).
exists sid, u, i. split; [exact Hin|]. split; [exact Hn|].
apply registered_from_reads in Hr. apply registered_from_reads in Hr. exact Hr.
Qed.
(** With a wait time that is not negative the drain ends normally, or the
    store has no queue under the index. *)
Lemma drain_outcome st :
  0 <= get_session_wait_time st ->
  (exists st1, drain st = (Normal tt, st1)
               /\ get_session_wait_time st1 = get_session_wait_time st)
  \/ drain st = (Undefined, st).
Proof.
intros Hw. unfold drain. destruct (queue st) as [q|] eqn:Hq.
- destruct (queues st !! q) as [pending|] eqn:Hp; [|right; reflexivity].
  left. exists (drained q pending st). split.
  + apply drain_loop_spec; assumption.
  + apply drained_frame.
- left. exists st. split; reflexivity.
Qed.

(** X13.  A lookup that blocks never raises: with a wait time that is not
    negative, [get_session_by_name(..., block=True)] returns a handle or is
    still polling, however long it is followed; "not found" is reported
    only without blocking. *)
Theorem blocking_lookup_never_raises name rounds : forall st,
  0 <= get_session_wait_time st ->
  forall e st', get_session_by_name rounds name true st <> (Raise e, st').
Proof.
induction rounds as [|rounds IH]; intros st Hw e st'; [discriminate|].
destruct (drain_outcome st Hw) as [(st1 & Hd & Hw1)|Hd].
- rewrite (get_session_round _ _ _ _ _ _ Hd).
  destruct (scan name (sessions st1) (msfsessions_list (reads st1)));
    [discriminate|].
  apply IH. simpl. lia.
- simpl MsfSessionStore.get_session_by_name. unfold bind at 1. rewrite Hd.
  discriminate.
Qed.
End SessionStoreProperties.

(** * The further properties, at concrete inputs *)

Section PropertyScenarios.
Import Examples.
Import SessionExamples.

Lemma variable_to_int_returns_decimal_value_witness :
  variable_to_int "loop_count" "007" = Normal 7.
Proof.
apply (proj2 (variable_to_int_returns_decimal_value "loop_count" "007" 7)).
split; [discriminate|]. split; [reflexivity|]. split; [|split; [reflexivity|lia]].
unfold int_max_str_digits. simpl. lia.
Defined.

Lemma exec_publishes_result_witness :
  let c := a_command (Some "retry") (Some "done") (Some "FAIL") "3" in
  let st := init five_seconds [] in
  exists st',
    exec_with (prints "all done") c st = (Normal tt, st')
    /\ BaseExecutor.varstore st' !! "RESULT_STDOUT" = Some (VStr "all done")
    /\ BaseExecutor.varstore st' !! "RESULT_RETURNCODE"
       = Some (VStr (BaseExecutor.str_returncode
                       {| stdout := VStr "all done"; returncode := Some 0 |}))
    /\ (forall name, name <> "RESULT_STDOUT" -> name <> "RESULT_RETURNCODE" ->
          BaseExecutor.varstore st' !! name = BaseExecutor.varstore st !! name)
    /\ BaseExecutor.attempts st' = S (BaseExecutor.attempts st)
    /\ BaseExecutor.run_count st' = BaseExecutor.run_count st
    /\ count is_sleep (BaseExecutor.trace st') = count is_sleep (BaseExecutor.trace st)
    /\ count is_exec_cmd (BaseExecutor.trace st')
       = S (count is_exec_cmd (BaseExecutor.trace st)).
Proof.
intros c st.
apply (exec_publishes_result literal_valid literal_match (prints "all done")
         fs_ok cmd room c st {| stdout := VStr "all done"; returncode := Some 0 |}
         "all done").
- reflexivity.
- reflexivity.
- left. reflexivity.
- split; intros p H; [injection H as <-; split; reflexivity|discriminate H].
- split; intros p H; injection H as <-; split; try reflexivity.
  exists "done". reflexivity.
Defined.

Lemma exec_propagates_other_exceptions_witness :
  let c := a_command (Some "retry") None (Some "FAIL") "3" in
  let st := init five_seconds [] in
  exec_with breaks c st = (Raise ValueError, attempted cmd c st)
  /\ BaseExecutor.varstore (attempted cmd c st) = BaseExecutor.varstore st.
Proof.
intros c st.
apply (exec_propagates_other_exceptions literal_valid literal_match breaks
         fs_ok cmd room c st ValueError).
- reflexivity.
- intros payload H. discriminate H.
Defined.

Lemma error_if_not_unmatched_exits_witness :
  let c := {| cmd := "check"; save := None; exit_on_error := false;
              error_if := None; error_if_not := Some "OK";
              loop_if := Some "pending"; loop_if_not := None;
              loop_count := "3" |} in
  let st := init five_seconds [] in
  exists st',
    exec_with (prints "pending") c st = (Raise (SystemExit 1), st')
    /\ head (BaseExecutor.trace st')
       = Some (ELog Error "Exitting because error_if_not does not match")
    /\ BaseExecutor.attempts st' = S (BaseExecutor.attempts st)
    /\ BaseExecutor.run_count st' = BaseExecutor.run_count st
    /\ count is_rerun (BaseExecutor.trace st') = count is_rerun (BaseExecutor.trace st)
    /\ count is_sleep (BaseExecutor.trace st') = count is_sleep (BaseExecutor.trace st).
Proof.
intros c st.
apply (error_if_not_unmatched_exits literal_valid literal_match (prints "pending")
         fs_ok cmd room c st {| stdout := VStr "pending"; returncode := Some 0 |}
         "pending" "OK").
- reflexivity.
- reflexivity.
- left. reflexivity.
- intros q H. discriminate H.
- reflexivity.
- reflexivity.
- reflexivity.
Defined.

Lemma loop_predicates_retry_bound_witness :
  exists st',
    run_with (prints "pending") 0%nat (fresh_executor not_ready)
    = (Raise (SystemExit 1), st')
    /\ BaseExecutor.attempts st' = (0 + 3)%nat
    /\ count is_rerun (BaseExecutor.trace st') = (0 + 3)%nat
    /\ count is_sleep (BaseExecutor.trace st') = (0 + (3 - 1))%nat
    /\ head (BaseExecutor.trace st')
       = Some (ELog Error "Exitting because loop_count exceeded").
Proof.
apply (loop_predicates_retry_bound literal_valid literal_match (prints "pending")
         fs_ok cmd room substitute_whole 0%nat (fresh_executor not_ready) not_ready
         (BaseExecutor.with_trace [ELog Debug "Template-Command: 'check'"]
            (BaseExecutor.with_objects
               [command_object not_ready; command_object not_ready]
               (fresh_executor not_ready)))
         3%nat {| loop_sleep := 5 |}).
- exists (VStr "check"), 1%nat. repeat split; vm_compute; reflexivity.
- reflexivity.
- lia.
- unfold room. lia.
- reflexivity.
- simpl. lia.
- intros i _. apply prints_asks_rerun; try reflexivity. right. split.
  + intros p H. discriminate H.
  + exists "READY". repeat split; reflexivity.
Defined.

Lemma replace_variables_touches_heap_only_witness :
  let r := BaseExecutor.replace_variables substitute_whole 1%nat module_executor in
  BaseExecutor.varstore (snd r) = BaseExecutor.varstore module_executor
  /\ BaseExecutor.run_count (snd r) = BaseExecutor.run_count module_executor
  /\ BaseExecutor.cmdconfig (snd r) = BaseExecutor.cmdconfig module_executor
  /\ BaseExecutor.attempts (snd r) = BaseExecutor.attempts module_executor
  /\ BaseExecutor.trace (snd r) = BaseExecutor.trace module_executor.
Proof.
intros r.
apply (replace_variables_touches_heap_only substitute_whole 1%nat module_executor
         (fst r) (snd r)).
apply surjective_pairing.
Defined.

Lemma exec_keeps_run_counter_bounded_witness :
  let st := init five_seconds [] in
  let r := BaseExecutor.exec literal_valid literal_match (prints "pending")
             fs_ok cmd room looping st in
  BaseExecutor.objects (snd r) = BaseExecutor.objects st
  /\ BaseExecutor.cmdconfig (snd r) = BaseExecutor.cmdconfig st
  /\ (BaseExecutor.attempts st <= BaseExecutor.attempts (snd r))%nat
  /\ BaseExecutor.run_count st <= BaseExecutor.run_count (snd r)
  /\ (exists new, BaseExecutor.trace (snd r) = new ++ BaseExecutor.trace st)
  /\ (forall limit,
        variable_to_int "loop_count" (loop_count looping) = Normal limit ->
        BaseExecutor.run_count (snd r) <= Z.max (BaseExecutor.run_count st) limit)
  /\ ((forall limit,
         variable_to_int "loop_count" (loop_count looping) <> Normal limit) ->
      BaseExecutor.run_count (snd r) = BaseExecutor.run_count st).
Proof.
intros st r.
apply (exec_keeps_run_counter_bounded literal_valid literal_match (prints "pending")
         fs_ok cmd room looping st (fst r) (snd r)).
apply surjective_pairing.
Defined.

Lemma replace_variables_missing_attribute_witness :
  let st := BaseExecutor.with_objects
              [OCommand [("cmd", VStr "$CMD")] ["cmd"; "target"; "cmd"]]
              module_executor in
  exists h',
    BaseExecutor.replace_variables substitute_whole 0%nat st
    = (Raise AttributeError, BaseExecutor.with_objects h' st)
    /\ (forall l o, BaseExecutor.objects st !! l = Some o -> h' !! l = Some o)
    /\ (length (BaseExecutor.objects st) < length h')%nat.
Proof.
intros st.
apply (replace_variables_missing_attribute substitute_whole 0%nat
         [("cmd", VStr "$CMD")] ["cmd"; "target"; "cmd"] ["cmd"] "target" ["cmd"] st).
- intros l o Hl r Hr. destruct l as [|l]; simpl in Hl; [|discriminate].
  injection Hl as <-. simpl in Hr.
  apply list_elem_of_singleton in Hr. discriminate Hr.
- intros d items Hd. destruct d as [|d]; simpl in Hd; discriminate.
- reflexivity.
- reflexivity.
- intros member Hm. apply list_elem_of_singleton in Hm as ->. eexists. reflexivity.
- reflexivity.
Defined.

Lemma get_session_by_name_returns_matching_handle_witness :
  let st := owner [("beacon1", "u1")] in
  let r := MsfSessionStore.get_session_by_name
             (appears_at 2 [("7", "u1")]) 5 "beacon1" true st in
  fst r = Normal "7"
  /\ exists u i,
       MsfSessionStore.sessions (snd r) !! "beacon1" = Some u
       /\ MsfSessionStore.reads (snd r) = S i
       /\ ("7", u) ∈ appears_at 2 [("7", "u1")] i.
Proof.
intros st r. split; [vm_compute; reflexivity|].
apply (get_session_by_name_returns_matching_handle (appears_at 2 [("7", "u1")])
         5 "beacon1" true st "7" (snd r)).
vm_compute. reflexivity.
Defined.

Lemma get_session_by_name_blocks_until_match_witness :
  let st := owner [] in
  let st0 := MsfSessionStore.with_sessions {["beacon1" := "u1"]} st in
  MsfSessionStore.get_session_by_name (appears_at 2 [("7", "u1")])
    (S 2 + 4) "beacon1" true st0
  = (Normal "7",
     MsfSessionStore.with_trace
       (repeat (ESleep 3) 2 ++ MsfSessionStore.trace st0)
       (MsfSessionStore.with_reads (MsfSessionStore.reads st0 + S 2) st0)).
Proof.
intros st st0.
apply (get_session_by_name_blocks_until_match (appears_at 2 [("7", "u1")])
         "beacon1" "7" 4 2 st0).
- reflexivity.
- intros i Hi. destruct i as [|[|i]]; [reflexivity|reflexivity|lia].
- reflexivity.
Defined.

Lemma second_call_finds_nothing_pending_witness :
  let st := owner [("beacon1", "u1"); ("beacon2", "u2")] in
  exists o1 st1,
    MsfSessionStore.get_session_by_name (steady [("7", "u1")])
      (S 0) "beacon1" false st = (o1, st1)
    /\ no_pending st1
    /\ MsfSessionStore.sessions st1
       = merge [("beacon1", "u1"); ("beacon2", "u2")] (MsfSessionStore.sessions st)
    /\ exists o2,
         MsfSessionStore.get_session_by_name (steady [("7", "u1")])
           (S 0) "beacon2" false st1
         = (o2, MsfSessionStore.with_reads (S (MsfSessionStore.reads st1)) st1).
Proof.
intros st.
apply (second_call_finds_nothing_pending (steady [("7", "u1")])
         "beacon1" "beacon2" 0 0 st 0%nat [("beacon1", "u1"); ("beacon2", "u2")]).
- reflexivity.
- reflexivity.
- simpl. lia.
Defined.

Lemma queued_pair_is_found_by_owner_witness :
  let st := owner ([("beacon0", "u0")] ++ [("beacon1", "u1")]) in
  exists st',
    MsfSessionStore.get_session_by_name (steady [("4", "u0"); ("7", "u1")])
      (S 0) "beacon1" false st = (Normal "7", st')
    /\ MsfSessionStore.sessions st' !! "beacon1" = Some "u1"
    /\ MsfSessionStore.queues st' !! 0%nat = Some []
    /\ count is_sleep (MsfSessionStore.trace st')
       = (count is_sleep (MsfSessionStore.trace st)
          + S (length [("beacon0", "u0")]))%nat.
Proof.
intros st.
apply (queued_pair_is_found_by_owner (steady [("4", "u0"); ("7", "u1")])
         "beacon1" "u1" "7" 0 false st 0%nat [("beacon0", "u0")]).
- reflexivity.
- reflexivity.
- simpl. lia.
- reflexivity.
Defined.

Lemma add_session_then_lookup_witness :
  let st := owner [] in
  exists st',
    (MsfSessionStore.add_session "beacon1" "u1" ;;
     MsfSessionStore.get_session_by_name (steady [("4", "u0"); ("7", "u1")])
       (S 0) "beacon1" false) st
    = (match MsfSessionStore.first_with_uuid "u1"
               (steady [("4", "u0"); ("7", "u1")] (MsfSessionStore.reads st)) with
       | Some k => Normal k
       | None => Raise (ExecException ("Session (" +:+ "beacon1" +:+ ") not found"))
       end, st')
    /\ MsfSessionStore.sessions st'
       = <["beacon1" := "u1"]> (MsfSessionStore.sessions st).
Proof.
intros st.
apply (add_session_then_lookup (steady [("4", "u0"); ("7", "u1")])
         "beacon1" "u1" 0 st).
reflexivity.
Defined.

Lemma wait_for_session_registers_a_live_handle_witness :
  let r := MsfSessionStore.wait_for_session (appears_at 2 [("7", "u1")])
             show_sessions 5 "beacon1" "u1" None worker in
  fst r = Normal tt
  /\ exists session_id i,
       (session_id, "u1") ∈ appears_at 2 [("7", "u1")] i
       /\ registered "beacon1" "u1" session_id None worker (snd r).
Proof.
intros r. split; [vm_compute; reflexivity|].
apply (wait_for_session_registers_a_live_handle (appears_at 2 [("7", "u1")])
         show_sessions "beacon1" "u1" None 5 worker (snd r)).
vm_compute. reflexivity.
Defined.

Lemma wait_for_session_returns_witness :
  exists st',
    MsfSessionStore.wait_for_session (appears_at 2 [("7", "u1")])
      show_sessions 5 "beacon1" "u1" (Some 0%nat) worker = (Normal tt, st').
Proof.
apply (wait_for_session_returns (appears_at 2 [("7", "u1")])
         show_sessions "beacon1" "u1" (Some 0%nat) 2 5 worker).
- intros i Hi. destruct i as [|[|i]]; [lia|lia|]. simpl. split; [lia|eexists; reflexivity].
- lia.
- simpl. lia.
- eexists. reflexivity.
Defined.

Lemma wait_for_increased_session_registers_a_new_handle_witness :
  let registry i := if (i <? 3)%nat then [("4", "u0")]
                    else [("4", "u0"); ("7", "u1")] in
  let r := MsfSessionStore.wait_for_increased_session registry
             show_sessions 5 "beacon1" "ignored" (Some 0%nat) worker in
  fst r = Normal tt
  /\ exists session_id exploit_uuid i,
       (session_id, exploit_uuid) ∈ registry i
       /\ session_id ∉ map fst (registry (S (MsfSessionStore.reads worker)))
       /\ registered "beacon1" exploit_uuid session_id (Some 0%nat) worker (snd r).
Proof.
intros registry r. split; [vm_compute; reflexivity|].
apply (wait_for_increased_session_registers_a_new_handle registry
         show_sessions "beacon1" "ignored" (Some 0%nat) 5 worker (snd r)).
vm_compute. reflexivity.
Defined.

Lemma blocking_lookup_never_raises_witness :
  MsfSessionStore.get_session_by_name (steady [("7", "other")]) 4 "beacon1" true
    (owner [("beacon1", "u1")])
  <> (Raise (ExecException "Session (beacon1) not found"), owner []).
Proof.
apply (blocking_lookup_never_raises (steady [("7", "other")]) "beacon1" 4
         (owner [("beacon1", "u1")])).
simpl. lia.
Defined.

Lemma drain_keeps_last_pair_witness :
  let st := owner [("beacon1", "u1"); ("beacon2", "u2"); ("beacon1", "u3")] in
  exists st1,
    MsfSessionStore.drain st = (Normal tt, st1)
    /\ MsfSessionStore.queues st1 !! 0%nat = Some []
    /\ MsfSessionStore.sessions st1 !! "beacon1"
       = match assoc_get "beacon1"
                 (rev [("beacon1", "u1"); ("beacon2", "u2"); ("beacon1", "u3")]) with
         | Some u => Some u
         | None => MsfSessionStore.sessions st !! "beacon1"
         end.
Proof.
intros st.
apply (drain_keeps_last_pair st 0%nat
         [("beacon1", "u1"); ("beacon2", "u2"); ("beacon1", "u3")] "beacon1").
- reflexivity.
- reflexivity.
- simpl. lia.
Defined.

End PropertyScenarios.
